(** * Resilience layer of the Zixir Python bridges

    A shallow embedding of the retry executor, the circuit breaker and the
    result cache of [priv/python/vector_db_pool.py], of the orchestration in
    [priv/python/vector_db_bridge.py] ([VectorDBBridge.search], [add]) and of
    the ODBC connection pool of [priv/python/odbc_bridge.py].

    Conventions of the embedding.
    - Python [int] is [Z]; a Python [float] holding a time, a duration or a
      latency is an exact rational [Q] (rounding of floats is not modelled).
    - A method that mutates [self] takes the object and returns the new one.
    - A call that can raise returns an [outcome]; the exceptions are the
      instances of Python's [Exception] class.
    - Every method body runs under the object's lock; the model is the
      sequential behaviour of one call at a time.
    - [time.time()] is a read of the clock of an abstract world, see
      [Runtime]. *)

From Stdlib Require Import ZArith QArith Qminmax String List Bool Lia Lqa.
Import ListNotations.
Open Scope Z_scope.

(** ** Exceptions and results *)

(** The exception classes the code raises or tells apart.  A constructor
    stands for the class and its subclasses; [OtherException] is any
    [Exception] that is none of the listed ones. *)
Inductive exc : Type :=
| ConnectionError (msg : string)
| TimeoutError (msg : string)
| OSError (msg : string)
| ValueError (msg : string)
| TypeError (msg : string)
| CircuitBreakerOpen (retry_after : Q)
| PoolExhaustedError (active max_size : Z)
| OtherException (cls msg : string).

Inductive outcome (A : Type) : Type :=
| Return (a : A)
| Raise (e : exc).
Arguments Return {A} a.
Arguments Raise {A} e.

(** [x > y] on floats, as a boolean. *)
Definition Qgt_bool (x y : Q) : bool := negb (Qle_bool x y).

(** [x >= y] on floats, as a boolean. *)
Definition Qge_bool (x y : Q) : bool := Qle_bool y x.

(** The clock and the blocking calls of the process.  [time_sleep d] is
    [time.sleep(d)]; [sem_timeout d] is a semaphore [acquire(timeout=d)] that
    waited [d] seconds without getting a permit. *)
Class Runtime (World : Type) : Type := {
  time_time : World -> Q;
  time_sleep : Q -> World -> World;
  sem_timeout : Q -> World -> World
}.

(** * vector_db_pool.py *)

(** ** CircuitBreaker *)
Module CircuitBreaker.

Inductive state_name : Type := CLOSED | OPEN | HALF_OPEN.

Record t : Type := mk {
  failure_threshold : Z;
  success_threshold : Z;
  timeout_seconds : Q;
  _state : state_name;
  _failure_count : Z;
  _success_count : Z;
  _last_failure_time : option Q
}.

Definition set_state (s : state_name) (b : t) : t :=
  mk (failure_threshold b) (success_threshold b) (timeout_seconds b)
     s (_failure_count b) (_success_count b) (_last_failure_time b).

Definition set_failure_count (n : Z) (b : t) : t :=
  mk (failure_threshold b) (success_threshold b) (timeout_seconds b)
     (_state b) n (_success_count b) (_last_failure_time b).

Definition set_success_count (n : Z) (b : t) : t :=
  mk (failure_threshold b) (success_threshold b) (timeout_seconds b)
     (_state b) (_failure_count b) n (_last_failure_time b).

Definition set_last_failure_time (x : option Q) (b : t) : t :=
  mk (failure_threshold b) (success_threshold b) (timeout_seconds b)
     (_state b) (_failure_count b) (_success_count b) x.

(** [CircuitBreaker.__init__] *)
Definition __init__ (failure_threshold success_threshold : Z)
    (timeout_seconds : Q) : t :=
  mk failure_threshold success_threshold timeout_seconds CLOSED 0 0 None.

(** [can_execute]; [now] is the value [time.time()] has during the call.
    In [OPEN] the subtraction needs a number: with [_last_failure_time]
    still [None] Python raises [TypeError]. *)
Definition can_execute (now : Q) (b : t) : outcome bool * t :=
  match _state b with
  | CLOSED => (Return true, b)
  | OPEN =>
      match _last_failure_time b with
      | None => (Raise (TypeError "unsupported operand type(s) for -"), b)
      | Some last =>
          if Qge_bool (now - last) (timeout_seconds b)
          then (Return true, set_success_count 0 (set_state HALF_OPEN b))
          else (Return false, b)
      end
  | HALF_OPEN => (Return true, b)
  end.

(** [record_success] *)
Definition record_success (b : t) : t :=
  match _state b with
  | HALF_OPEN =>
      let b1 := set_success_count (_success_count b + 1) b in
      if _success_count b1 >=? success_threshold b1
      then set_failure_count 0 (set_state CLOSED b1)
      else b1
  | CLOSED => set_failure_count 0 b
  | OPEN => b
  end.

(** [record_failure] *)
Definition record_failure (now : Q) (b : t) : t :=
  let b1 := set_failure_count (_failure_count b + 1) b in
  let b2 := set_last_failure_time (Some now) b1 in
  match _state b2 with
  | HALF_OPEN => set_state OPEN b2
  | CLOSED =>
      if _failure_count b2 >=? failure_threshold b2
      then set_state OPEN b2
      else b2
  | OPEN => b2
  end.

(** [_retry_after] *)
Definition _retry_after (now : Q) (b : t) : Q :=
  match _last_failure_time b with
  | None => 0%Q
  | Some last =>
      let remaining := (timeout_seconds b - (now - last))%Q in
      Qmax 0 remaining
  end.

(** [__enter__]: the breaker itself is the value bound by [with]. *)
Definition __enter__ (now : Q) (b : t) : outcome unit * t :=
  match can_execute now b with
  | (Return true, b') => (Return tt, b')
  | (Return false, b') => (Raise (CircuitBreakerOpen (_retry_after now b')), b')
  | (Raise e, b') => (Raise e, b')
  end.

(** [__exit__]: [exc_type] is [None] exactly when the body did not raise;
    the method returns [False], so a raised exception goes on. *)
Definition __exit__ (now : Q) (exc_val : option exc) (b : t) : t :=
  match exc_val with
  | None => record_success b
  | Some _ => record_failure now b
  end.

(** The breaker after the failures recorded at the times [nows], in order. *)
Definition record_failures (nows : list Q) (b : t) : t :=
  fold_left (fun acc now => record_failure now acc) nows b.

(** The answers of successive [can_execute] calls at the times [nows]. *)
Fixpoint can_execute_all (nows : list Q) (b : t) : list (outcome bool) * t :=
  match nows with
  | [] => ([], b)
  | now :: rest =>
      let '(r, b1) := can_execute now b in
      let '(rs, b2) := can_execute_all rest b1 in
      (r :: rs, b2)
  end.

(** [record_success] called [n] times in a row. *)
Definition record_successes (n : nat) (b : t) : t :=
  Nat.iter n record_success b.

(** The dictionary [stats()] returns. *)
Record stats_dict : Type := mk_stats {
  stats_state : state_name;
  stats_failure_count : Z;
  stats_success_count : Z;
  stats_retry_after_seconds : Q
}.

(** [stats] *)
Definition stats (now : Q) (b : t) : stats_dict :=
  mk_stats (_state b) (_failure_count b) (_success_count b)
           (_retry_after now b).

(** The calls a user of the breaker makes, with the clock value each one
    reads. *)
Inductive call : Type :=
| CanExecute (now : Q)
| RecordSuccess
| RecordFailure (now : Q).

Definition do_call (c : call) (b : t) : t :=
  match c with
  | CanExecute now => snd (can_execute now b)
  | RecordSuccess => record_success b
  | RecordFailure now => record_failure now b
  end.

Definition do_calls (cs : list call) (b : t) : t :=
  fold_left (fun acc c => do_call c acc) cs b.

(** What every breaker built by [__init__] and used through its methods
    satisfies. *)
Definition sound (b : t) : Prop :=
  0 <= _failure_count b /\
  match _state b with
  | CLOSED => _failure_count b < failure_threshold b
  | OPEN => exists last, _last_failure_time b = Some last
  | HALF_OPEN =>
      (exists last, _last_failure_time b = Some last) /\
      (_success_count b = 0 \/
       (0 < _success_count b /\ _success_count b < success_threshold b))
  end.

End CircuitBreaker.

(** ** RequestMetrics *)
Module RequestMetrics.

(** One element of [latency_history].  [timestamp] is the clock value
    behind [datetime.now().isoformat()]; the text form is not modelled. *)
Record sample : Type := mk_sample {
  timestamp : Q;
  latency_ms : Q;
  success : bool
}.

Record t : Type := mk {
  total_requests : Z;
  successful_requests : Z;
  failed_requests : Z;
  total_latency_ms : Q;
  latency_history : list sample
}.

(** [deque(maxlen=100)] *)
Definition maxlen : nat := 100.

(** [deque.append]: a full deque drops its oldest element first. *)
Definition deque_append (x : sample) (d : list sample) : list sample :=
  if (maxlen <=? length d)%nat then tl d ++ [x] else d ++ [x].

Definition empty : t := mk 0 0 0 0%Q [].

(** [record_success] *)
Definition record_success (now latency : Q) (m : t) : t :=
  mk (total_requests m + 1)
     (successful_requests m + 1)
     (failed_requests m)
     (total_latency_ms m + latency)%Q
     (deque_append (mk_sample now latency true) (latency_history m)).

(** [record_failure] *)
Definition record_failure (now latency : Q) (m : t) : t :=
  mk (total_requests m + 1)
     (successful_requests m)
     (failed_requests m + 1)
     (total_latency_ms m)
     (deque_append (mk_sample now latency false) (latency_history m)).

(** [avg_latency_ms] *)
Definition avg_latency_ms (m : t) : Q :=
  if total_requests m =? 0 then 0%Q
  else (total_latency_ms m / inject_Z (total_requests m))%Q.

(** [success_rate] *)
Definition success_rate (m : t) : Q :=
  if total_requests m =? 0 then 1%Q
  else (inject_Z (successful_requests m) / inject_Z (total_requests m))%Q.

(** The dictionary [to_dict] returns. *)
Record metrics_dict : Type := mk_dict {
  dict_total_requests : Z;
  dict_successful_requests : Z;
  dict_failed_requests : Z;
  dict_avg_latency_ms : Q;
  dict_success_rate : Q
}.

(** [to_dict] *)
Definition to_dict (m : t) : metrics_dict :=
  mk_dict (total_requests m) (successful_requests m) (failed_requests m)
          (avg_latency_ms m) (success_rate m).

(** One recorded request: [record_success] or [record_failure], by the
    [success] field of the sample it appends. *)
Definition record (x : sample) (m : t) : t :=
  if success x then record_success (timestamp x) (latency_ms x) m
  else record_failure (timestamp x) (latency_ms x) m.

Definition record_all (xs : list sample) (m : t) : t :=
  fold_left (fun acc x => record x acc) xs m.

End RequestMetrics.

(** Ghost log of what a call did to the backend and to the pool, in order.
    No decision of the code reads it. *)
Inductive event : Type :=
| EvAcquire                     (* a permit was taken *)
| EvAcquireTimeout              (* acquire(timeout=...) gave up *)
| EvCall (raised : option exc)  (* the backend operation ran, and raised *)
| EvRelease                     (* the permit was given back *)
| EvSleep (delay : Q).          (* time.sleep(delay) *)

(** The exception of an outcome, [None] for a normal return. *)
Definition raised {A : Type} (r : outcome A) : option exc :=
  match r with
  | Return _ => None
  | Raise e => Some e
  end.

(** Number of invocations of the backend operation in a log. *)
Fixpoint calls (l : list event) : nat :=
  match l with
  | [] => 0
  | EvCall _ :: r => S (calls r)
  | _ :: r => calls r
  end.

(** Number of permits taken in a log. *)
Fixpoint acquires (l : list event) : nat :=
  match l with
  | [] => 0
  | EvAcquire :: r => S (acquires r)
  | _ :: r => acquires r
  end.

(** The delays of the [time.sleep] calls of a log, in order. *)
Fixpoint sleeps (l : list event) : list Q :=
  match l with
  | [] => []
  | EvSleep d :: r => d :: sleeps r
  | _ :: r => sleeps r
  end.

(** Number of attempts of a log that failed: the operation raised, or no
    permit came in time. *)
Fixpoint failures (l : list event) : nat :=
  match l with
  | [] => 0
  | EvCall (Some _) :: r => S (failures r)
  | EvAcquireTimeout :: r => S (failures r)
  | _ :: r => failures r
  end.

(** Number of permits given back in a log. *)
Fixpoint releases (l : list event) : nat :=
  match l with
  | [] => 0
  | EvRelease :: r => S (releases r)
  | _ :: r => releases r
  end.

(** A log respects the permit discipline when, starting with [held]
    permits: the operation is only invoked while exactly one permit is
    held, a sleep or a wait for a permit only happens while none is held, no
    permit is given back that was not taken, and none is held at the end. *)
Fixpoint permit_discipline (held : nat) (l : list event) : bool :=
  match l with
  | [] => (held =? 0)%nat
  | EvAcquire :: r => (held =? 0)%nat && permit_discipline (S held) r
  | EvRelease :: r =>
      match held with
      | O => false
      | S h => permit_discipline h r
      end
  | EvCall _ :: r => (held =? 1)%nat && permit_discipline held r
  | EvSleep _ :: r => (held =? 0)%nat && permit_discipline held r
  | EvAcquireTimeout :: r => (held =? 0)%nat && permit_discipline held r
  end.

(** Whether a list of delays never decreases. *)
Fixpoint nondecreasing (l : list Q) : Prop :=
  match l with
  | [] => True
  | x :: r =>
      match r with
      | [] => True
      | y :: _ => (x <= y)%Q /\ nondecreasing r
      end
  end.

(** [range(n)] *)
Definition range (n : Z) : list Z := map Z.of_nat (seq 0 (Z.to_nat n)).

(** ** ConnectionPool (retry executor) *)
Module ConnectionPool.

Record t : Type := mk {
  max_connections : Z;
  connection_timeout : Q;
  max_retries : Z;
  retry_base_delay : Q;
  retry_max_delay : Q;
  _available : Z;                 (* value of the semaphore *)
  _metrics : RequestMetrics.t;
  _healthy : bool
}.

Definition set_available (n : Z) (p : t) : t :=
  mk (max_connections p) (connection_timeout p) (max_retries p)
     (retry_base_delay p) (retry_max_delay p) n (_metrics p) (_healthy p).

Definition set_metrics (m : RequestMetrics.t) (p : t) : t :=
  mk (max_connections p) (connection_timeout p) (max_retries p)
     (retry_base_delay p) (retry_max_delay p) (_available p) m (_healthy p).

Definition set_healthy (h : bool) (p : t) : t :=
  mk (max_connections p) (connection_timeout p) (max_retries p)
     (retry_base_delay p) (retry_max_delay p) (_available p) (_metrics p) h.

(** [ConnectionPool.__init__] *)
Definition __init__ (max_connections : Z) (connection_timeout : Q)
    (max_retries : Z) (retry_base_delay retry_max_delay : Q) : t :=
  mk max_connections connection_timeout max_retries retry_base_delay
     retry_max_delay max_connections RequestMetrics.empty true.

(** The classes of [except (ConnectionError, TimeoutError, OSError)]. *)
Definition is_transient (e : exc) : bool :=
  match e with
  | ConnectionError _ | TimeoutError _ | OSError _ => true
  | _ => false
  end.

(** [min(self.retry_base_delay * (2 ** attempt), self.retry_max_delay)] *)
Definition backoff_delay (p : t) (attempt : Z) : Q :=
  Qmin (retry_base_delay p * inject_Z (2 ^ attempt)) (retry_max_delay p).

(** The dictionary [health_check] returns. *)
Record health_dict : Type := mk_health {
  health_healthy : bool;
  health_metrics : RequestMetrics.metrics_dict;
  health_available_connections : Z;
  health_max_connections : Z
}.

(** [health_check] *)
Definition health_check (p : t) : health_dict :=
  mk_health (_healthy p) (RequestMetrics.to_dict (_metrics p))
            (_available p) (max_connections p).

(** [get_metrics] *)
Definition get_metrics (p : t) : RequestMetrics.metrics_dict :=
  RequestMetrics.to_dict (_metrics p).

(** [is_healthy] *)
Definition is_healthy (p : t) : bool :=
  _healthy p && Qgt_bool (RequestMetrics.success_rate (_metrics p)) (9 # 10).

(** The log of one attempt and the exception it ended with ([None] when
    the operation returned): the permit is taken, the operation runs, the
    permit is given back; or no permit came in time. *)
Inductive attempt_block : list event -> option exc -> Prop :=
| block_call (x : option exc) :
    attempt_block [EvAcquire; EvCall x; EvRelease] x
| block_timeout :
    attempt_block [EvAcquireTimeout]
                  (Some (TimeoutError "Connection pool exhausted")).

(** The shape of the log of a retry loop that starts at attempt [a] and
    ends with the exception [x] ([None]: a result was returned).  An
    attempt ends the loop when it succeeds, when its exception is not
    transient, or when it is the attempt number [max_retries]; any other
    attempt is followed by one sleep of [backoff_delay p a] and by the
    attempts from [a + 1] on. *)
Inductive retry_trace (p : t) : Z -> list event -> option exc -> Prop :=
| trace_success a blk :
    attempt_block blk None ->
    retry_trace p a blk None
| trace_permanent a blk e :
    attempt_block blk (Some e) -> is_transient e = false ->
    retry_trace p a blk (Some e)
| trace_exhausted a blk e :
    attempt_block blk (Some e) -> is_transient e = true ->
    max_retries p <= a ->
    retry_trace p a blk (Some e)
| trace_retry a blk e rest x :
    attempt_block blk (Some e) -> is_transient e = true ->
    a < max_retries p ->
    retry_trace p (a + 1) rest x ->
    retry_trace p a (blk ++ EvSleep (backoff_delay p a) :: rest) x.

(** The fields [__init__] sets and nothing changes afterwards. *)
Definition same_config (p q : t) : Prop :=
  max_connections q = max_connections p /\
  connection_timeout q = connection_timeout p /\
  max_retries q = max_retries p /\
  retry_base_delay q = retry_base_delay p /\
  retry_max_delay q = retry_max_delay p.

Section Retry.
Context {World : Type} {RT : Runtime World} {A : Type}.

(** The pool, the world the operation acts on, and the ghost log. *)
Record st : Type := mk_st {
  pool : t;
  world : World;
  log : list event
}.

Definition record_failure_at (start_time : Q) (s : st) : st :=
  let now := time_time (world s) in
  let latency := ((now - start_time) * 1000)%Q in
  mk_st (set_metrics (RequestMetrics.record_failure now latency
                        (_metrics (pool s))) (pool s))
        (world s) (log s).

(** The outer [try] block of one iteration: take a permit or raise
    [TimeoutError]; run the operation; on return record the success and
    mark the pool healthy; [finally] give the permit back. *)
Definition try_body (operation : World -> outcome A * World)
    (start_time : Q) (s : st) : outcome A * st :=
  if 0 <? _available (pool s) then
    let p1 := set_available (_available (pool s) - 1) (pool s) in
    let '(r, w1) := operation (world s) in
    let log1 := log s ++ [EvAcquire; EvCall (raised r)] in
    match r with
    | Return result =>
        let now := time_time w1 in
        let latency := ((now - start_time) * 1000)%Q in
        let p2 := set_metrics (RequestMetrics.record_success now latency
                                 (_metrics p1)) p1 in
        let p3 := set_healthy true p2 in
        (Return result,
         mk_st (set_available (_available p3 + 1) p3) w1
               (log1 ++ [EvRelease]))
    | Raise e =>
        (Raise e,
         mk_st (set_available (_available p1 + 1) p1) w1
               (log1 ++ [EvRelease]))
    end
  else
    (Raise (TimeoutError "Connection pool exhausted"),
     mk_st (pool s)
           (sem_timeout (connection_timeout (pool s)) (world s))
           (log s ++ [EvAcquireTimeout])).

(** The [for attempt in range(...)] loop with its two handlers, and the
    [raise last_exception] after it. *)
Fixpoint retry_loop (operation : World -> outcome A * World)
    (attempts : list Z) (last_exception : option exc) (s : st)
    : outcome A * st :=
  match attempts with
  | [] =>
      match last_exception with
      | Some e => (Raise e, s)
      | None =>
          (Raise (TypeError "exceptions must derive from BaseException"), s)
      end
  | attempt :: rest =>
      let start_time := time_time (world s) in
      match try_body operation start_time s with
      | (Return result, s1) => (Return result, s1)
      | (Raise e, s1) =>
          let s2 := record_failure_at start_time s1 in
          if is_transient e then
            if attempt <? max_retries (pool s2) then
              let delay := backoff_delay (pool s2) attempt in
              retry_loop operation rest (Some e)
                (mk_st (pool s2) (time_sleep delay (world s2))
                       (log s2 ++ [EvSleep delay]))
            else
              (Raise e,
               mk_st (set_healthy false (pool s2)) (world s2) (log s2))
          else (Raise e, s2)
      end
  end.

(** [execute_with_retry]; the warning written to the logger is not
    modelled. *)
Definition execute_with_retry (operation : World -> outcome A * World)
    (s : st) : outcome A * st :=
  retry_loop operation (range (max_retries (pool s) + 1)) None s.

End Retry.

Arguments st World : clear implicits.

End ConnectionPool.

(** ** Python dictionaries with string keys

    A [dict] keeps its keys in insertion order and [min] breaks ties by that
    order, so the dictionary is an association list: keys are unique
    ([wf]), a new key goes to the end, an existing key keeps its place. *)
Module PyDict.
Section Dict.
Context {V : Type}.

Definition t : Type := list (string * V).

(** [d.keys()] *)
Definition keys (d : t) : list string := map fst d.

Definition wf (d : t) : Prop := NoDup (keys d).

(** [d.get(k)]; [None] when [k not in d]. *)
Fixpoint get (k : string) (d : t) : option V :=
  match d with
  | [] => None
  | (k', v) :: rest => if String.eqb k' k then Some v else get k rest
  end.

(** [k in d] *)
Definition contains (k : string) (d : t) : bool :=
  match get k d with Some _ => true | None => false end.

(** [del d[k]] for a key of [d]; also [d.pop(k, None)]. *)
Definition del (k : string) (d : t) : t :=
  filter (fun kv => negb (String.eqb (fst kv) k)) d.

(** [d[k] = v] *)
Fixpoint set (k : string) (v : V) (d : t) : t :=
  match d with
  | [] => [(k, v)]
  | (k', v') :: rest =>
      if String.eqb k' k then (k, v) :: rest else (k', v') :: set k v rest
  end.

(** [len(d)] *)
Definition len (d : t) : Z := Z.of_nat (length d).

End Dict.
Arguments t V : clear implicits.
End PyDict.

(** [min(keys, key=f)]: the first key no later key beats with a strictly
    smaller [f]; [None] stands for the [ValueError] on an empty sequence. *)
Fixpoint min_from (f : string -> Q) (best : string) (ks : list string)
    : string :=
  match ks with
  | [] => best
  | k :: rest =>
      if Qgt_bool (f best) (f k) then min_from f k rest
      else min_from f best rest
  end.

Definition py_min (f : string -> Q) (ks : list string) : option string :=
  match ks with
  | [] => None
  | k :: rest => Some (min_from f k rest)
  end.

(** ** QueryCache *)
Module QueryCache.

(** [_make_key]: the digest of the query, the filter and [top_k].  The
    hash itself (sha256 over the JSON text) is left to the instance. *)
Class KeyDerivation (Params : Type) : Type := {
  _make_key : Params -> string
}.

Section Cache.
Context {V : Type}.

(** A value of [self._cache]: [{"results": ..., "timestamp": ...}] *)
Record entry : Type := mk_entry {
  results : V;
  timestamp : Q
}.

Record t : Type := mk {
  max_size : Z;
  ttl_seconds : Q;
  _cache : PyDict.t entry;
  _hits : Z;
  _misses : Z
}.

Definition set_cache (d : PyDict.t entry) (c : t) : t :=
  mk (max_size c) (ttl_seconds c) d (_hits c) (_misses c).

Definition set_hits (n : Z) (c : t) : t :=
  mk (max_size c) (ttl_seconds c) (_cache c) n (_misses c).

Definition set_misses (n : Z) (c : t) : t :=
  mk (max_size c) (ttl_seconds c) (_cache c) (_hits c) n.

(** [QueryCache.__init__] *)
Definition __init__ (max_size : Z) (ttl_seconds : Q) : t :=
  mk max_size ttl_seconds [] 0 0.

Context {Params : Type} {KD : KeyDerivation Params}.

(** [get]; [None] is Python's [None].  The stored results are lists,
    never [None]. *)
Definition get (now : Q) (params : Params) (c : t) : option V * t :=
  let key := _make_key params in
  match PyDict.get key (_cache c) with
  | None => (None, set_misses (_misses c + 1) c)
  | Some cached =>
      if Qgt_bool (now - timestamp cached) (ttl_seconds c)
      then
        let c1 := set_cache (PyDict.del key (_cache c)) c in
        (None, set_misses (_misses c1 + 1) c1)
      else (Some (results cached), set_hits (_hits c + 1) c)
  end.

(** [lambda k: self._cache[k]["timestamp"]]; it is only applied to keys
    of the dictionary, so the [KeyError] branch is never taken. *)
Definition timestamp_of (d : PyDict.t entry) (k : string) : Q :=
  match PyDict.get k d with
  | Some e => timestamp e
  | None => 0%Q
  end.

(** [set] *)
Definition set (now : Q) (params : Params) (value : V) (c : t)
    : outcome unit * t :=
  let key := _make_key params in
  let evicted :=
    if PyDict.len (_cache c) >=? max_size c then
      match py_min (timestamp_of (_cache c)) (PyDict.keys (_cache c)) with
      | None => Raise (ValueError "min() arg is an empty sequence")
      | Some oldest_key => Return (PyDict.del oldest_key (_cache c))
      end
    else Return (_cache c) in
  match evicted with
  | Raise e => (Raise e, c)
  | Return d =>
      (Return tt, set_cache (PyDict.set key (mk_entry value now) d) c)
  end.

(** [invalidate] *)
Definition invalidate (params : Params) (c : t) : t :=
  let key := _make_key params in
  set_cache (PyDict.del key (_cache c)) c.

(** [stats()["size"]] *)
Definition size (c : t) : Z := PyDict.len (_cache c).

(** [clear] *)
Definition clear (c : t) : t := set_cache [] c.

(** The dictionary [stats] returns. *)
Record stats_dict : Type := mk_stats {
  stats_size : Z;
  stats_max_size : Z;
  stats_hits : Z;
  stats_misses : Z;
  stats_hit_rate : Q
}.

(** [stats] *)
Definition stats (c : t) : stats_dict :=
  let total := _hits c + _misses c in
  let hit_rate :=
    if total >? 0 then (inject_Z (_hits c) / inject_Z total)%Q else 0%Q in
  mk_stats (PyDict.len (_cache c)) (max_size c) (_hits c) (_misses c)
           hit_rate.

(** The calls a user of the cache makes, with the clock value each one
    reads.  A [set] that raises leaves the cache as it was. *)
Inductive call : Type :=
| CallGet (now : Q) (params : Params)
| CallSet (now : Q) (params : Params) (value : V)
| CallInvalidate (params : Params)
| CallClear.

Definition do_call (k : call) (c : t) : t :=
  match k with
  | CallGet now params => snd (get now params c)
  | CallSet now params value => snd (set now params value c)
  | CallInvalidate params => invalidate params c
  | CallClear => clear c
  end.

Definition do_calls (ks : list call) (c : t) : t :=
  fold_left (fun acc k => do_call k acc) ks c.

Definition is_get (k : call) : bool :=
  match k with CallGet _ _ => true | _ => false end.

End Cache.
Arguments entry V : clear implicits.
Arguments t V : clear implicits.
Arguments call V Params : clear implicits.

End QueryCache.

(** ** The per-backend singletons and [health_check_all] *)
Module Registry.
Section Registry.
Context {V : Type}.

(** The module-level dictionaries [_pools], [_caches] and [_breakers]. *)
Record t : Type := mk {
  _pools : PyDict.t ConnectionPool.t;
  _caches : PyDict.t (QueryCache.t V);
  _breakers : PyDict.t CircuitBreaker.t
}.

Definition empty : t := mk [] [] [].

(** [get_pool] *)
Definition get_pool (backend : string) (r : t) : ConnectionPool.t * t :=
  match PyDict.get backend (_pools r) with
  | Some p => (p, r)
  | None =>
      let p := ConnectionPool.__init__ 10 30 3 (1 # 10) 10 in
      (p, mk (PyDict.set backend p (_pools r)) (_caches r) (_breakers r))
  end.

(** [get_cache] *)
Definition get_cache (backend : string) (r : t) : QueryCache.t V * t :=
  match PyDict.get backend (_caches r) with
  | Some c => (c, r)
  | None =>
      let c := QueryCache.__init__ 1000 300 in
      (c, mk (_pools r) (PyDict.set backend c (_caches r)) (_breakers r))
  end.

(** [get_breaker] *)
Definition get_breaker (backend : string) (r : t) : CircuitBreaker.t * t :=
  match PyDict.get backend (_breakers r) with
  | Some b => (b, r)
  | None =>
      let b := CircuitBreaker.__init__ 5 3 30 in
      (b, mk (_pools r) (_caches r) (PyDict.set backend b (_breakers r)))
  end.

(** What [VectorDBBridge.__init__] does to the registry, before it starts
    the backend client: [get_pool(backend)], [get_cache(backend)] when
    [enable_cache], [get_breaker(backend)], all under the name as given. *)
Definition construct (backend : string) (enable_cache : bool) (r : t) : t :=
  let r1 := snd (get_pool backend r) in
  let r2 := if enable_cache then snd (get_cache backend r1) else r1 in
  snd (get_breaker backend r2).

Definition construct_all (inits : list (string * bool)) (r : t) : t :=
  fold_left (fun acc i => construct (fst i) (snd i) acc) inits r.

(** One value of the dictionary [health_check_all] returns. *)
Record report : Type := mk_report {
  report_pool : ConnectionPool.health_dict;
  report_circuit_breaker : CircuitBreaker.stats_dict;
  report_cache : option QueryCache.stats_dict
}.

(** The loop of [health_check_all] over the names in [_pools];
    [_breakers[backend]] raises [KeyError] for a name without breaker. *)
Fixpoint health_entries (now : Q) (names : list string) (r : t)
    : outcome (list (string * report)) :=
  match names with
  | [] => Return []
  | backend :: rest =>
      match PyDict.get backend (_pools r) with
      | None => Raise (OtherException "KeyError" backend)
      | Some pool =>
          match PyDict.get backend (_breakers r) with
          | None => Raise (OtherException "KeyError" backend)
          | Some breaker =>
              let cache := PyDict.get backend (_caches r) in
              let entry :=
                mk_report (ConnectionPool.health_check pool)
                          (CircuitBreaker.stats now breaker)
                          (option_map QueryCache.stats cache) in
              match health_entries now rest r with
              | Return l => Return ((backend, entry) :: l)
              | Raise e => Raise e
              end
          end
      end
  end.

(** [health_check_all] *)
Definition health_check_all (now : Q) (r : t)
    : outcome (list (string * report)) :=
  health_entries now (PyDict.keys (_pools r)) r.

(** Two registries holding objects under the same names; the objects
    themselves change as the bridges use them. *)
Definition same_names (r r' : t) : Prop :=
  PyDict.keys (_pools r) = PyDict.keys (_pools r')
  /\ PyDict.keys (_caches r) = PyDict.keys (_caches r')
  /\ PyDict.keys (_breakers r) = PyDict.keys (_breakers r').

End Registry.
Arguments t V : clear implicits.
End Registry.

(** * vector_db_bridge.py *)
Module VectorDBBridge.

(** The backend clients behind the [if self.backend_name == ...] chains of
    [search] and [_add_impl]: one call to the vendor SDK, which acts on the
    world and returns or raises. *)
Class Backend (World Params Doc V : Type) : Type := {
  backend_search : Params -> bool -> World -> outcome V * World;
  backend_add : Doc -> World -> outcome bool * World
}.

Section Bridge.
Context {World : Type} {RT : Runtime World}.
Context {Params : Type} {KD : QueryCache.KeyDerivation Params}.
Context {Doc V : Type} {BE : Backend World Params Doc V}.

(** The per-backend singletons the bridge holds ([self._pool],
    [self._cache], [self._breaker]), the world and the ghost log.
    [_cache] is [None] when the bridge was built with
    [enable_cache=False]. *)
Record t : Type := mk {
  _pool : ConnectionPool.t;
  _cache : option (QueryCache.t V);
  _breaker : CircuitBreaker.t;
  world : World;
  log : list event
}.

Definition set_cache (c : option (QueryCache.t V)) (s : t) : t :=
  mk (_pool s) c (_breaker s) (world s) (log s).

Definition set_breaker (b : CircuitBreaker.t) (s : t) : t :=
  mk (_pool s) (_cache s) b (world s) (log s).

(** [_with_circuit_breaker]: [with self._breaker: return operation()].
    When [__enter__] raises, the body and [__exit__] do not run. *)
Definition _with_circuit_breaker {A : Type}
    (operation : t -> outcome A * t) (s : t) : outcome A * t :=
  match CircuitBreaker.__enter__ (time_time (world s)) (_breaker s) with
  | (Raise e, b) => (Raise e, set_breaker b s)
  | (Return _, b) =>
      let '(r, s1) := operation (set_breaker b s) in
      let now := time_time (world s1) in
      match r with
      | Return v =>
          (Return v,
           set_breaker (CircuitBreaker.__exit__ now None (_breaker s1)) s1)
      | Raise e =>
          (Raise e,
           set_breaker (CircuitBreaker.__exit__ now (Some e) (_breaker s1))
                       s1)
      end
  end.

(** [_with_retry]: [self._pool.execute_with_retry(operation)] *)
Definition _with_retry {A : Type}
    (operation : World -> outcome A * World) (s : t) : outcome A * t :=
  let '(r, st) :=
    ConnectionPool.execute_with_retry operation
      (ConnectionPool.mk_st (_pool s) (world s) (log s)) in
  (r, mk (ConnectionPool.pool st) (_cache s) (_breaker s)
         (ConnectionPool.world st) (ConnectionPool.log st)).

(** [_add_impl] *)
Definition _add_impl (doc : Doc) (s : t) : outcome bool * t :=
  _with_retry (backend_add doc) s.

(** [add] *)
Definition add (doc : Doc) (s : t) : outcome bool * t :=
  _with_circuit_breaker (_add_impl doc) s.

(** The closure [operation] of [_add_batch_impl].  It assigns the name
    [embeddings], so Python makes that name local to the closure, and the
    test [embeddings is None] reads it before any assignment: when there
    are documents the closure raises [UnboundLocalError] at that test,
    before any document is handled.  Without documents it returns 0. *)
Definition add_batch_operation {D : Type} (documents : list D) (w : World)
    : outcome Z * World :=
  match documents with
  | [] => (Return 0, w)
  | _ :: _ =>
      (Raise (OtherException "UnboundLocalError"
                "local variable 'embeddings' referenced before assignment"),
       w)
  end.

(** [_add_batch_impl] *)
Definition _add_batch_impl {D : Type} (documents : list D) (s : t)
    : outcome Z * t :=
  _with_retry (add_batch_operation documents) s.

(** [add_batch] *)
Definition add_batch {D : Type} (documents : list D) (s : t)
    : outcome Z * t :=
  _with_circuit_breaker (_add_batch_impl documents) s.

(** [if use_cache and self._cache] *)
Definition cache_in_use (use_cache : bool) (s : t)
    : option (QueryCache.t V) :=
  if use_cache then _cache s else None.

(** The closure [operation] of [search]: the backend call, then the
    write to the cache. *)
Definition search_operation (params : Params)
    (include_embeddings use_cache : bool) (s : t) : outcome V * t :=
  let '(r, w1) := backend_search params include_embeddings (world s) in
  let s1 :=
    mk (_pool s) (_cache s) (_breaker s) w1 (log s ++ [EvCall (raised r)]) in
  match r with
  | Raise e => (Raise e, s1)
  | Return results =>
      match cache_in_use use_cache s1 with
      | Some c =>
          match QueryCache.set (time_time w1) params results c with
          | (Return _, c1) => (Return results, set_cache (Some c1) s1)
          | (Raise e, c1) => (Raise e, set_cache (Some c1) s1)
          end
      | None => (Return results, s1)
      end
  end.

(** The [try]/[except Exception] around the guarded call in [search]. *)
Definition search_guarded (params : Params)
    (include_embeddings use_cache : bool) (s : t) : outcome V * t :=
  match _with_circuit_breaker
          (search_operation params include_embeddings use_cache) s with
  | (Return v, s1) => (Return v, s1)
  | (Raise e, s1) =>
      match _cache s1 with
      | Some c =>
          (Raise e, set_cache (Some (QueryCache.invalidate params c)) s1)
      | None => (Raise e, s1)
      end
  end.

(** [search] *)
Definition search (params : Params) (include_embeddings use_cache : bool)
    (s : t) : outcome V * t :=
  match cache_in_use use_cache s with
  | Some c =>
      match QueryCache.get (time_time (world s)) params c with
      | (Some cached, c1) => (Return cached, set_cache (Some c1) s)
      | (None, c1) =>
          search_guarded params include_embeddings use_cache
            (set_cache (Some c1) s)
      end
  | None => search_guarded params include_embeddings use_cache s
  end.

(** The pipeline of the specification for a read that missed the cache:
    breaker guard, then the pool's retry executor, then the backend
    call.  Written from the specification, for comparison with
    [search_guarded]; the bridge builds [add] in this way. *)
Definition spec_guarded_read (params : Params) (include_embeddings : bool)
    (s : t) : outcome V * t :=
  _with_circuit_breaker
    (_with_retry (backend_search params include_embeddings)) s.

(** What a [search] leaves alone: the pool is in the same state, a
    cache stays a cache, and the log grows with no permit taken and no
    sleep. *)
Definition pool_untouched (s s' : t) : Prop :=
  _pool s' = _pool s /\
  ((_cache s = None -> _cache s' = None) /\
   (forall c, _cache s = Some c -> exists c', _cache s' = Some c')) /\
  exists new,
    log s' = log s ++ new /\ acquires new = 0%nat /\ sleeps new = [].

End Bridge.
Arguments t World V : clear implicits.

End VectorDBBridge.

(** ** The in-memory backend of the bridge ([backend_name == "memory"]) *)
Module MemoryBackend.
Section Memory.
Context {Env : Type} {RT : Runtime Env}.
Context {Embedding Value Params Result : Type}.

(** A metadata dictionary. *)
Definition Metadata : Type := PyDict.t Value.

(** The part of the world the memory backend acts on: [self._memory_store],
    a dictionary from document id to [(embedding, metadata)], next to the
    rest of the world. *)
Record world : Type := mk {
  _memory_store : PyDict.t (Embedding * Metadata);
  env : Env
}.

#[export] Instance runtime : Runtime world := {
  time_time := fun w => time_time (env w);
  time_sleep := fun d w => mk (_memory_store w) (time_sleep d (env w));
  sem_timeout := fun d w => mk (_memory_store w) (sem_timeout d (env w))
}.

(** The arguments of [add]: [(doc_id, embedding, metadata)]. *)
Definition Doc : Type := (string * Embedding * option Metadata)%type.

(** [metadata or {}] *)
Definition or_empty (metadata : option Metadata) : Metadata :=
  match metadata with
  | Some m => m
  | None => []
  end.

(** [_add_memory] *)
Definition _add_memory (doc : Doc) (w : world) : outcome bool * world :=
  let '(doc_id, embedding, metadata) := doc in
  (Return true,
   mk (PyDict.set doc_id (embedding, or_empty metadata) (_memory_store w))
      (env w)).

(** [_search_memory].  It builds the list [all_items] and then evaluates
    [all_items.items()]; a list has no such attribute, so the method raises
    [AttributeError] before it looks at any document. *)
Definition _search_memory (params : Params) (w : world)
    : outcome Result * world :=
  (Raise (OtherException "AttributeError"
            "'list' object has no attribute 'items'"), w).

#[export] Instance backend
    : VectorDBBridge.Backend world Params Doc Result := {
  backend_search := fun params _ => _search_memory params;
  backend_add := _add_memory
}.

(** [get], memory branch: the document as a dictionary with the keys [id],
    [embedding] and [metadata], or [None]. *)
Definition get (doc_id : string) (w : world)
    : option (string * Embedding * Metadata) :=
  match PyDict.get doc_id (_memory_store w) with
  | Some (embedding, metadata) => Some (doc_id, embedding, metadata)
  | None => None
  end.

(** [delete], memory branch *)
Definition delete (doc_id : string) (w : world) : bool * world :=
  if PyDict.contains doc_id (_memory_store w)
  then (true, mk (PyDict.del doc_id (_memory_store w)) (env w))
  else (false, w).

(** [update_metadata], memory branch *)
Definition update_metadata (doc_id : string) (metadata : Metadata)
    (w : world) : bool * world :=
  match PyDict.get doc_id (_memory_store w) with
  | Some (embedding, _) =>
      (true,
       mk (PyDict.set doc_id (embedding, metadata) (_memory_store w))
          (env w))
  | None => (false, w)
  end.

(** [count], memory branch *)
Definition count (w : world) : Z := PyDict.len (_memory_store w).

(** The calls that change the store, as a user of the memory backend makes
    them. *)
Inductive call : Type :=
| CallAdd (doc : Doc)
| CallDelete (doc_id : string)
| CallUpdate (doc_id : string) (metadata : Metadata).

Definition do_call (k : call) (w : world) : world :=
  match k with
  | CallAdd doc => snd (_add_memory doc w)
  | CallDelete doc_id => snd (delete doc_id w)
  | CallUpdate doc_id metadata => snd (update_metadata doc_id metadata w)
  end.

Definition do_calls (ks : list call) (w : world) : world :=
  fold_left (fun acc k => do_call k acc) ks w.

End Memory.
Arguments world Env Embedding Value : clear implicits.
Arguments call Embedding Value : clear implicits.
End MemoryBackend.

(** * odbc_bridge.py *)

(** [l.pop()]: the last element and the list without it; [None] when the
    list is empty. *)
Fixpoint list_pop {X : Type} (l : list X) : option (X * list X) :=
  match l with
  | [] => None
  | x :: rest =>
      match list_pop rest with
      | None => Some (x, [])
      | Some (y, rest') => Some (y, x :: rest')
      end
  end.

Module Odbc.

(** [pyodbc.connect] as used by [_create_connection]: a new driver
    connection, or the exception the driver raised. *)
Class Driver (World Conn : Type) : Type := {
  pyodbc_connect : World -> outcome Conn * World
}.

Section Pool.
Context {World Conn : Type} {DR : Driver World Conn}.

(** What [PooledConnection._conn] and the elements of
    [ConnectionPool._pool] hold: a driver connection, or a
    [PooledConnection] around one ([return_connection] is passed the
    wrapper, and [get_connection] wraps whatever it pops). *)
Inductive handle : Type :=
| Raw (c : Conn)
| Wrapped (inner : handle).

Record PooledConnection : Type := mk_pooled {
  _conn : handle;
  _closed : bool
}.

Record ConnectionPool : Type := mk {
  max_pool_size : Z;          (* self.config.max_pool_size *)
  _pool : list handle;
  _active : Z
}.

(** [ConnectionPool.__init__] *)
Definition __init__ (max_pool_size : Z) : ConnectionPool :=
  mk max_pool_size [] 0.

(** [get_connection] *)
Definition get_connection (p : ConnectionPool) (w : World)
    : outcome PooledConnection * (ConnectionPool * World) :=
  match list_pop (_pool p) with
  | Some (conn, rest) =>
      (Return (mk_pooled conn false),
       (mk (max_pool_size p) rest (_active p), w))
  | None =>
      if _active p >=? max_pool_size p then
        (Raise (PoolExhaustedError (_active p) (max_pool_size p)), (p, w))
      else
        match pyodbc_connect w with
        | (Raise e, w1) => (Raise e, (p, w1))
        | (Return c, w1) =>
            (Return (mk_pooled (Raw c) false),
             (mk (max_pool_size p) (_pool p) (_active p + 1), w1))
        end
  end.

(** [return_connection] *)
Definition return_connection (conn : PooledConnection)
    (p : ConnectionPool) : ConnectionPool :=
  if _active p >? 0
  then mk (max_pool_size p) (_pool p ++ [Wrapped (_conn conn)]) (_active p)
  else p.

(** [PooledConnection.close] *)
Definition close (conn : PooledConnection) (p : ConnectionPool)
    : PooledConnection * ConnectionPool :=
  if negb (_closed conn)
  then (mk_pooled (_conn conn) true, return_connection conn p)
  else (conn, p).

(** The properties [active_count] and [available_count]. *)
Definition active_count (p : ConnectionPool) : Z := _active p.
Definition available_count (p : ConnectionPool) : Z :=
  Z.of_nat (length (_pool p)).

(** The answer of an [ODBCBridge] method: the dictionary with
    [status = "ok"], or the one with [status = "error"] and the message of
    the exception (or ["Unknown pool"]). *)
Inductive response : Type :=
| StatusOk
| StatusError (raised_by : exc)
| UnknownPool.

(** [with pool.get_connection() as conn: ...] inside the [try] of [query],
    [execute], [fetch], [transaction], [execute_many] and [ping].
    [PooledConnection] defines neither [__enter__] nor [__exit__]: once
    [get_connection] has returned, the [with] statement raises [TypeError]
    ([AttributeError] before Python 3.11) without running its body, and the
    handler turns the exception into an error answer.  The connection that
    was taken is not closed. *)
Definition with_connection (p : ConnectionPool) (w : World)
    : response * (ConnectionPool * World) :=
  match get_connection p w with
  | (Raise e, pw) => (StatusError e, pw)
  | (Return _, pw) =>
      (StatusError
         (TypeError "object does not support the context manager protocol"),
       pw)
  end.

(** [ODBCBridge.query] on the registry [self._pools]. *)
Definition query (pool_id : string) (pools : PyDict.t ConnectionPool)
    (w : World) : response * (PyDict.t ConnectionPool * World) :=
  match PyDict.get pool_id pools with
  | None => (UnknownPool, (pools, w))
  | Some p =>
      let '(r, (p', w')) := with_connection p w in
      (r, (PyDict.set pool_id p' pools, w'))
  end.

(** [query] called [n] times in a row on the same pool. *)
Fixpoint queries (n : nat) (pool_id : string)
    (pools : PyDict.t ConnectionPool) (w : World)
    : PyDict.t ConnectionPool * World :=
  match n with
  | O => (pools, w)
  | S n' =>
      let '(pools1, w1) := queries n' pool_id pools w in
      snd (query pool_id pools1 w1)
  end.

(** A client of the pool: it asks for a connection, or closes the
    [i]-th of the connections it holds. *)
Inductive pool_op : Type :=
| Acquire
| Close (i : nat).

(** The pool, the world, and the connections checked out and not yet
    closed. *)
Record client : Type := mk_client {
  the_pool : ConnectionPool;
  the_world : World;
  held : list PooledConnection
}.

(** The list without its [i]-th element. *)
Definition drop_nth {X : Type} (i : nat) (l : list X) : list X :=
  firstn i l ++ skipn (S i) l.

Definition step (op : pool_op) (c : client) : client :=
  match op with
  | Acquire =>
      match get_connection (the_pool c) (the_world c) with
      | (Return conn, (p, w)) => mk_client p w (conn :: held c)
      | (Raise _, (p, w)) => mk_client p w (held c)
      end
  | Close i =>
      match nth_error (held c) i with
      | Some conn =>
          mk_client (snd (close conn (the_pool c))) (the_world c)
                    (drop_nth i (held c))
      | None => c
      end
  end.

Definition run (ops : list pool_op) (c : client) : client :=
  fold_left (fun acc op => step op acc) ops c.

(** Number of connections currently checked out. *)
Definition checked_out (c : client) : Z := Z.of_nat (length (held c)).

(** What holds of the pool and its clients after any sequence of
    operations on a new pool. *)
Definition consistent (c : client) : Prop :=
  active_count (the_pool c) = checked_out c + available_count (the_pool c) /\
  active_count (the_pool c) <= Z.max 0 (max_pool_size (the_pool c)) /\
  Forall (fun conn => _closed conn = false) (held c).

End Pool.
Arguments handle Conn : clear implicits.
Arguments PooledConnection Conn : clear implicits.
Arguments ConnectionPool Conn : clear implicits.
Arguments client World Conn : clear implicits.

End Odbc.

(** * Concrete worlds

    Small instances of the abstract parts, on which the model runs by
    computation. *)
Module Scenario.

(** A world with a clock and a count of the backend calls made so far. *)
Record sim : Type := mk_sim {
  clock : Q;
  backend_calls : nat
}.

Definition advance (d : Q) (w : sim) : sim :=
  mk_sim (clock w + d) (backend_calls w).

#[export] Instance sim_runtime : Runtime sim := {
  time_time := clock;
  time_sleep := advance;
  sem_timeout := advance
}.

(** Requests are identified by a name, which is also their cache key. *)
#[export] Instance name_key : QueryCache.KeyDerivation string := {
  _make_key := fun name => name
}.

(** An operation that raises [ConnectionError] on its first [n] calls and
    returns [value] from then on. *)
Definition flaky {A : Type} (n : nat) (value : A) (w : sim)
    : outcome A * sim :=
  let w1 := mk_sim (clock w) (S (backend_calls w)) in
  if (backend_calls w <? n)%nat
  then (Raise (ConnectionError "connection reset"), w1)
  else (Return value, w1).

(** An operation that always raises an exception that is not transient. *)
Definition rejecting {A : Type} (w : sim) : outcome A * sim :=
  (Raise (ValueError "bad request"),
   mk_sim (clock w) (S (backend_calls w))).

(** A backend whose first call fails with a connection error. *)
#[export] Instance flaky_backend
    : VectorDBBridge.Backend sim string string (list string) := {
  backend_search := fun _ _ => flaky 1 ["doc-1"%string];
  backend_add := fun _ => flaky 1 true
}.

(** The objects [get_pool], [get_cache] and [get_breaker] create. *)
Definition get_pool : ConnectionPool.t :=
  ConnectionPool.__init__ 10 30 3 (1 # 10) 10.
Definition get_cache : QueryCache.t (list string) :=
  QueryCache.__init__ 1000 300.
Definition get_breaker : CircuitBreaker.t :=
  CircuitBreaker.__init__ 5 3 30.

Definition start : sim := mk_sim 0 0.

(** A new bridge with caching enabled. *)
Definition bridge : VectorDBBridge.t sim (list string) :=
  VectorDBBridge.mk get_pool (Some get_cache) get_breaker start [].

(** The same bridge after its breaker has opened on a failure at time
    100, seen at time 110. *)
Definition open_bridge : VectorDBBridge.t sim (list string) :=
  VectorDBBridge.mk get_pool (Some get_cache)
    (CircuitBreaker.mk 5 3 30 CircuitBreaker.OPEN 5 0 (Some 100%Q))
    (mk_sim 110 0) [].

(** The pool of [get_pool] before any call, in the starting world. *)
Definition pool_state : ConnectionPool.st sim :=
  ConnectionPool.mk_st get_pool start [].

(** The cache of [get_cache] holding one entry written at time 0. *)
Definition one_entry_cache : QueryCache.t (list string) :=
  QueryCache.mk 1000 300
    [("q"%string, QueryCache.mk_entry ["doc-1"%string] 0)] 0 0.

(** A cache of capacity 2 that is full; the entry of [b] is the older. *)
Definition full_cache : QueryCache.t (list string) :=
  QueryCache.mk 2 300
    [("a"%string, QueryCache.mk_entry ["doc-a"%string] 5);
     ("b"%string, QueryCache.mk_entry ["doc-b"%string] 3)] 0 0.



(** The same breaker after its cooldown has let one call through. *)
Definition half_open_breaker : CircuitBreaker.t :=
  CircuitBreaker.mk 5 3 30 CircuitBreaker.HALF_OPEN 5 0 (Some 100%Q).


(** A new bridge whose backend has already been called once, so that
    [flaky_backend] answers from now on. *)
Definition warm_bridge : VectorDBBridge.t sim (list string) :=
  VectorDBBridge.mk get_pool (Some get_cache) get_breaker (mk_sim 0 1) [].

(** A new bridge over the in-memory backend, with an empty store. *)
Definition memory_bridge
    : VectorDBBridge.t (MemoryBackend.world sim (list Z) string)
                       (list string) :=
  VectorDBBridge.mk get_pool (Some get_cache) get_breaker
    (MemoryBackend.mk [] start) [].

(** The pool table of the ODBC bridge after [connect] with
    [max_pool_size = 2]. *)
Definition odbc_pools : PyDict.t (Odbc.ConnectionPool nat) :=
  [("main"%string, Odbc.__init__ 2)].

(** Three bridge constructions: two for [memory] with caching, one for
    [chroma] without. *)
Definition constructions : list (string * bool) :=
  [("memory"%string, true); ("chroma"%string, false);
   ("memory"%string, true)].

(** A driver whose connections are numbered in order of creation. *)
#[export] Instance counting_driver : Odbc.Driver nat nat := {
  pyodbc_connect := fun w => (Return w, S w)
}.

End Scenario.

(** * Properties *)

(** ** Circuit breaker *)
Section CircuitBreakerFacts.
Import CircuitBreaker.

Lemma record_failure_thresholds now b :
  failure_threshold (record_failure now b) = failure_threshold b /\
  success_threshold (record_failure now b) = success_threshold b /\
  timeout_seconds (record_failure now b) = timeout_seconds b.
Proof.
  unfold record_failure; destruct b as [ft st ts s fc sc lf]; simpl.
  destruct s; simpl; auto.
  destruct (fc + 1 >=? ft); simpl; auto.
Qed.

Lemma record_failure_count now b :
  _failure_count (record_failure now b) = _failure_count b + 1.
Proof.
  unfold record_failure; destruct b as [ft st ts s fc sc lf]; simpl.
  destruct s; simpl; auto.
  destruct (fc + 1 >=? ft); simpl; auto.
Qed.

Lemma record_failure_last now b :
  _last_failure_time (record_failure now b) = Some now.
Proof.
  unfold record_failure; destruct b as [ft st ts s fc sc lf]; simpl.
  destruct s; simpl; auto.
  destruct (fc + 1 >=? ft); simpl; auto.
Qed.

(** One failure while Closed: the breaker opens exactly when the new count
    reaches the threshold. *)
Lemma record_failure_closed now b :
  _state b = CLOSED ->
  _state (record_failure now b) =
    if _failure_count b + 1 >=? failure_threshold b then OPEN else CLOSED.
Proof.
  unfold record_failure; destruct b as [ft st ts s fc sc lf]; simpl.
  intros ->; simpl.
  destruct (fc + 1 >=? ft); reflexivity.
Qed.

Lemma record_failures_app l1 l2 b :
  record_failures (l1 ++ l2) b = record_failures l2 (record_failures l1 b).
Proof. unfold record_failures; apply fold_left_app. Qed.

(** Below the threshold the breaker stays Closed and counts. *)
Lemma record_failures_below nows : forall b,
  _state b = CLOSED ->
  _failure_count b + Z.of_nat (length nows) < failure_threshold b ->
  _state (record_failures nows b) = CLOSED /\
  _failure_count (record_failures nows b)
    = _failure_count b + Z.of_nat (length nows) /\
  failure_threshold (record_failures nows b) = failure_threshold b.
Proof.
  induction nows as [|now rest IH]; intros b Hst Hlt.
  - simpl in *. repeat split; try assumption; lia.
  - change (record_failures (now :: rest) b)
      with (record_failures rest (record_failure now b)).
    cbn [length] in Hlt. rewrite Nat2Z.inj_succ in Hlt.
    destruct (record_failure_thresholds now b) as (Hft & _ & _).
    assert (Hc : _state (record_failure now b) = CLOSED).
    { rewrite record_failure_closed by assumption.
      destruct (Z.geb_spec (_failure_count b + 1) (failure_threshold b));
        [lia | reflexivity]. }
    destruct (IH (record_failure now b) Hc) as (H1 & H2 & H3).
    + rewrite Hft, record_failure_count. lia.
    + rewrite H1, H2, H3, Hft, record_failure_count.
      cbn [length]. rewrite Nat2Z.inj_succ. repeat split; lia.
Qed.

(** C5.  Let the breaker be Closed with no failure counted (as built by
    the constructor, or after a success recorded while Closed) and let
    N be its failure threshold.  After k consecutive failures with k < N
    it is still Closed, with failure count k; the failure that makes the
    count N opens it; and a success recorded on any Closed breaker leaves
    it Closed with failure count 0. *)
Theorem breaker_opens_on_nth_failure (b : t) (nows : list Q) (now : Q) :
  _state b = CLOSED ->
  _failure_count b = 0 ->
  (Z.of_nat (length nows) < failure_threshold b ->
     _state (record_failures nows b) = CLOSED /\
     _failure_count (record_failures nows b) = Z.of_nat (length nows)) /\
  (Z.of_nat (length nows) + 1 = failure_threshold b ->
     _state (record_failure now (record_failures nows b)) = OPEN) /\
  (forall c : t, _state c = CLOSED ->
     _state (record_success c) = CLOSED /\
     _failure_count (record_success c) = 0).
Proof.
  intros Hst Hfc. split; [|split].
  - intros Hlt.
    destruct (record_failures_below nows b Hst) as (H1 & H2 & _); [lia|].
    rewrite H1, H2, Hfc. split; [reflexivity | lia].
  - intros HN.
    destruct (record_failures_below nows b Hst) as (H1 & H2 & H3); [lia|].
    rewrite record_failure_closed by assumption.
    rewrite H2, H3, Hfc.
    destruct (Z.geb_spec (0 + Z.of_nat (length nows) + 1)
                (failure_threshold b)); [reflexivity | lia].
  - intros c Hc. unfold record_success. rewrite Hc.
    destruct c; simpl in *; auto.
Qed.

Lemma Qge_bool_true x y : Qge_bool x y = true <-> (y <= x)%Q.
Proof. unfold Qge_bool. apply Qle_bool_iff. Qed.

Lemma Qge_bool_false x y : Qge_bool x y = false <-> (x < y)%Q.
Proof.
  unfold Qge_bool. split; intros H.
  - apply Qnot_le_lt. intros Hle. apply Qle_bool_iff in Hle. congruence.
  - destruct (Qle_bool y x) eqn:E; [|reflexivity].
    apply Qle_bool_iff in E. exfalso. apply (Qlt_not_le _ _ H E).
Qed.

Lemma Qgt_bool_true x y : Qgt_bool x y = true <-> (y < x)%Q.
Proof.
  unfold Qgt_bool. rewrite negb_true_iff. apply (Qge_bool_false y x).
Qed.

Lemma Qgt_bool_false x y : Qgt_bool x y = false <-> (x <= y)%Q.
Proof.
  unfold Qgt_bool. rewrite negb_false_iff. apply Qle_bool_iff.
Qed.

(** While Open and before the cooldown has elapsed, [can_execute] denies
    and changes nothing. *)
Lemma can_execute_open_early now last b :
  _state b = OPEN -> _last_failure_time b = Some last ->
  (now - last < timeout_seconds b)%Q ->
  can_execute now b = (Return false, b).
Proof.
  intros Hs Hl Hlt. unfold can_execute. rewrite Hs, Hl.
  apply Qge_bool_false in Hlt. rewrite Hlt. reflexivity.
Qed.

Lemma can_execute_open_elapsed now last b :
  _state b = OPEN -> _last_failure_time b = Some last ->
  (timeout_seconds b <= now - last)%Q ->
  can_execute now b
    = (Return true, set_success_count 0 (set_state HALF_OPEN b)).
Proof.
  intros Hs Hl Hle. unfold can_execute. rewrite Hs, Hl.
  apply Qge_bool_true in Hle. rewrite Hle. reflexivity.
Qed.

(** C6.  The breaker is Open and its last failure was at [last].  Calls of
    [can_execute] at times [nows], each strictly before the cooldown has
    elapsed, are all denied and leave the breaker as it is; the call that
    follows them, at a time [now] with [timeout_seconds <= now - last], is
    permitted and leaves the breaker HalfOpen with success count 0 (and
    nothing else changed). *)
Theorem open_breaker_cooldown (b : t) (last : Q) (nows : list Q) (now : Q) :
  _state b = OPEN ->
  _last_failure_time b = Some last ->
  Forall (fun t => (t - last < timeout_seconds b)%Q) nows ->
  (timeout_seconds b <= now - last)%Q ->
  can_execute_all nows b = (map (fun _ => Return false) nows, b) /\
  can_execute_all (nows ++ [now]) b
    = (map (fun _ => Return false) nows ++ [Return true],
       set_success_count 0 (set_state HALF_OPEN b)) /\
  _state (snd (can_execute_all (nows ++ [now]) b)) = HALF_OPEN /\
  _success_count (snd (can_execute_all (nows ++ [now]) b)) = 0.
Proof.
  intros Hs Hl Hall Hle.
  assert (H1 : can_execute_all nows b
               = (map (fun _ => Return false) nows, b)).
  { induction Hall as [|t rest Ht _ IH]; [reflexivity|].
    cbn [can_execute_all map].
    rewrite (can_execute_open_early t last b Hs Hl Ht), IH. reflexivity. }
  assert (H2 : can_execute_all (nows ++ [now]) b
               = (map (fun _ => Return false) nows ++ [Return true],
                  set_success_count 0 (set_state HALF_OPEN b))).
  { clear H1. induction Hall as [|t rest Ht _ IH].
    - cbn [app can_execute_all map].
      rewrite (can_execute_open_elapsed now last b Hs Hl Hle). reflexivity.
    - cbn [app can_execute_all map].
      rewrite (can_execute_open_early t last b Hs Hl Ht), IH.
      reflexivity. }
  rewrite H2. repeat split; assumption || reflexivity.
Qed.

(** A denied entry leaves the breaker as it is, and it is denied only
    while Open with the cooldown still running. *)
Lemma enter_denied now b ra b' :
  __enter__ now b = (Raise (CircuitBreakerOpen ra), b') ->
  b' = b /\ _state b = OPEN /\
  exists last, _last_failure_time b = Some last /\
               (now - last < timeout_seconds b)%Q.
Proof.
  unfold __enter__, can_execute.
  destruct (_state b) eqn:Hs; try discriminate.
  destruct (_last_failure_time b) as [last|] eqn:Hl; try discriminate.
  destruct (Qge_bool (now - last) (timeout_seconds b)) eqn:Hq;
    try discriminate.
  intros H; inversion H; subst. repeat split.
  exists last. split; [reflexivity|]. now apply Qge_bool_false.
Qed.

End CircuitBreakerFacts.

(** ** Dictionaries *)
Section PyDictFacts.
Context {V : Type}.
Implicit Types (d : PyDict.t V) (k : string) (v : V).

Lemma dict_get_in k d v : PyDict.get k d = Some v -> In (k, v) d.
Proof.
  induction d as [|[k' v'] rest IH]; simpl; [discriminate|].
  destruct (String.eqb_spec k' k) as [->|Hne].
  - intros [= ->]. now left.
  - intros H. right. now apply IH.
Qed.

Lemma dict_get_keys k d :
  In k (PyDict.keys d) <-> exists v, PyDict.get k d = Some v.
Proof.
  induction d as [|[k' v'] rest IH]; simpl.
  - split; [tauto | intros [v H]; discriminate].
  - destruct (String.eqb_spec k' k) as [->|Hne].
    + split; [intros _; now exists v' | now left].
    + rewrite <- IH. split; [intros [H|H]; [congruence | exact H] | now right].
Qed.

Lemma dict_get_none k d : PyDict.get k d = None <-> ~ In k (PyDict.keys d).
Proof.
  rewrite dict_get_keys. destruct (PyDict.get k d) as [v|].
  - split; [discriminate | intros H; exfalso; apply H; now exists v].
  - split; [intros _ [v H]; discriminate | reflexivity].
Qed.

Lemma dict_get_del_same k d : PyDict.get k (PyDict.del k d) = None.
Proof.
  induction d as [|[k' v'] rest IH]; simpl; [reflexivity|].
  destruct (String.eqb_spec k' k) as [->|Hne]; simpl; [exact IH|].
  destruct (String.eqb_spec k' k); [contradiction | exact IH].
Qed.

Lemma dict_get_del_other k k' d :
  k' <> k -> PyDict.get k' (PyDict.del k d) = PyDict.get k' d.
Proof.
  intros Hne. induction d as [|[k0 v0] rest IH]; simpl; [reflexivity|].
  destruct (String.eqb_spec k0 k) as [->|Hne0]; simpl.
  - destruct (String.eqb_spec k k'); [congruence | exact IH].
  - now rewrite IH.
Qed.

Lemma dict_get_set_same k v d : PyDict.get k (PyDict.set k v d) = Some v.
Proof.
  induction d as [|[k' v'] rest IH]; simpl.
  - now rewrite String.eqb_refl.
  - destruct (String.eqb_spec k' k) as [->|Hne]; simpl.
    + now rewrite String.eqb_refl.
    + destruct (String.eqb_spec k' k); [contradiction | exact IH].
Qed.

Lemma dict_get_set_other k k' v d :
  k' <> k -> PyDict.get k' (PyDict.set k v d) = PyDict.get k' d.
Proof.
  intros Hne. induction d as [|[k0 v0] rest IH]; simpl.
  - destruct (String.eqb_spec k k'); [congruence | reflexivity].
  - destruct (String.eqb_spec k0 k) as [->|Hne0]; simpl.
    + destruct (String.eqb_spec k k'); [congruence | reflexivity].
    + now rewrite IH.
Qed.

Lemma dict_keys_del k d :
  PyDict.keys (PyDict.del k d)
  = filter (fun k' => negb (String.eqb k' k)) (PyDict.keys d).
Proof.
  induction d as [|[k' v'] rest IH]; simpl; [reflexivity|].
  destruct (String.eqb k' k); simpl; now rewrite IH.
Qed.

Lemma dict_wf_del k d : PyDict.wf d -> PyDict.wf (PyDict.del k d).
Proof.
  unfold PyDict.wf. rewrite dict_keys_del. apply NoDup_filter.
Qed.

Lemma dict_keys_set k v d :
  PyDict.keys (PyDict.set k v d)
  = if PyDict.contains k d then PyDict.keys d else PyDict.keys d ++ [k].
Proof.
  unfold PyDict.contains.
  induction d as [|[k' v'] rest IH]; simpl; [reflexivity|].
  destruct (String.eqb_spec k' k) as [->|Hne]; simpl; [reflexivity|].
  rewrite IH. now destruct (PyDict.get k rest).
Qed.

Lemma dict_wf_set k v d : PyDict.wf d -> PyDict.wf (PyDict.set k v d).
Proof.
  unfold PyDict.wf. rewrite dict_keys_set. unfold PyDict.contains.
  destruct (PyDict.get k d) eqn:E; [tauto|].
  intros Hnd. apply dict_get_none in E.
  apply NoDup_app; [assumption | repeat constructor; simpl; tauto | ].
  intros x Hx [<-|[]]. contradiction.
Qed.

(** Writing a key makes the dictionary longer by one when the key is new,
    and leaves its length alone otherwise. *)
Lemma dict_length_set k v d :
  length (PyDict.set k v d)
  = if PyDict.contains k d then length d else S (length d).
Proof.
  unfold PyDict.contains.
  induction d as [|[k' v'] rest IH]; simpl; [reflexivity|].
  destruct (String.eqb_spec k' k) as [->|Hne]; simpl; [reflexivity|].
  rewrite IH. now destruct (PyDict.get k rest).
Qed.

Lemma dict_length_set_le k v d :
  (length (PyDict.set k v d) <= S (length d))%nat.
Proof. rewrite dict_length_set. destruct (PyDict.contains k d); lia. Qed.

Lemma dict_length_del_le k d : (length (PyDict.del k d) <= length d)%nat.
Proof. apply filter_length_le. Qed.

Lemma dict_del_absent k d :
  ~ In k (PyDict.keys d) -> PyDict.del k d = d.
Proof.
  induction d as [|[k' v'] rest IH]; simpl; [reflexivity|].
  intros Hn. destruct (String.eqb_spec k' k) as [->|Hne]; simpl.
  - exfalso. apply Hn. now left.
  - f_equal. apply IH. tauto.
Qed.

(** Deleting a key of a well-formed dictionary removes exactly one
    entry. *)
Lemma dict_length_del_present k d :
  PyDict.wf d -> In k (PyDict.keys d) ->
  S (length (PyDict.del k d)) = length d.
Proof.
  unfold PyDict.wf.
  induction d as [|[k' v'] rest IH]; simpl; [tauto|].
  intros Hnd Hin. inversion Hnd as [|? ? Hnotin Hnd']; subst.
  destruct (String.eqb_spec k' k) as [->|Hne]; simpl.
  - now rewrite dict_del_absent.
  - f_equal. apply IH; [assumption|]. destruct Hin; [contradiction|assumption].
Qed.

End PyDictFacts.

(** ** [min] with a key function *)
Section MinFacts.
Variable f : string -> Q.

Lemma min_from_spec ks : forall best,
  let m := min_from f best ks in
  (m = best \/ In m ks) /\
  (f m <= f best)%Q /\
  (forall k, In k ks -> f m <= f k)%Q.
Proof.
  induction ks as [|k rest IH]; intros best; simpl.
  - repeat split; [now left | apply Qle_refl | tauto].
  - destruct (Qgt_bool (f best) (f k)) eqn:E.
    + apply Qgt_bool_true in E.
      destruct (IH k) as (H1 & H2 & H3). repeat split.
      * right. destruct H1 as [->|H1]; [now left | now right].
      * apply Qle_trans with (f k); [exact H2 | now apply Qlt_le_weak].
      * intros k' [<-|Hin]; [exact H2 | now apply H3].
    + apply Qgt_bool_false in E.
      destruct (IH best) as (H1 & H2 & H3). repeat split.
      * destruct H1 as [->|H1]; [now left | right; now right].
      * exact H2.
      * intros k' [<-|Hin]; [|now apply H3].
        apply Qle_trans with (f best); assumption.
Qed.

(** [min] raises exactly on the empty sequence; otherwise its result is an
    element whose [f] is least. *)
Lemma py_min_spec ks :
  match py_min f ks with
  | None => ks = []
  | Some m => In m ks /\ forall k, In k ks -> (f m <= f k)%Q
  end.
Proof.
  destruct ks as [|k rest]; simpl; [reflexivity|].
  destruct (min_from_spec rest k) as (H1 & H2 & H3). split.
  - destruct H1 as [->|H1]; [now left | now right].
  - intros k' [<-|Hin]; [exact H2 | now apply H3].
Qed.

End MinFacts.

(** ** Result cache *)
Section QueryCacheFacts.
Import QueryCache.
Context {V Params : Type} {KD : KeyDerivation Params}.
Implicit Types (c : QueryCache.t V) (params : Params).

Lemma get_cases now params c :
  let key := _make_key params in
  match PyDict.get key (_cache c) with
  | None =>
      get now params c = (None, set_misses (_misses c + 1) c)
  | Some e =>
      ((now - timestamp e <= ttl_seconds c)%Q /\
       get now params c = (Some (results e), set_hits (_hits c + 1) c)) \/
      ((ttl_seconds c < now - timestamp e)%Q /\
       get now params c
         = (None, set_misses (_misses c + 1)
                    (set_cache (PyDict.del key (_cache c)) c)))
  end.
Proof.
  unfold get. simpl.
  destruct (PyDict.get (_make_key params) (_cache c)) as [e|]; [|reflexivity].
  destruct (Qgt_bool (now - timestamp e) (ttl_seconds c)) eqn:E.
  - right. apply Qgt_bool_true in E. now split.
  - left. apply Qgt_bool_false in E. now split.
Qed.

(** C3 (amended).  [get] returns the cached value exactly when the entry
    is present and [now - insertion_time <= ttl_seconds]; once more than
    [ttl_seconds] have elapsed since insertion it reports a miss and the
    entry is gone; and every call increments exactly one of the hit and
    miss counters, the hit counter exactly when a value is returned. *)
Theorem cache_get_within_ttl (now : Q) (params : Params) (c : QueryCache.t V) :
  let key := _make_key params in
  let r := fst (get now params c) in
  let c' := snd (get now params c) in
  (forall v, r = Some v <->
     exists e, PyDict.get key (_cache c) = Some e /\ results e = v /\
               (now - timestamp e <= ttl_seconds c)%Q) /\
  (forall e, PyDict.get key (_cache c) = Some e ->
     (ttl_seconds c < now - timestamp e)%Q ->
     r = None /\ PyDict.get key (_cache c') = None) /\
  ((r <> None /\ _hits c' = _hits c + 1 /\ _misses c' = _misses c) \/
   (r = None /\ _hits c' = _hits c /\ _misses c' = _misses c + 1)).
Proof.
  intros key r c'. subst r c'.
  pose proof (get_cases now params c) as H. simpl in H. fold key in H.
  destruct (PyDict.get key (_cache c)) as [e|] eqn:Hg.
  - destruct H as [[Hle ->]|[Hlt ->]]; simpl.
    + split; [|split].
      * intros v; split.
        -- intros [= <-]. now exists e.
        -- intros (e' & [= <-] & <- & _). reflexivity.
      * intros e' [= <-] Hlt. exfalso. apply (Qlt_not_le _ _ Hlt Hle).
      * left. repeat split; discriminate.
    + split; [|split].
      * intros v; split; [discriminate|].
        intros (e' & [= <-] & _ & Hle). exfalso.
        apply (Qlt_not_le _ _ Hlt Hle).
      * intros _ _ _. split; [reflexivity | apply dict_get_del_same].
      * right. repeat split.
  - rewrite H; simpl. split; [|split].
    + intros v; split; [discriminate | intros (e' & He & _); discriminate].
    + intros e' He; discriminate.
    + right. repeat split.
Qed.

(** What [set] does, by cases on the capacity test. *)
Lemma set_cases now params value c :
  let key := _make_key params in
  let d := _cache c in
  (PyDict.len d < max_size c /\
   set now params value c
     = (Return tt, set_cache (PyDict.set key (mk_entry value now) d) c)) \/
  (max_size c <= PyDict.len d /\ d = [] /\
   set now params value c
     = (Raise (ValueError "min() arg is an empty sequence"), c)) \/
  (max_size c <= PyDict.len d /\
   exists oldest,
     py_min (timestamp_of d) (PyDict.keys d) = Some oldest /\
     set now params value c
       = (Return tt,
          set_cache (PyDict.set key (mk_entry value now)
                       (PyDict.del oldest d)) c)).
Proof.
  intros key d. unfold set. fold key. fold d.
  destruct (Z.geb_spec (PyDict.len d) (max_size c)) as [Hge|Hlt].
  - right.
    pose proof (py_min_spec (timestamp_of d) (PyDict.keys d)) as Hm.
    destruct (py_min (timestamp_of d) (PyDict.keys d)) as [oldest|].
    + right. split; [lia|]. now exists oldest.
    + left. split; [lia|]. split; [|reflexivity].
      destruct d; [reflexivity | discriminate].
  - left. split; [lia | reflexivity].
Qed.

(** [get] and [invalidate] never add an entry. *)
Lemma get_size_wf now params c :
  PyDict.wf (_cache c) ->
  size (snd (get now params c)) <= size c /\
  PyDict.wf (_cache (snd (get now params c))).
Proof.
  intros Hwf. unfold get, size.
  destruct (PyDict.get (_make_key params) (_cache c)) as [e|]; simpl;
    [|split; [lia | assumption]].
  destruct (Qgt_bool (now - timestamp e) (ttl_seconds c)); simpl;
    [|split; [lia | assumption]].
  split; [|now apply dict_wf_del].
  pose proof (dict_length_del_le (_make_key params) (_cache c)).
  unfold PyDict.len. lia.
Qed.

Lemma invalidate_size_wf params c :
  PyDict.wf (_cache c) ->
  size (invalidate params c) <= size c /\
  PyDict.wf (_cache (invalidate params c)).
Proof.
  intros Hwf. unfold invalidate, size; simpl.
  split; [|now apply dict_wf_del].
  pose proof (dict_length_del_le (_make_key params) (_cache c)).
  unfold PyDict.len. lia.
Qed.


End QueryCacheFacts.

(** ** Retry executor *)
Section ConnectionPoolFacts.
Import ConnectionPool.
Context {World : Type} {RT : Runtime World} {A : Type}.
Implicit Types (operation : World -> outcome A * World) (s : st World).


Lemma acquires_app l1 l2 :
  acquires (l1 ++ l2) = (acquires l1 + acquires l2)%nat.
Proof.
  induction l1 as [|ev l1 IH]; simpl; [reflexivity|].
  destruct ev; simpl; rewrite IH; reflexivity.
Qed.

Lemma sleeps_app l1 l2 : sleeps (l1 ++ l2) = sleeps l1 ++ sleeps l2.
Proof.
  induction l1 as [|ev l1 IH]; simpl; [reflexivity|].
  destruct ev; simpl; rewrite IH; reflexivity.
Qed.

Lemma failures_app l1 l2 :
  failures (l1 ++ l2) = (failures l1 + failures l2)%nat.
Proof.
  induction l1 as [|ev l1 IH]; simpl; [reflexivity|].
  destruct ev as [| |[e|]| |]; simpl; rewrite IH; reflexivity.
Qed.

Lemma same_config_refl p : same_config p p.
Proof. repeat split. Qed.

Lemma same_config_trans p q r :
  same_config p q -> same_config q r -> same_config p r.
Proof.
  unfold same_config. intros (?&?&?&?&?) (?&?&?&?&?).
  repeat split; congruence.
Qed.

Lemma backoff_delay_config p q a :
  same_config p q -> backoff_delay q a = backoff_delay p a.
Proof.
  unfold same_config, backoff_delay. intros (_&_&_&-> & ->). reflexivity.
Qed.

(** One attempt: what it logs, and what it leaves of the pool. *)
Lemma try_body_spec operation start s :
  let r := fst (try_body operation start s) in
  let s1 := snd (try_body operation start s) in
  exists blk,
    log s1 = log s ++ blk /\
    attempt_block blk (raised r) /\
    same_config (pool s) (pool s1) /\
    _available (pool s1) = _available (pool s) /\
    RequestMetrics.failed_requests (_metrics (pool s1))
      = RequestMetrics.failed_requests (_metrics (pool s)) /\
    (forall e, r = Raise e ->
       _metrics (pool s1) = _metrics (pool s) /\
       _healthy (pool s1) = _healthy (pool s)).
Proof.
  unfold try_body.
  destruct (0 <? _available (pool s)).
  - destruct (operation (world s)) as [r w1]. destruct r as [v|e]; simpl.
    + exists [EvAcquire; EvCall None; EvRelease].
      rewrite <- app_assoc. simpl.
      repeat split; try constructor; try lia; discriminate.
    + exists [EvAcquire; EvCall (Some e); EvRelease].
      rewrite <- app_assoc. simpl.
      repeat split; try constructor; lia.
  - simpl. exists [EvAcquireTimeout].
    repeat split; constructor.
Qed.

Lemma attempt_block_counts blk x :
  attempt_block blk x ->
  sleeps blk = [] /\
  (calls blk <= 1)%nat /\
  calls blk = acquires blk /\
  failures blk = match x with Some _ => 1%nat | None => 0%nat end.
Proof.
  intros H; destruct H as [[e|]|]; simpl; repeat split; lia.
Qed.

Lemma retry_trace_config p q a l x :
  same_config p q -> retry_trace q a l x -> retry_trace p a l x.
Proof.
  intros Hc H. induction H.
  - now apply trace_success.
  - now apply trace_permanent.
  - apply trace_exhausted; try assumption.
    destruct Hc as (_&_&Hm&_). lia.
  - rewrite (backoff_delay_config p q a Hc).
    apply trace_retry with e; try assumption.
    destruct Hc as (_&_&Hm&_). lia.
Qed.

Lemma record_failure_at_spec start s :
  let s2 := record_failure_at start s in
  log s2 = log s /\ world s2 = world s /\
  same_config (pool s) (pool s2) /\
  _available (pool s2) = _available (pool s) /\
  _healthy (pool s2) = _healthy (pool s) /\
  RequestMetrics.failed_requests (_metrics (pool s2))
    = RequestMetrics.failed_requests (_metrics (pool s)) + 1.
Proof. simpl. repeat split. Qed.

(** The loop over the attempts [i], [i + 1], ..., [max_retries]: its log
    has the shape [retry_trace], the permits are all given back, and the
    metrics count one failure for each failed attempt. *)
Lemma retry_loop_spec operation : forall n i last s r s',
  (1 <= n)%nat ->
  Z.of_nat (i + n) = max_retries (pool s) + 1 ->
  retry_loop operation (map Z.of_nat (seq i n)) last s = (r, s') ->
  exists new,
    log s' = log s ++ new /\
    retry_trace (pool s) (Z.of_nat i) new (raised r) /\
    same_config (pool s) (pool s') /\
    _available (pool s') = _available (pool s) /\
    RequestMetrics.failed_requests (_metrics (pool s'))
      = RequestMetrics.failed_requests (_metrics (pool s))
        + Z.of_nat (failures new).
Proof.
  induction n as [|n IH]; intros i last s r s' Hn Hlen Hrun; [lia|].
  cbn [seq map retry_loop] in Hrun.
  pose proof (try_body_spec operation (time_time (world s)) s) as Hbody.
  destruct (try_body operation (time_time (world s)) s) as [r1 s1].
  cbn [fst snd] in Hbody.
  destruct Hbody as (blk & Hlog & Hblk & Hcfg & Hav & Hfail & _).
  destruct (attempt_block_counts blk _ Hblk) as (_ & _ & _ & Hfb).
  destruct r1 as [v|e].
  - (* the operation returned *)
    inversion Hrun; subst r s'. exists blk.
    repeat split; try assumption; try apply Hcfg.
    + now apply trace_success.
    + simpl in Hfb. rewrite Hfb. simpl. lia.
  - simpl in Hfb.
    destruct (record_failure_at_spec (time_time (world s)) s1)
      as (Hlog2 & Hw2 & Hcfg2 & Hav2 & _ & Hfail2).
    set (s2 := record_failure_at (time_time (world s)) s1) in *.
    assert (Hcfg02 : same_config (pool s) (pool s2))
      by (eapply same_config_trans; eassumption).
    assert (Hmr : max_retries (pool s2) = max_retries (pool s))
      by apply Hcfg02.
    destruct (is_transient e) eqn:Htr.
    + destruct (Z.ltb_spec (Z.of_nat i) (max_retries (pool s2)))
        as [Hlt|Hge].
      * (* a transient failure with budget left: sleep, then go on *)
        apply IH in Hrun; [| lia | cbn [pool]; lia].
        cbn [pool log] in Hrun.
        destruct Hrun as (new & Hlog' & Htrace & Hcfg' & Hav' & Hfail').
        exists (blk ++ EvSleep (backoff_delay (pool s) (Z.of_nat i)) :: new).
        rewrite (backoff_delay_config _ _ _ Hcfg02) in Hlog'.
        split; [|split; [|split; [|split]]].
        -- rewrite Hlog', Hlog2, Hlog. rewrite <- !app_assoc. reflexivity.
        -- apply trace_retry with e; try assumption; [lia|].
           apply retry_trace_config with (pool s2); [assumption|].
           replace (Z.of_nat i + 1) with (Z.of_nat (S i)) by lia.
           exact Htrace.
        -- eapply same_config_trans; eassumption.
        -- congruence.
        -- rewrite Hfail', Hfail2, Hfail, failures_app. simpl.
           rewrite Hfb. lia.
      * (* the last attempt failed: the pool is marked unhealthy *)
        inversion Hrun; subst r s'. exists blk. cbn [pool log].
        split; [congruence|]. split; [|split; [|split]].
        -- apply trace_exhausted; try assumption. lia.
        -- simpl. apply Hcfg02.
        -- simpl. congruence.
        -- simpl. fold s2. rewrite Hfb. simpl in Hfail2. lia.
    + (* any other exception goes to the caller at once *)
      inversion Hrun; subst r s'. exists blk.
      split; [congruence|]. split; [|split; [|split]].
      * now apply trace_permanent.
      * assumption.
      * congruence.
      * rewrite Hfail2, Hfail, Hfb. lia.
Qed.


(** The sleeps of a loop started at attempt [a] are the back-off delays
    of the attempts [a], [a + 1], ..., one for each attempt but the last;
    a loop that ends with a transient exception has used all attempts up
    to [max_retries]. *)
Lemma retry_trace_sleeps p a new x :
  retry_trace p a new x ->
  exists k : nat,
    sleeps new
      = map (fun j => backoff_delay p (a + Z.of_nat j)) (seq 0 k) /\
    (k = 0%nat \/ a + Z.of_nat k <= max_retries p) /\
    (forall e, x = Some e -> is_transient e = true ->
       max_retries p <= a + Z.of_nat k).
Proof.
  induction 1 as [a blk Hb|a blk e Hb Ht|a blk e Hb Ht Hm
                 |a blk e rest x Hb Ht Hlt Hrest IH];
    destruct (attempt_block_counts _ _ Hb) as (Hs & _).
  - exists 0%nat. rewrite Hs. repeat split; [now left | discriminate].
  - exists 0%nat. rewrite Hs. repeat split; [now left|].
    intros e' [= <-]. congruence.
  - exists 0%nat. rewrite Hs. repeat split; [now left|].
    intros; simpl; lia.
  - destruct IH as (k & Hk & Hbound & Hex). exists (S k).
    rewrite sleeps_app, Hs. cbn [app sleeps seq map].
    rewrite Z.add_0_r, Hk, <- seq_shift, map_map.
    split; [|split].
    + f_equal. apply map_ext. intros j. f_equal. lia.
    + right. destruct Hbound as [->|Hb']; lia.
    + intros e' He' Ht'. specialize (Hex e' He' Ht'). lia.
Qed.


(** An exception that is not transient can only end the loop: it is the
    outcome, its attempt is the last event group of the log, and every
    exception before it was transient. *)
Lemma retry_trace_permanent p a new x e :
  retry_trace p a new x ->
  In (EvCall (Some e)) new -> is_transient e = false ->
  x = Some e /\
  exists prefix,
    new = prefix ++ [EvAcquire; EvCall (Some e); EvRelease] /\
    (forall e', In (EvCall (Some e')) prefix -> is_transient e' = true) /\
    failures new = S (failures prefix).
Proof.
  intros H Hin Hperm.
  induction H as [a blk Hb|a blk e0 Hb Ht|a blk e0 Hb Ht Hm
                 |a blk e0 rest x Hb Ht Hlt Hrest IH].
  - inversion Hb; subst. simpl in Hin.
    destruct Hin as [H|[H|[H|[]]]]; discriminate.
  - inversion Hb; subst.
    + simpl in Hin. destruct Hin as [H|[H|[H|[]]]]; try discriminate.
      inversion H; subst. split; [reflexivity|].
      exists []. repeat split. intros e' [].
    + simpl in Hin. destruct Hin as [H|[]]; discriminate.
  - exfalso. inversion Hb; subst.
    + simpl in Hin. destruct Hin as [H|[H|[H|[]]]]; try discriminate.
      inversion H; subst. congruence.
    + simpl in Hin. destruct Hin as [H|[]]; discriminate.
  - apply in_app_or in Hin. destruct Hin as [Hin|[Hin|Hin]].
    + exfalso. inversion Hb; subst.
      * simpl in Hin. destruct Hin as [H|[H|[H|[]]]]; try discriminate.
        inversion H; subst. congruence.
      * simpl in Hin. destruct Hin as [H|[]]; discriminate.
    + discriminate.
    + destruct (IH Hin) as (Hx & prefix & -> & Hpre & Hf).
      split; [assumption|].
      exists (blk ++ EvSleep (backoff_delay p a) :: prefix).
      split; [|split].
      * rewrite <- app_assoc. reflexivity.
      * intros e' He'. apply in_app_or in He'.
        destruct He' as [He'|[He'|He']]; [| discriminate | now apply Hpre].
        inversion Hb; subst.
        -- simpl in He'. destruct He' as [H|[H|[H|[]]]]; try discriminate.
           inversion H; subst. assumption.
        -- simpl in He'. destruct He' as [H|[]]; discriminate.
      * rewrite !failures_app. simpl. rewrite Hf. lia.
Qed.

Lemma range_seq n : range n = map Z.of_nat (seq 0 (Z.to_nat n)).
Proof. reflexivity. Qed.

(** [execute_with_retry] with a retry budget of zero or more. *)
Lemma execute_with_retry_spec operation s r s' :
  0 <= max_retries (pool s) ->
  execute_with_retry operation s = (r, s') ->
  exists new,
    log s' = log s ++ new /\
    retry_trace (pool s) 0 new (raised r) /\
    same_config (pool s) (pool s') /\
    _available (pool s') = _available (pool s) /\
    RequestMetrics.failed_requests (_metrics (pool s'))
      = RequestMetrics.failed_requests (_metrics (pool s))
        + Z.of_nat (failures new).
Proof.
  intros Hm Hrun. unfold execute_with_retry in Hrun.
  rewrite range_seq in Hrun.
  apply retry_loop_spec in Hrun; [exact Hrun | lia | lia].
Qed.

(** With a negative [max_retries] the loop body never runs and the final
    [raise last_exception] is given [None]. *)
Lemma execute_with_retry_no_attempt operation s :
  max_retries (pool s) < 0 ->
  execute_with_retry operation s
    = (Raise (TypeError "exceptions must derive from BaseException"), s).
Proof.
  intros Hm. unfold execute_with_retry, range.
  replace (Z.to_nat (max_retries (pool s) + 1)) with 0%nat by lia.
  reflexivity.
Qed.


(** An attempt whose exception is not transient ends the loop at once:
    the exception goes to the caller, nothing is logged after the
    attempt, and the metrics are those before the attempt with one
    failure recorded. *)
Lemma retry_loop_permanent operation attempt rest last s e s1 :
  try_body operation (time_time (world s)) s = (Raise e, s1) ->
  is_transient e = false ->
  let now := time_time (world s1) in
  let latency := ((now - time_time (world s)) * 1000)%Q in
  exists s2,
    retry_loop operation (attempt :: rest) last s = (Raise e, s2) /\
    log s2 = log s1 /\ world s2 = world s1 /\
    _metrics (pool s2)
      = RequestMetrics.record_failure now latency (_metrics (pool s)).
Proof.
  intros Hbody Hperm now latency.
  exists (record_failure_at (time_time (world s)) s1).
  cbn [retry_loop]. rewrite Hbody, Hperm.
  repeat split.
  pose proof (try_body_spec operation (time_time (world s)) s) as H.
  rewrite Hbody in H. cbn [fst snd] in H.
  destruct H as (_ & _ & _ & _ & _ & _ & Hm).
  destruct (Hm e eq_refl) as (Hm' & _).
  simpl. rewrite Hm'. reflexivity.
Qed.

(** C8.  Only transient exceptions are retried.  When some invocation of
    the operation during [execute_with_retry] raises an exception [e]
    that is not transient, the call raises [e]; that invocation is the
    last thing the call did (no further attempt, no sleep), every
    exception raised before it was transient, and the failure counter has
    gone up by one for this attempt (and by one for each failed attempt
    before it). *)
Theorem permanent_error_not_retried operation s r s' new e :
  execute_with_retry operation s = (r, s') ->
  log s' = log s ++ new ->
  In (EvCall (Some e)) new ->
  is_transient e = false ->
  r = Raise e /\
  exists prefix,
    new = prefix ++ [EvAcquire; EvCall (Some e); EvRelease] /\
    (forall e', In (EvCall (Some e')) prefix -> is_transient e' = true) /\
    RequestMetrics.failed_requests (_metrics (pool s'))
      = RequestMetrics.failed_requests (_metrics (pool s))
        + Z.of_nat (failures prefix) + 1.
Proof.
  intros Hrun Hlog Hin Hperm.
  destruct (Z.lt_ge_cases (max_retries (pool s)) 0) as [Hneg|Hpos].
  - rewrite execute_with_retry_no_attempt in Hrun by assumption.
    inversion Hrun; subst r s'.
    rewrite <- (app_nil_r (log s)) in Hlog at 1.
    apply app_inv_head in Hlog. subst new. destruct Hin.
  - destruct (execute_with_retry_spec _ _ _ _ Hpos Hrun)
      as (new' & Hlog' & Htrace & _ & _ & Hfail).
    rewrite Hlog in Hlog'. apply app_inv_head in Hlog'. subst new'.
    destruct (retry_trace_permanent _ _ _ _ _ Htrace Hin Hperm)
      as (Hx & prefix & Hnew & Hpre & Hf).
    split.
    + destruct r; simpl in Hx; congruence.
    + exists prefix. repeat split; try assumption.
      rewrite Hfail, Hf. lia.
Qed.

End ConnectionPoolFacts.

(** ** Orchestration in the bridge *)
Section VectorDBBridgeFacts.
Import VectorDBBridge.
Context {World : Type} {RT : Runtime World}.
Context {Params : Type} {KD : QueryCache.KeyDerivation Params}.
Context {Doc V : Type} {BE : Backend World Params Doc V}.
Implicit Types (s : VectorDBBridge.t World V) (params : Params).

Lemma set_breaker_same s : set_breaker (_breaker s) s = s.
Proof. destruct s; reflexivity. Qed.

(** C10.  When entering the guard raises [CircuitBreakerOpen], the
    breaker after the call is the breaker before it (state, failure
    count, success count and last failure time), it was Open, and the
    guarded call as a whole raises that exception and changes nothing:
    the operation does not run and neither a success nor a failure is
    recorded. *)
Theorem denied_call_changes_nothing {A : Type}
    (operation : VectorDBBridge.t World V -> outcome A * VectorDBBridge.t World V)
    (s : VectorDBBridge.t World V) (ra : Q) (b' : CircuitBreaker.t) :
  CircuitBreaker.__enter__ (time_time (world s)) (_breaker s)
    = (Raise (CircuitBreakerOpen ra), b') ->
  b' = _breaker s /\
  CircuitBreaker._state (_breaker s) = CircuitBreaker.OPEN /\
  _with_circuit_breaker operation s = (Raise (CircuitBreakerOpen ra), s).
Proof.
  intros Henter.
  destruct (enter_denied _ _ _ _ Henter) as (-> & Hopen & _).
  split; [reflexivity|]. split; [assumption|].
  unfold _with_circuit_breaker. rewrite Henter.
  now rewrite set_breaker_same.
Qed.

(** The guard never touches the pool or the cache slot by itself. *)
Lemma with_circuit_breaker_frame {A : Type}
    (operation : VectorDBBridge.t World V -> outcome A * VectorDBBridge.t World V)
    (P : VectorDBBridge.t World V -> VectorDBBridge.t World V -> Prop) :
  (forall s, P s s) ->
  (forall s b, P s (set_breaker b s)) ->
  (forall s1 s2 s3, P s1 s2 -> P s2 s3 -> P s1 s3) ->
  (forall s, P s (snd (operation s))) ->
  forall s, P s (snd (_with_circuit_breaker operation s)).
Proof.
  intros Hrefl Hb Htrans Hop s. unfold _with_circuit_breaker.
  destruct (CircuitBreaker.__enter__ _ _) as [[u|e] b]; simpl; [|apply Hb].
  pose proof (Hop (set_breaker b s)) as H.
  destruct (operation (set_breaker b s)) as [[v|e] s1]; simpl in *.
  - eapply Htrans; [apply Hb|]. eapply Htrans; [exact H | apply Hb].
  - eapply Htrans; [apply Hb|]. eapply Htrans; [exact H | apply Hb].
Qed.

Lemma pool_untouched_refl s : pool_untouched s s.
Proof.
  repeat split; try tauto; [intros c H; now exists c|].
  exists []. rewrite app_nil_r. repeat split.
Qed.

Lemma pool_untouched_set_breaker s b : pool_untouched s (set_breaker b s).
Proof.
  repeat split; simpl; try tauto; [intros c H; now exists c|].
  exists []. rewrite app_nil_r. repeat split.
Qed.

Lemma pool_untouched_set_cache s c c' :
  _cache s = Some c -> pool_untouched s (set_cache (Some c') s).
Proof.
  intros Hc. repeat split; simpl.
  - congruence.
  - intros _ _. now exists c'.
  - exists []. rewrite app_nil_r. repeat split.
Qed.

Lemma search_operation_untouched params ie uc s :
  pool_untouched s (snd (search_operation params ie uc s)) /\
  exists new,
    log (snd (search_operation params ie uc s)) = log s ++ new /\
    calls new = 1%nat.
Proof.
  unfold search_operation.
  destruct (backend_search params ie (world s)) as [r w1].
  assert (Hbase : forall c,
    pool_untouched s
      (mk (_pool s) c (_breaker s) w1 (log s ++ [EvCall (raised r)])) <->
    ((_cache s = None -> c = None) /\
     (forall c0, _cache s = Some c0 -> exists c', c = Some c'))).
  { intros c. unfold pool_untouched; simpl. split; [tauto|].
    intros H. repeat split; try apply H.
    exists [EvCall (raised r)]. repeat split. }
  destruct r as [v|e]; simpl.
  - unfold cache_in_use; simpl. destruct uc; simpl.
    + destruct (_cache s) as [c|] eqn:Hc; simpl.
      * destruct (QueryCache.set (time_time w1) params v c) as [[u|e] c1];
          simpl; (split; [apply Hbase; split;
                    [discriminate | intros; now exists c1]
                         | now exists [EvCall None]]).
      * split; [apply Hbase; split;
                  [reflexivity | discriminate]
               | now exists [EvCall None]].
    + split; [apply Hbase; split;
                [tauto | intros c0 H0; now exists c0]
             | now exists [EvCall None]].
  - split; [apply Hbase; split; [tauto | intros c0 H0; now exists c0]
           | now exists [EvCall (Some e)]].
Qed.

Lemma pool_untouched_trans s1 s2 s3 :
  pool_untouched s1 s2 -> pool_untouched s2 s3 -> pool_untouched s1 s3.
Proof.
  intros (Hp1 & (Hn1 & Hs1) & new1 & Hl1 & Ha1 & Hz1)
         (Hp2 & (Hn2 & Hs2) & new2 & Hl2 & Ha2 & Hz2).
  split; [congruence|]. split; [split|].
  - auto.
  - intros c Hc. destruct (Hs1 c Hc) as [c' Hc']. now apply Hs2 in Hc'.
  - exists (new1 ++ new2). rewrite Hl2, Hl1, <- app_assoc.
    rewrite acquires_app, sleeps_app, Ha1, Ha2, Hz1, Hz2.
    repeat split.
Qed.

Lemma search_guarded_untouched params ie uc s :
  pool_untouched s (snd (search_guarded params ie uc s)).
Proof.
  unfold search_guarded.
  pose proof (with_circuit_breaker_frame
                (search_operation params ie uc) pool_untouched
                pool_untouched_refl pool_untouched_set_breaker
                pool_untouched_trans
                (fun s0 => proj1 (search_operation_untouched params ie uc s0))
                s) as H.
  destruct (_with_circuit_breaker (search_operation params ie uc) s)
    as [[v|e] s1]; cbn [snd] in *; [exact H|].
  destruct (_cache s1) as [c|] eqn:Hc; cbn [snd]; [|exact H].
  eapply pool_untouched_trans; [exact H|].
  now apply pool_untouched_set_cache with c.
Qed.

(** [search] never goes through the pool: whatever the cache and the
    breaker say, the pool (permits, metrics, health flag) is left as it
    was, no permit is taken and no retry sleep happens. *)
Lemma search_bypasses_pool params ie uc s :
  pool_untouched s (snd (search params ie uc s)).
Proof.
  unfold search. unfold cache_in_use.
  destruct uc; [|apply search_guarded_untouched].
  destruct (_cache s) as [c|] eqn:Hc; [|apply search_guarded_untouched].
  destruct (QueryCache.get (time_time (world s)) params c) as [[v|] c1];
    cbn [snd].
  - now apply pool_untouched_set_cache with c.
  - eapply pool_untouched_trans;
      [now apply pool_untouched_set_cache with c
      | apply search_guarded_untouched].
Qed.


End VectorDBBridgeFacts.

(** ** ODBC connection pool *)
Section OdbcFacts.
Import Odbc.
Context {World Conn : Type} {DR : Driver World Conn}.
Implicit Types (p : ConnectionPool Conn) (c : client World Conn).

Lemma list_pop_spec {X : Type} (l : list X) :
  match list_pop l with
  | None => l = []
  | Some (x, rest) => l = rest ++ [x]
  end.
Proof.
  induction l as [|y l IH]; simpl; [reflexivity|].
  destruct (list_pop l) as [[x rest]|]; subst; reflexivity.
Qed.

(** An acquisition pops an idle connection, or creates one below the cap,
    or fails and changes nothing in the pool. *)
Lemma get_connection_cases p w :
  match get_connection p w with
  | (Return conn, (p', _)) =>
      _closed conn = false /\ max_pool_size p' = max_pool_size p /\
      ((_active p' = _active p /\
        S (length (_pool p')) = length (_pool p)) \/
       (_active p' = _active p + 1 /\ _active p < max_pool_size p /\
        _pool p = [] /\ _pool p' = []))
  | (Raise _, (p', _)) => p' = p
  end.
Proof.
  unfold get_connection.
  pose proof (list_pop_spec (_pool p)) as Hpop.
  destruct (list_pop (_pool p)) as [[x rest]|].
  - simpl. repeat split. left. split; [reflexivity|].
    rewrite Hpop, length_app. simpl. lia.
  - destruct (Z.geb_spec (_active p) (max_pool_size p)); [reflexivity|].
    destruct (pyodbc_connect w) as [[conn|e] w1]; [|reflexivity].
    simpl. repeat split. right. repeat split; assumption || lia.
Qed.

Lemma drop_nth_length {X : Type} (i : nat) (l : list X) (x : X) :
  nth_error l i = Some x -> S (length (drop_nth i l)) = length l.
Proof.
  intros H. unfold drop_nth.
  assert (Hi : (i < length l)%nat) by (apply nth_error_Some; congruence).
  rewrite length_app, length_firstn, length_skipn. lia.
Qed.

Lemma drop_nth_Forall {X : Type} (P : X -> Prop) (l : list X) :
  forall i, Forall P l -> Forall P (drop_nth i l).
Proof.
  unfold drop_nth.
  induction l as [|x l IH]; intros i H.
  - destruct i; simpl; constructor.
  - inversion H as [|? ? Hx Hl]; subst. destruct i as [|i]; simpl.
    + exact Hl.
    + constructor; [exact Hx | apply (IH i Hl)].
Qed.

(** Closing a held connection of a consistent client: the connection is
    queued again, the idle count goes up by one, the number of checked
    out connections goes down by one, and the active count stays. *)
Lemma step_close c i conn :
  consistent c -> nth_error (held c) i = Some conn ->
  let c' := step (Close i) c in
  available_count (the_pool c') = available_count (the_pool c) + 1 /\
  active_count (the_pool c') = active_count (the_pool c) /\
  checked_out c' = checked_out c - 1 /\
  max_pool_size (the_pool c') = max_pool_size (the_pool c) /\
  consistent c'.
Proof.
  intros (Hcount & Hcap & Hopen) Hnth. simpl. rewrite Hnth.
  assert (Hcl : _closed conn = false).
  { rewrite Forall_forall in Hopen. apply Hopen.
    now apply nth_error_In with i. }
  pose proof (drop_nth_length i (held c) conn Hnth) as Hlen.
  unfold active_count, available_count, checked_out in *.
  assert (Hpos : 0 < _active (the_pool c)).
  { assert (0 < length (held c))%nat by lia. lia. }
  unfold close, return_connection. rewrite Hcl. simpl.
  destruct (Z.gtb_spec (_active (the_pool c)) 0) as [_|Hn]; [|lia].
  simpl. rewrite length_app. simpl.
  assert (Hfa : Forall (fun x => _closed x = false) (drop_nth i (held c)))
    by now apply drop_nth_Forall.
  unfold consistent, active_count, available_count, checked_out. simpl.
  rewrite length_app. simpl.
  repeat split; try assumption; lia.
Qed.

Lemma step_consistent op c : consistent c -> consistent (step op c).
Proof.
  intros Hc. destruct op as [|i].
  - destruct Hc as (Hcount & Hcap & Hopen). cbn [step].
    pose proof (get_connection_cases (the_pool c) (the_world c)) as Hget.
    destruct (get_connection (the_pool c) (the_world c))
      as [[conn|e] [p' w']].
    + destruct Hget as (Hcl & Hmax & Hcase).
      unfold consistent, active_count, available_count, checked_out in *.
      cbn [the_pool the_world held]. rewrite Hmax.
      destruct Hcase as [(Ha & Hl)|(Ha & Hlt & Hnil & Hnil')].
      * cbn [length]. repeat split; [lia | lia | now constructor].
      * rewrite Hnil in Hcount. rewrite Hnil'. cbn [length] in *.
        repeat split; [lia | lia | now constructor].
    + subst p'. repeat split; assumption.
  - cbn [step]. destruct (nth_error (held c) i) as [conn|] eqn:Hnth;
      [|assumption].
    pose proof (step_close c i conn Hc Hnth) as H. cbn [step] in H.
    rewrite Hnth in H. apply H.
Qed.

Lemma run_consistent ops : forall c, consistent c -> consistent (run ops c).
Proof.
  induction ops as [|op ops IH]; intros c Hc; [assumption|].
  simpl. apply IH. now apply step_consistent.
Qed.

Lemma init_consistent max (w : World) :
  consistent (mk_client (__init__ max : ConnectionPool Conn) w []).
Proof.
  unfold consistent, active_count, available_count, checked_out; simpl.
  repeat split; [lia | constructor].
Qed.

(** C2 (amended).  After any sequence of acquire and close operations on
    a new pool, [active_count] is the number of connections the pool has
    created, which is the number checked out plus [available_count] (and
    is within the cap).  Closing a connection that is checked out queues
    it again: [available_count] goes up by one, the number checked out
    goes down by one, and [active_count] does not change.  A second
    [close] of the same connection does nothing. *)
Theorem pool_counts_consistent
    (max : Z) (w : World) (ops : list pool_op) (i : nat)
    (conn : PooledConnection Conn) :
  let c := run ops (mk_client (__init__ max) w []) in
  (active_count (the_pool c)
     = checked_out c + available_count (the_pool c) /\
   active_count (the_pool c) <= Z.max 0 max) /\
  (nth_error (held c) i = Some conn ->
     let c' := step (Close i) c in
     available_count (the_pool c') = available_count (the_pool c) + 1 /\
     checked_out c' = checked_out c - 1 /\
     active_count (the_pool c') = active_count (the_pool c)) /\
  (forall p, close (fst (close conn p)) (snd (close conn p))
             = close conn p).
Proof.
  intros c.
  assert (Hc : consistent c)
    by (apply run_consistent, init_consistent).
  assert (Hmax : forall ops0 c0,
            max_pool_size (the_pool (run ops0 c0))
            = max_pool_size (the_pool c0)).
  { induction ops0 as [|op ops0 IH]; intros c0; [reflexivity|].
    simpl. rewrite IH. destruct op as [|j]; simpl.
    - pose proof (get_connection_cases (the_pool c0) (the_world c0)) as Hg.
      destruct (get_connection (the_pool c0) (the_world c0))
        as [[x|e] [p' w']]; simpl; [apply Hg | now subst].
    - destruct (nth_error (held c0) j) as [x|]; [|reflexivity].
      unfold close, return_connection. simpl.
      destruct (negb (_closed x)); [|reflexivity].
      destruct (_active (the_pool c0) >? 0); reflexivity. }
  split; [|split].
  - destruct Hc as (H1 & H2 & _). split; [exact H1|].
    unfold c in H2 at 2. rewrite Hmax in H2. exact H2.
  - intros Hnth.
    destruct (step_close c i conn Hc Hnth) as (H1 & H2 & H3 & _).
    repeat split; assumption.
  - intros p. unfold close.
    destruct (_closed conn) eqn:Hcl; simpl; [now rewrite Hcl | reflexivity].
Qed.

End OdbcFacts.

(** ** The properties on concrete inputs *)
Section Checks.
Import Scenario.
Open Scope string_scope.

(** The scenario of the specification: [max_retries = 3], a base delay of
    0.1 s, a cap of 10 s, an operation that fails twice with a transient
    error and then succeeds.  The result is returned, two failures and
    one success are recorded, and the sleeps are 0.1 s and 0.2 s. *)
Example retry_twice_then_succeed :
  let r := ConnectionPool.execute_with_retry (flaky 2 "ok") pool_state in
  let m := ConnectionPool._metrics (ConnectionPool.pool (snd r)) in
  fst r = Return "ok" /\
  sleeps (ConnectionPool.log (snd r)) = [1 # 10; 2 # 10]%Q /\
  calls (ConnectionPool.log (snd r)) = 3%nat /\
  RequestMetrics.failed_requests m = 2 /\
  RequestMetrics.successful_requests m = 1.
Proof. vm_compute. repeat split. Qed.

(** C1 (defect of the code).  On a new bridge whose backend fails once
    with a connection error and then answers, [search] misses the cache
    and raises the connection error after a single backend call: no
    permit is taken, nothing is retried, and the pool and its metrics are
    untouched.  The pipeline of the specification on the same bridge
    takes a permit for each of two attempts, sleeps 0.1 s between them and
    returns the documents; [add] on the same bridge does go through the
    retry executor. *)
Theorem search_miss_skips_retry_executor :
  let e := ConnectionError "connection reset" in
  let r := VectorDBBridge.search "q" false true bridge in
  let r_spec := VectorDBBridge.spec_guarded_read "q" false bridge in
  let r_add := VectorDBBridge.add "doc" bridge in
  let retried :=
    [EvAcquire; EvCall (Some e); EvRelease; EvSleep (1 # 10);
     EvAcquire; EvCall None; EvRelease] in
  (fst r = Raise e /\
   VectorDBBridge.log (snd r) = [EvCall (Some e)] /\
   VectorDBBridge._pool (snd r) = VectorDBBridge._pool bridge) /\
  (fst r_spec = Return ["doc-1"] /\
   VectorDBBridge.log (snd r_spec) = retried) /\
  (fst r_add = Return true /\
   VectorDBBridge.log (snd r_add) = retried).
Proof. vm_compute. repeat split. Qed.

(** C2, counterexample.  A connection is acquired from a new pool and
    closed.  While it is out and after it is back [active_count] is 1, so
    it neither goes down on return nor equals the number of connections
    checked out, which is 0 at the end. *)
Lemma active_count_not_checked_out :
  let c0 := Odbc.mk_client (Odbc.__init__ 10) 0%nat [] in
  let c1 := Odbc.run [Odbc.Acquire] c0 in
  let c2 := Odbc.run [Odbc.Acquire; Odbc.Close 0] c0 in
  Odbc.checked_out c1 = 1 /\
  Odbc.active_count (Odbc.the_pool c1) = 1 /\
  Odbc.checked_out c2 = 0 /\
  Odbc.available_count (Odbc.the_pool c2) = 1 /\
  Odbc.active_count (Odbc.the_pool c2) = 1 /\
  ~ Odbc.active_count (Odbc.the_pool c2)
    < Odbc.active_count (Odbc.the_pool c1) /\
  Odbc.active_count (Odbc.the_pool c2) <> Odbc.checked_out c2.
Proof. vm_compute. repeat split; discriminate. Qed.

(** C3, counterexample.  The entry was written at time 0 with a TTL of
    300 s.  At time 300 its age is not less than the TTL, yet [get]
    returns the value, counts a hit and keeps the entry. *)
Lemma cache_hit_at_age_ttl :
  let r := QueryCache.get 300 "q" one_entry_cache in
  PyDict.get "q" (QueryCache._cache one_entry_cache)
    = Some (QueryCache.mk_entry ["doc-1"] 0) /\
  ~ (300 - 0 < QueryCache.ttl_seconds one_entry_cache)%Q /\
  fst r = Some ["doc-1"] /\
  QueryCache._hits (snd r) = 1 /\
  PyDict.get "q" (QueryCache._cache (snd r))
    = Some (QueryCache.mk_entry ["doc-1"] 0).
Proof.
  cbv zeta. split; [reflexivity|]. split; [|vm_compute; repeat split].
  intros H. vm_compute in H. discriminate.
Qed.


(** The amended C2 on a pool of at most 10 connections from which one
    connection has been taken: closing it queues it again. *)
Lemma pool_counts_consistent_witness :
  let c := Odbc.run [Odbc.Acquire] (Odbc.mk_client (Odbc.__init__ 10) 0%nat [])
  in
  Odbc.available_count (Odbc.the_pool (Odbc.step (Odbc.Close 0) c))
    = Odbc.available_count (Odbc.the_pool c) + 1 /\
  Odbc.active_count (Odbc.the_pool (Odbc.step (Odbc.Close 0) c))
    = Odbc.active_count (Odbc.the_pool c).
Proof.
  destruct (pool_counts_consistent 10 0%nat [Odbc.Acquire] 0
              (Odbc.mk_pooled (Odbc.Raw 0%nat) false))
    as (_ & H & _).
  destruct (H eq_refl) as (H1 & _ & H3).
  split; [exact H1 | exact H3].
Defined.

(** The amended C3 on the entry of age 300 s under a TTL of 300 s. *)
Lemma cache_get_within_ttl_witness :
  fst (QueryCache.get 300 "q" one_entry_cache) = Some ["doc-1"].
Proof.
  destruct (cache_get_within_ttl 300 "q" one_entry_cache) as (H & _).
  apply H. exists (QueryCache.mk_entry ["doc-1"] 0).
  split; [reflexivity|]. split; [reflexivity|].
  apply Qle_bool_iff. reflexivity.
Defined.


(** C5 on the breaker of [get_breaker], whose threshold is 5. *)
Lemma breaker_opens_on_nth_failure_witness :
  let four := CircuitBreaker.record_failures [1; 2; 3; 4]%Q get_breaker in
  CircuitBreaker._state four = CircuitBreaker.CLOSED /\
  CircuitBreaker._failure_count four = 4 /\
  CircuitBreaker._state (CircuitBreaker.record_failure 5 four)
    = CircuitBreaker.OPEN.
Proof.
  destruct (breaker_opens_on_nth_failure get_breaker [1; 2; 3; 4]%Q 5%Q
              eq_refl eq_refl) as (H1 & H2 & _).
  destruct (H1 eq_refl) as (Ha & Hb).
  split; [exact Ha|]. split; [exact Hb | exact (H2 eq_refl)].
Defined.

(** C6 on a breaker opened by a failure at time 100 with a cooldown of
    30 s: denied at 110 and at 129, permitted at 130. *)
Lemma open_breaker_cooldown_witness :
  let b := VectorDBBridge._breaker open_bridge in
  fst (CircuitBreaker.can_execute_all [110; 129; 130]%Q b)
    = [Return false; Return false; Return true] /\
  CircuitBreaker._state
    (snd (CircuitBreaker.can_execute_all [110; 129; 130]%Q b))
    = CircuitBreaker.HALF_OPEN.
Proof.
  assert (Hall : Forall (fun t => (t - 100 < 30)%Q) [110; 129]%Q).
  { constructor; [reflexivity|]. constructor; [reflexivity|constructor]. }
  assert (Hle : (30 <= 130 - 100)%Q)
    by (apply Qle_bool_iff; reflexivity).
  destruct (open_breaker_cooldown (VectorDBBridge._breaker open_bridge)
              100%Q [110; 129]%Q 130%Q eq_refl eq_refl Hall Hle)
    as (_ & H & Hs & _).
  split; [|exact Hs].
  change ([110; 129; 130]%Q) with (([110; 129]%Q ++ [130%Q])%list).
  rewrite H. reflexivity.
Defined.


(** C8 on an operation that raises [ValueError]. *)
Lemma permanent_error_not_retried_witness :
  fst (ConnectionPool.execute_with_retry (@rejecting string) pool_state)
    = Raise (ValueError "bad request") /\
  RequestMetrics.failed_requests
    (ConnectionPool._metrics
       (ConnectionPool.pool
          (snd (ConnectionPool.execute_with_retry (@rejecting string)
                  pool_state)))) = 1.
Proof.
  pose (run := ConnectionPool.execute_with_retry (@rejecting string)
                 pool_state).
  assert (Hrun : run = (fst run, snd run)) by (vm_compute; reflexivity).
  assert (Hlog : ConnectionPool.log (snd run)
                 = (ConnectionPool.log pool_state
                    ++ [EvAcquire; EvCall (Some (ValueError "bad request"));
                        EvRelease])%list)
    by (vm_compute; reflexivity).
  destruct (permanent_error_not_retried (@rejecting string) pool_state
              (fst run) (snd run) _ (ValueError "bad request")
              Hrun Hlog (or_intror (or_introl eq_refl)) eq_refl)
    as (Hr & _).
  split; [exact Hr | reflexivity].
Defined.


(** C10 on the bridge whose breaker opened 10 s ago with a cooldown of
    30 s: the guarded call is refused and the bridge is as before. *)
Lemma denied_call_changes_nothing_witness :
  VectorDBBridge._with_circuit_breaker
    (VectorDBBridge.search_operation "q" false true) open_bridge
  = (Raise (CircuitBreakerOpen (Qmax 0 (30 - (110 - 100)))), open_bridge).
Proof.
  assert (Henter :
            CircuitBreaker.__enter__
              (time_time (VectorDBBridge.world open_bridge))
              (VectorDBBridge._breaker open_bridge)
            = (Raise (CircuitBreakerOpen (Qmax 0 (30 - (110 - 100)))),
               VectorDBBridge._breaker open_bridge))
    by reflexivity.
  destruct (denied_call_changes_nothing
              (VectorDBBridge.search_operation "q" false true)
              open_bridge _ _ Henter) as (_ & _ & H).
  exact H.
Defined.

End Checks.

(** * Further properties *)

(** ** Circuit breaker: recovery, cooldown and invariants *)
Section CircuitBreakerMore.
Import CircuitBreaker.

Lemma record_success_half_open b :
  _state b = HALF_OPEN ->
  record_success b =
    if _success_count b + 1 >=? success_threshold b
    then set_failure_count 0
           (set_state CLOSED (set_success_count (_success_count b + 1) b))
    else set_success_count (_success_count b + 1) b.
Proof. unfold record_success. intros ->. reflexivity. Qed.

Lemma record_successes_S k b :
  record_successes (S k) b = record_success (record_successes k b).
Proof. reflexivity. Qed.

Lemma record_successes_below k : forall b,
  _state b = HALF_OPEN ->
  _success_count b + Z.of_nat k < success_threshold b ->
  _state (record_successes k b) = HALF_OPEN /\
  _success_count (record_successes k b) = _success_count b + Z.of_nat k /\
  success_threshold (record_successes k b) = success_threshold b /\
  _last_failure_time (record_successes k b) = _last_failure_time b.
Proof.
  induction k as [|k IH]; intros b Hs Hlt.
  - simpl. repeat split; try assumption; lia.
  - rewrite Nat2Z.inj_succ in Hlt.
    destruct (IH b Hs) as (H1 & H2 & H3 & H4); [lia|].
    rewrite record_successes_S.
    rewrite (record_success_half_open _ H1), H2, H3.
    destruct (Z.geb_spec (_success_count b + Z.of_nat k + 1)
                (success_threshold b)); [lia|].
    unfold set_success_count; cbn [_state _success_count success_threshold
                                     _last_failure_time].
    rewrite H1, H3, H4. repeat split; lia.
Qed.

(** In HalfOpen, as entered with success count 0: after k successes in a
    row with k below [success_threshold] the breaker is still HalfOpen and
    has counted k; the success that makes the count reach
    [success_threshold] closes it and resets the failure count to 0. *)
Theorem half_open_closes_at_threshold (b : t) (k : nat) :
  _state b = HALF_OPEN ->
  _success_count b = 0 ->
  (Z.of_nat k < success_threshold b ->
     _state (record_successes k b) = HALF_OPEN /\
     _success_count (record_successes k b) = Z.of_nat k) /\
  (Z.of_nat k + 1 = success_threshold b ->
     _state (record_successes (S k) b) = CLOSED /\
     _failure_count (record_successes (S k) b) = 0).
Proof.
  intros Hs Hc. split.
  - intros Hlt.
    destruct (record_successes_below k b Hs) as (H1 & H2 & _); [lia|].
    split; [exact H1 | lia].
  - intros Heq.
    destruct (record_successes_below k b Hs) as (H1 & H2 & H3 & _); [lia|].
    rewrite record_successes_S.
    rewrite (record_success_half_open _ H1), H2, H3.
    destruct (Z.geb_spec (_success_count b + Z.of_nat k + 1)
                (success_threshold b)); [|lia].
    split; reflexivity.
Qed.

(** A failure recorded while the breaker is Open or HalfOpen leaves it Open
    whatever the success count was, and restarts the cooldown at the time
    of that failure: calls before [timeout_seconds] have passed since it
    are denied, the first one after is permitted. *)
Theorem failure_restarts_cooldown (b : t) (t0 now : Q) :
  _state b <> CLOSED ->
  let b' := record_failure t0 b in
  _state b' = OPEN /\
  _last_failure_time b' = Some t0 /\
  ((now - t0 < timeout_seconds b)%Q ->
     can_execute now b' = (Return false, b')) /\
  ((timeout_seconds b <= now - t0)%Q ->
     fst (can_execute now b') = Return true /\
     _state (snd (can_execute now b')) = HALF_OPEN /\
     _success_count (snd (can_execute now b')) = 0).
Proof.
  intros Hs b'.
  assert (Hopen : _state b' = OPEN).
  { subst b'. unfold record_failure. destruct b as [ft st ts s fc sc lf].
    simpl in *. destruct s; simpl; congruence. }
  pose proof (record_failure_last t0 b) as Hlast. fold b' in Hlast.
  destruct (record_failure_thresholds t0 b) as (_ & _ & Hts).
  fold b' in Hts.
  split; [exact Hopen|]. split; [exact Hlast|]. split.
  - intros Hlt. apply can_execute_open_early with t0; try assumption.
    now rewrite Hts.
  - intros Hle.
    rewrite (can_execute_open_elapsed now t0 b' Hopen Hlast)
      by now rewrite Hts.
    repeat split.
Qed.



Lemma do_call_fields c b :
  failure_threshold (do_call c b) = failure_threshold b /\
  success_threshold (do_call c b) = success_threshold b /\
  timeout_seconds (do_call c b) = timeout_seconds b.
Proof.
  destruct c as [now| |now]; simpl.
  - unfold can_execute. destruct (_state b); try (repeat split; fail).
    destruct (_last_failure_time b); [|repeat split].
    destruct (Qge_bool _ _); repeat split.
  - unfold record_success. destruct (_state b); try (repeat split; fail).
    cbn. destruct (_ >=? _); repeat split.
  - apply record_failure_thresholds.
Qed.

Lemma do_call_sound c b :
  1 <= failure_threshold b -> sound b -> sound (do_call c b).
Proof.
  destruct b as [ft st ts s fc sc lf]. unfold sound. cbn.
  intros Hft (Hfc & Hst). destruct c as [now| |now].
  - (* can_execute *)
    unfold do_call, can_execute. cbn. destruct s; cbn.
    + split; assumption.
    + destruct Hst as [last ->].
      destruct (Qge_bool (now - last) ts); cbn.
      * split; [assumption|]. split; [now exists last | now left].
      * split; [assumption|]. now exists last.
    + split; assumption.
  - (* record_success *)
    unfold do_call, record_success. cbn. destruct s; cbn.
    + split; lia.
    + split; assumption.
    + destruct Hst as (Hlast & Hsc).
      destruct (Z.geb_spec (sc + 1) st); cbn.
      * split; lia.
      * split; [assumption|]. split; [assumption|]. right. lia.
  - (* record_failure *)
    unfold do_call, record_failure. cbn. destruct s; cbn.
    + destruct (Z.geb_spec (fc + 1) ft); cbn.
      * split; [lia|]. now exists now.
      * split; lia.
    + split; [lia|]. now exists now.
    + split; [lia|]. now exists now.
Qed.

(** From a new breaker with [failure_threshold >= 1], after any sequence
    of [can_execute], [record_success] and [record_failure] calls: the
    failure count of a Closed breaker is below the threshold, the success
    count of a HalfOpen breaker is below its threshold (or still 0), an Open
    or HalfOpen breaker has a last failure time, and therefore
    [can_execute] never raises. *)
Theorem breaker_invariant
    (ft st : Z) (ts : Q) (cs : list call) (now : Q) :
  1 <= ft ->
  let b := do_calls cs (__init__ ft st ts) in
  sound b /\
  failure_threshold b = ft /\ success_threshold b = st /\
  timeout_seconds b = ts /\
  exists ok, fst (can_execute now b) = Return ok.
Proof.
  intros Hft b.
  assert (H : forall cs0 b0,
            1 <= failure_threshold b0 -> sound b0 ->
            sound (do_calls cs0 b0) /\
            failure_threshold (do_calls cs0 b0) = failure_threshold b0 /\
            success_threshold (do_calls cs0 b0) = success_threshold b0 /\
            timeout_seconds (do_calls cs0 b0) = timeout_seconds b0).
  { induction cs0 as [|c cs0 IH]; intros b0 H1 H2.
    - cbn. split; [exact H2 | repeat split].
    - destruct (do_call_fields c b0) as (F1 & F2 & F3).
      destruct (IH (do_call c b0)) as (I1 & I2 & I3 & I4).
      + now rewrite F1.
      + now apply do_call_sound.
      + change (do_calls (c :: cs0) b0) with (do_calls cs0 (do_call c b0)).
        rewrite I2, I3, I4.
        split; [exact I1|]. split; [exact F1|]. split; [exact F2 | exact F3]. }
  destruct (H cs (__init__ ft st ts)) as (Hsound & H1 & H2 & H3).
  - simpl. exact Hft.
  - unfold sound; simpl. lia.
  - fold b in Hsound, H1, H2, H3.
    split; [exact Hsound|]. split; [exact H1|]. split; [exact H2|].
    split; [exact H3|].
    destruct Hsound as (_ & Hst). unfold can_execute.
    destruct (_state b).
    + now exists true.
    + destruct Hst as [last ->].
      destruct (Qge_bool _ _); [now exists true | now exists false].
    + now exists true.
Qed.

End CircuitBreakerMore.

(** ** Request metrics *)
Section RequestMetricsMore.
Import RequestMetrics.

Lemma record_all_snoc xs x m :
  record_all (xs ++ [x]) m = record x (record_all xs m).
Proof. unfold record_all. now rewrite fold_left_app. Qed.

Lemma tl_skipn {X : Type} (k : nat) : forall l : list X,
  tl (skipn k l) = skipn (S k) l.
Proof.
  induction k as [|k IH]; intros [|x l]; try reflexivity.
  apply (IH l).
Qed.

Lemma record_appends x m :
  latency_history (record x m) = deque_append x (latency_history m) /\
  total_requests (record x m) = total_requests m + 1 /\
  successful_requests (record x m)
    = successful_requests m + (if success x then 1 else 0) /\
  failed_requests (record x m)
    = failed_requests m + (if success x then 0 else 1).
Proof.
  unfold record. destruct x as [ts lat [|]]; simpl; repeat split; lia.
Qed.

Lemma record_all_counts (xs : list sample) :
  total_requests (record_all xs empty) = Z.of_nat (length xs) /\
  successful_requests (record_all xs empty)
    = Z.of_nat (length (filter success xs)) /\
  failed_requests (record_all xs empty)
    = Z.of_nat (length (filter (fun x => negb (success x)) xs)) /\
  latency_history (record_all xs empty) = skipn (length xs - maxlen) xs.
Proof.
  induction xs as [|x xs IH] using rev_ind; [repeat split|].
  destruct IH as (H1 & H2 & H3 & H4).
  rewrite record_all_snoc.
  destruct (record_appends x (record_all xs empty)) as (R1 & R2 & R3 & R4).
  rewrite R1, R2, R3, R4, H1, H2, H3, H4.
  rewrite !filter_app, !length_app. cbn [filter length].
  split; [lia|]. split; [destruct (success x); simpl; lia|].
  split; [destruct (success x); simpl; lia|].
  unfold deque_append. rewrite length_skipn.
  destruct (Nat.leb_spec maxlen (length xs - (length xs - maxlen)))
    as [Hfull|Hroom].
  - rewrite tl_skipn, skipn_app.
    replace (length xs + 1 - maxlen)%nat with (S (length xs - maxlen))
      by (unfold maxlen in *; lia).
    replace (S (length xs - maxlen) - length xs)%nat with 0%nat
      by (unfold maxlen in *; lia).
    reflexivity.
  - replace (length xs - maxlen)%nat with 0%nat
      by (unfold maxlen in *; lia).
    replace (length xs + 1 - maxlen)%nat with 0%nat
      by (unfold maxlen in *; lia).
    reflexivity.
Qed.

Lemma filter_partition_length (xs : list sample) :
  (length (filter success xs)
   + length (filter (fun x => negb (success x)) xs))%nat = length xs.
Proof.
  induction xs as [|x xs IH]; [reflexivity|].
  cbn [filter length]. destruct (success x); simpl; lia.
Qed.

(** After any sequence of recorded requests on new metrics: the total is
    the number of requests and is the sum of the successes and the
    failures, and the history holds the most recent requests, at most 100 of
    them, oldest first. *)
Theorem metrics_counts_and_history (xs : list sample) :
  let m := record_all xs empty in
  total_requests m = Z.of_nat (length xs) /\
  successful_requests m = Z.of_nat (length (filter success xs)) /\
  failed_requests m
    = Z.of_nat (length (filter (fun x => negb (success x)) xs)) /\
  total_requests m = successful_requests m + failed_requests m /\
  latency_history m = skipn (length xs - maxlen) xs /\
  (length (latency_history m) <= maxlen)%nat.
Proof.
  cbv zeta. destruct (record_all_counts xs) as (H1 & H2 & H3 & H4).
  pose proof (filter_partition_length xs) as Hp.
  split; [exact H1|]. split; [exact H2|]. split; [exact H3|].
  split; [|split; [exact H4|]].
  - rewrite H1, H2, H3. lia.
  - rewrite H4, length_skipn. unfold maxlen. lia.
Qed.

Lemma success_rate_cases (s f : Z) (lat : Q) (h : list sample) :
  0 <= s -> 0 <= f ->
  let m := mk (s + f) s f lat h in
  (0 <= success_rate m)%Q /\ (success_rate m <= 1)%Q /\
  ((success_rate m == 1)%Q <-> f = 0) /\
  (Qgt_bool (success_rate m) (9 # 10) = true
   <-> s + f = 0 \/ 10 * f < s + f).
Proof.
  intros Hs Hf m. subst m. unfold success_rate. cbn [total_requests
    successful_requests]. rewrite Qgt_bool_true.
  destruct (Z.eqb_spec (s + f) 0) as [H0|Hpos].
  - assert (f = 0) by lia. subst f.
    repeat split; try discriminate; try reflexivity; intros; lia || auto.
  - destruct (s + f) as [|t|t] eqn:Ht; [lia | | lia].
    unfold Qle, Qlt, Qeq, Qdiv, Qmult, Qinv, inject_Z.
    cbn -[Z.mul Pos.mul Z.lt Z.le].
    repeat split; intros; lia.
Qed.

(** On metrics built from recorded requests, [success_rate] lies between 0
    and 1 and is 1 exactly when no request failed; and [is_healthy] holds
    exactly when the health flag is set and fewer than one request in ten
    has failed (or none was made). *)
Theorem success_rate_and_health
    (xs : list sample) (p : ConnectionPool.t) :
  let m := record_all xs empty in
  let p' := ConnectionPool.set_metrics m p in
  (0 <= success_rate m)%Q /\ (success_rate m <= 1)%Q /\
  ((success_rate m == 1)%Q <-> failed_requests m = 0) /\
  (ConnectionPool.is_healthy p' = true <->
     ConnectionPool._healthy p = true /\
     (total_requests m = 0 \/ 10 * failed_requests m < total_requests m)).
Proof.
  intros m p'.
  destruct (record_all_counts xs) as (H1 & H2 & H3 & _).
  pose proof (filter_partition_length xs) as Hp.
  assert (H4 : total_requests m = successful_requests m + failed_requests m)
    by (subst m; rewrite H1, H2, H3; lia).
  fold m in H1, H2, H3.
  assert (Hm : m = mk (successful_requests m + failed_requests m)
                      (successful_requests m) (failed_requests m)
                      (total_latency_ms m) (latency_history m)).
  { destruct m; simpl in *. now rewrite H4. }
  destruct (success_rate_cases (successful_requests m) (failed_requests m)
              (total_latency_ms m) (latency_history m))
    as (B1 & B2 & B3 & B4); [lia | lia |].
  rewrite <- Hm in B1, B2, B3, B4.
  split; [exact B1|]. split; [exact B2|]. split; [exact B3|].
  unfold ConnectionPool.is_healthy. subst p'. cbn.
  rewrite andb_true_iff, B4, <- H4. tauto.
Qed.

End RequestMetricsMore.

(** ** Retry executor: permits, health flag, metrics and delays *)
Section ConnectionPoolMore.
Import ConnectionPool.
Context {World : Type} {RT : Runtime World} {A : Type}.
Implicit Types (operation : World -> outcome A * World) (s : st World).

Lemma attempt_block_discipline blk x rest :
  attempt_block blk x ->
  permit_discipline 0 (blk ++ rest) = permit_discipline 0 rest /\
  acquires blk = releases blk.
Proof. intros H; destruct H; split; reflexivity. Qed.

Lemma releases_app l1 l2 :
  releases (l1 ++ l2) = (releases l1 + releases l2)%nat.
Proof.
  induction l1 as [|ev l1 IH]; simpl; [reflexivity|].
  destruct ev; simpl; rewrite IH; reflexivity.
Qed.

Lemma retry_trace_discipline p a new x :
  retry_trace p a new x ->
  permit_discipline 0 new = true /\ acquires new = releases new.
Proof.
  induction 1 as [a blk Hb|a blk e Hb Ht|a blk e Hb Ht Hm
                 |a blk e rest x Hb Ht Hlt Hrest IH].
  1-3: destruct (attempt_block_discipline blk _ [] Hb) as (H1 & H2);
       rewrite app_nil_r in H1; split; [rewrite H1; reflexivity | exact H2].
  destruct IH as (IH1 & IH2).
  destruct (attempt_block_discipline blk _
              (EvSleep (backoff_delay p a) :: rest) Hb) as (H1 & H2).
  split.
  - rewrite H1. cbn [permit_discipline Nat.eqb andb]. exact IH1.
  - rewrite acquires_app, releases_app. simpl. lia.
Qed.

(** [execute_with_retry] gives back every permit it takes: the semaphore
    has the same value after the call as before it, whatever the outcome,
    the operation only ever runs while the call holds exactly one permit,
    and no sleep or wait for a permit happens while a permit is held. *)
Theorem permits_given_back operation s :
  let s' := snd (execute_with_retry operation s) in
  _available (pool s') = _available (pool s) /\
  exists new,
    log s' = log s ++ new /\
    permit_discipline 0 new = true /\
    acquires new = releases new.
Proof.
  cbv zeta.
  destruct (Z.lt_ge_cases (max_retries (pool s)) 0) as [Hneg|Hpos].
  - rewrite execute_with_retry_no_attempt by assumption. simpl.
    split; [reflexivity|]. exists []. now rewrite app_nil_r.
  - destruct (execute_with_retry operation s) as [r s'] eqn:Hrun.
    destruct (execute_with_retry_spec _ _ _ _ Hpos Hrun)
      as (new & Hlog & Htrace & _ & Hav & _).
    simpl. split; [exact Hav|]. exists new. split; [exact Hlog|].
    exact (retry_trace_discipline _ _ _ _ Htrace).
Qed.

Lemma try_body_effects operation start s :
  let r := fst (try_body operation start s) in
  let s1 := snd (try_body operation start s) in
  match r with
  | Return _ =>
      RequestMetrics.total_requests (_metrics (pool s1))
        = RequestMetrics.total_requests (_metrics (pool s)) + 1 /\
      RequestMetrics.successful_requests (_metrics (pool s1))
        = RequestMetrics.successful_requests (_metrics (pool s)) + 1 /\
      _healthy (pool s1) = true /\ 0 < _available (pool s)
  | Raise e =>
      _metrics (pool s1) = _metrics (pool s) /\
      _healthy (pool s1) = _healthy (pool s) /\
      (_available (pool s) <= 0 ->
         e = TimeoutError "Connection pool exhausted" /\
         log s1 = log s ++ [EvAcquireTimeout])
  end.
Proof.
  unfold try_body.
  destruct (Z.ltb_spec 0 (_available (pool s))) as [Hav|Hav].
  - destruct (operation (world s)) as [[v|e] w1]; simpl.
    + repeat split; assumption.
    + repeat split; lia.
  - simpl. repeat split.
Qed.

(** The loop over the attempts [i], ..., [max_retries]: what it leaves in
    the counters and in the health flag. *)
Lemma retry_loop_outcome operation : forall n i last s r s',
  (1 <= n)%nat ->
  Z.of_nat (i + n) = max_retries (pool s) + 1 ->
  retry_loop operation (map Z.of_nat (seq i n)) last s = (r, s') ->
  let ok := match r with Return _ => 1 | Raise _ => 0 end in
  RequestMetrics.total_requests (_metrics (pool s'))
  - RequestMetrics.total_requests (_metrics (pool s))
    = RequestMetrics.failed_requests (_metrics (pool s'))
      - RequestMetrics.failed_requests (_metrics (pool s)) + ok /\
  RequestMetrics.successful_requests (_metrics (pool s'))
    = RequestMetrics.successful_requests (_metrics (pool s)) + ok /\
  match r with
  | Return _ => _healthy (pool s') = true
  | Raise e =>
      if is_transient e then _healthy (pool s') = false
      else _healthy (pool s') = _healthy (pool s)
  end.
Proof.
  induction n as [|n IH]; intros i last s r s' Hn Hlen Hrun; [lia|].
  cbn [seq map retry_loop] in Hrun.
  pose proof (try_body_spec operation (time_time (world s)) s) as Hbody.
  pose proof (try_body_effects operation (time_time (world s)) s) as Heff.
  destruct (try_body operation (time_time (world s)) s) as [r1 s1].
  cbn [fst snd] in Hbody, Heff.
  destruct Hbody as (blk & _ & _ & Hcfg & _ & Hfail & _).
  destruct r1 as [v|e].
  - inversion Hrun; subst r s'. destruct Heff as (H1 & H2 & H3 & _).
    cbv zeta. split; [lia|]. split; [lia | exact H3].
  - destruct Heff as (Hm & Hh & _).
    assert (Hm2 : _metrics (pool (record_failure_at (time_time (world s)) s1))
                  = RequestMetrics.record_failure (time_time (world s1))
                      ((time_time (world s1) - time_time (world s)) * 1000)%Q
                      (_metrics (pool s))).
    { simpl. now rewrite Hm. }
    assert (Hh2 : _healthy (pool (record_failure_at (time_time (world s)) s1))
                  = _healthy (pool s))
      by (simpl; exact Hh).
    assert (Hmr : max_retries
                    (pool (record_failure_at (time_time (world s)) s1))
                  = max_retries (pool s)).
    { simpl. apply Hcfg. }
    remember (record_failure_at (time_time (world s)) s1) as s2 eqn:Hs2.
    clear Hs2.
    destruct (is_transient e) eqn:Htr.
    + destruct (Z.ltb_spec (Z.of_nat i) (max_retries (pool s2)))
        as [Hlt|Hge].
      * apply IH in Hrun; [| lia | cbn [pool]; lia].
        cbn [pool] in Hrun. rewrite Hm2, Hh2 in Hrun.
        cbn [RequestMetrics.record_failure RequestMetrics.total_requests
             RequestMetrics.failed_requests
             RequestMetrics.successful_requests] in Hrun.
        destruct Hrun as (H1 & H2 & H3). cbv zeta.
        split; [lia|]. split; [lia|].
        destruct r as [v'|e']; [exact H3|].
        destruct (is_transient e'); exact H3.
      * inversion Hrun; subst r s'. cbv zeta. rewrite Htr.
        cbn [pool set_healthy _metrics _healthy]. rewrite Hm2.
        cbn [RequestMetrics.record_failure RequestMetrics.total_requests
             RequestMetrics.failed_requests
             RequestMetrics.successful_requests].
        repeat split; lia.
    + inversion Hrun; subst r s'. cbv zeta. rewrite Htr.
      rewrite Hm2, Hh2.
      cbn [RequestMetrics.record_failure RequestMetrics.total_requests
           RequestMetrics.failed_requests
           RequestMetrics.successful_requests].
      repeat split; lia.
Qed.

(** After [execute_with_retry] with a retry budget of zero or more, the
    health flag tells how the call ended: set when it returned a result,
    cleared when it gave up on a transient error, and left as it was when
    an error that is not transient went through. *)
Theorem health_flag_follows_outcome operation s r s' :
  0 <= max_retries (pool s) ->
  execute_with_retry operation s = (r, s') ->
  match r with
  | Return _ => _healthy (pool s') = true
  | Raise e =>
      if is_transient e then _healthy (pool s') = false
      else _healthy (pool s') = _healthy (pool s)
  end.
Proof.
  intros Hpos Hrun. unfold execute_with_retry in Hrun.
  rewrite range_seq in Hrun.
  apply retry_loop_outcome in Hrun; [apply Hrun | lia | lia].
Qed.

Lemma retry_trace_attempts p a new x :
  retry_trace p a new x ->
  (failures new + match x with None => 1 | Some _ => 0 end)%nat
  = S (length (sleeps new)).
Proof.
  induction 1 as [a blk Hb|a blk e Hb Ht|a blk e Hb Ht Hm
                 |a blk e rest x Hb Ht Hlt Hrest IH];
    destruct (attempt_block_counts _ _ Hb) as (Hs & _ & _ & Hf).
  1-3: rewrite Hs, Hf; reflexivity.
  rewrite failures_app, sleeps_app, Hs, Hf. cbn [failures sleeps app length].
  lia.
Qed.

(** Every attempt of [execute_with_retry] records exactly one sample: the
    number of attempts is one more than the number of sleeps, the total
    count grows by it, the success count grows by one exactly when a result
    is returned, and all other attempts are counted as failures. *)
Theorem one_sample_per_attempt operation s r s' :
  0 <= max_retries (pool s) ->
  execute_with_retry operation s = (r, s') ->
  exists new,
    log s' = log s ++ new /\
    let attempts := Z.of_nat (S (length (sleeps new))) in
    let ok := match r with Return _ => 1 | Raise _ => 0 end in
    RequestMetrics.total_requests (_metrics (pool s'))
      = RequestMetrics.total_requests (_metrics (pool s)) + attempts /\
    RequestMetrics.successful_requests (_metrics (pool s'))
      = RequestMetrics.successful_requests (_metrics (pool s)) + ok /\
    RequestMetrics.failed_requests (_metrics (pool s'))
      = RequestMetrics.failed_requests (_metrics (pool s)) + attempts - ok.
Proof.
  intros Hpos Hrun.
  destruct (execute_with_retry_spec _ _ _ _ Hpos Hrun)
    as (new & Hlog & Htrace & _ & _ & Hfail).
  pose proof (retry_trace_attempts _ _ _ _ Htrace) as Hatt.
  unfold execute_with_retry in Hrun. rewrite range_seq in Hrun.
  apply retry_loop_outcome in Hrun; [| lia | lia].
  destruct Hrun as (H1 & H2 & _).
  exists new. split; [exact Hlog|]. cbv zeta.
  destruct r as [v|e]; simpl in Hatt; repeat split; lia.
Qed.



Lemma backoff_le_max p a : (backoff_delay p a <= retry_max_delay p)%Q.
Proof. unfold backoff_delay. apply Q.le_min_r. Qed.

Lemma backoff_mono p a b :
  (0 <= retry_base_delay p)%Q -> 0 <= a -> a <= b ->
  (backoff_delay p a <= backoff_delay p b)%Q.
Proof.
  intros Hbase Ha Hab. unfold backoff_delay.
  apply Q.min_le_compat_r.
  rewrite !(Qmult_comm (retry_base_delay p)).
  apply Qmult_le_compat_r; [|exact Hbase].
  rewrite <- Zle_Qle. apply Z.pow_le_mono_r; lia.
Qed.

Lemma nondecreasing_map_seq (f : nat -> Q) :
  (forall j, (f j <= f (S j))%Q) ->
  forall k i, nondecreasing (map f (seq i k)).
Proof.
  intros Hf. induction k as [|k IH]; intros i; [exact I|].
  cbn [seq map nondecreasing].
  destruct k as [|k]; [exact I|].
  cbn [seq map]. split; [apply Hf|]. apply (IH (S i)).
Qed.

(** Every back-off sleep of [execute_with_retry] is at most
    [retry_max_delay], and with a base delay that is not negative the
    sleeps of one call never get shorter from one retry to the next. *)
Theorem sleeps_capped_and_growing operation s :
  (0 <= retry_base_delay (pool s))%Q ->
  exists new,
    log (snd (execute_with_retry operation s)) = log s ++ new /\
    Forall (fun d => (d <= retry_max_delay (pool s))%Q) (sleeps new) /\
    nondecreasing (sleeps new).
Proof.
  intros Hbase.
  destruct (Z.lt_ge_cases (max_retries (pool s)) 0) as [Hneg|Hpos].
  - rewrite execute_with_retry_no_attempt by assumption. simpl.
    exists []. rewrite app_nil_r. repeat split. constructor.
  - destruct (execute_with_retry operation s) as [r s'] eqn:Hrun.
    destruct (execute_with_retry_spec _ _ _ _ Hpos Hrun)
      as (new & Hlog & Htrace & _).
    destruct (retry_trace_sleeps _ _ _ _ Htrace) as (k & Hk & _).
    exists new. split; [exact Hlog|]. rewrite Hk. split.
    + apply Forall_forall. intros d Hd. apply in_map_iff in Hd.
      destruct Hd as (j & <- & _). apply backoff_le_max.
    + apply nondecreasing_map_seq. intros j.
      apply backoff_mono; [exact Hbase | lia | lia].
Qed.

End ConnectionPoolMore.

(** ** Result cache: invariants, round trips and eviction order *)
Section QueryCacheMore.
Import QueryCache.
Context {V Params : Type} {KD : KeyDerivation Params}.
Implicit Types (c : QueryCache.t V) (params : Params).

Lemma get_fields now params c :
  max_size (snd (get now params c)) = max_size c /\
  ttl_seconds (snd (get now params c)) = ttl_seconds c /\
  _hits (snd (get now params c)) + _misses (snd (get now params c))
    = _hits c + _misses c + 1 /\
  _hits c <= _hits (snd (get now params c)) /\
  _misses c <= _misses (snd (get now params c)).
Proof.
  unfold get.
  destruct (PyDict.get (_make_key params) (_cache c)) as [e|]; simpl;
    [|repeat split; lia].
  destruct (Qgt_bool (now - timestamp e) (ttl_seconds c)); simpl;
    repeat split; lia.
Qed.

Lemma set_fields now params value c :
  max_size (snd (set now params value c)) = max_size c /\
  ttl_seconds (snd (set now params value c)) = ttl_seconds c /\
  _hits (snd (set now params value c)) = _hits c /\
  _misses (snd (set now params value c)) = _misses c.
Proof.
  destruct (set_cases now params value c)
    as [(_ & ->)|[(_ & _ & ->)|(_ & oldest & _ & ->)]];
    repeat split.
Qed.

(** Within a capacity of one or more, [set] returns normally and keeps the
    cache a dictionary within its capacity. *)
Lemma set_within_capacity now params value c :
  PyDict.wf (_cache c) -> 1 <= max_size c -> size c <= max_size c ->
  fst (set now params value c) = Return tt /\
  PyDict.wf (_cache (snd (set now params value c))) /\
  size (snd (set now params value c)) <= max_size c.
Proof.
  intros Hwf Hpos Hsz. unfold size in *.
  destruct (set_cases now params value c)
    as [(Hlt & ->)|[(Hge & Hnil & _)|(Hge & oldest & Hmin & ->)]];
    cbv zeta in *.
  - simpl. split; [reflexivity|]. split; [now apply dict_wf_set|].
    pose proof (dict_length_set_le (_make_key params)
                  (mk_entry value now) (_cache c)).
    unfold PyDict.len in *. lia.
  - rewrite Hnil in Hge. unfold PyDict.len in Hge. simpl in Hge. lia.
  - simpl. split; [reflexivity|].
    split; [apply dict_wf_set; now apply dict_wf_del|].
    pose proof (py_min_spec (timestamp_of (_cache c))
                  (PyDict.keys (_cache c))) as Hm.
    rewrite Hmin in Hm. destruct Hm as (Hin & _).
    pose proof (dict_length_del_present oldest (_cache c) Hwf Hin).
    pose proof (dict_length_set_le (_make_key params) (mk_entry value now)
                  (PyDict.del oldest (_cache c))).
    unfold PyDict.len in *. lia.
Qed.

Lemma hit_rate_bounds (h m : Z) :
  0 <= h -> 0 <= m ->
  let rate :=
    if h + m >? 0 then (inject_Z h / inject_Z (h + m))%Q else 0%Q in
  (0 <= rate)%Q /\ (rate <= 1)%Q.
Proof.
  intros Hh Hm. cbv zeta.
  destruct (Z.gtb_spec (h + m) 0) as [Hpos|Hz]; [|split; discriminate].
  destruct (h + m) as [|t|t] eqn:Ht; [lia | | lia].
  unfold Qle, Qdiv, Qmult, Qinv, inject_Z.
  cbn -[Z.mul Pos.mul Z.le]. split; lia.
Qed.

Lemma do_calls_cons k ks c :
  do_calls (k :: ks) c = do_calls ks (do_call k c).
Proof. reflexivity. Qed.

Lemma do_calls_invariant (ks : list (call V Params)) : forall c,
  PyDict.wf (_cache c) -> 1 <= max_size c -> size c <= max_size c ->
  let c' := do_calls ks c in
  PyDict.wf (_cache c') /\ size c' <= max_size c /\
  max_size c' = max_size c /\ ttl_seconds c' = ttl_seconds c /\
  _hits c' + _misses c'
    = _hits c + _misses c + Z.of_nat (length (filter is_get ks)) /\
  _hits c <= _hits c' /\ _misses c <= _misses c'.
Proof.
  induction ks as [|k ks IH]; intros c Hwf Hpos Hsz.
  - cbn. repeat split; try assumption; lia.
  - rewrite do_calls_cons. cbv zeta.
    assert (Hstep : PyDict.wf (_cache (do_call k c)) /\
                    size (do_call k c) <= max_size c /\
                    max_size (do_call k c) = max_size c /\
                    ttl_seconds (do_call k c) = ttl_seconds c /\
                    _hits (do_call k c) + _misses (do_call k c)
                      = _hits c + _misses c
                        + (if is_get k then 1 else 0) /\
                    _hits c <= _hits (do_call k c) /\
                    _misses c <= _misses (do_call k c)).
    { destruct k as [now p|now p v|p|]; cbn [do_call is_get].
      - destruct (get_size_wf now p c Hwf) as (G1 & G2).
        destruct (get_fields now p c) as (F1 & F2 & F3 & F4 & F5).
        repeat split; try assumption; lia.
      - destruct (set_within_capacity now p v c Hwf Hpos Hsz)
          as (_ & S1 & S2).
        destruct (set_fields now p v c) as (F1 & F2 & F3 & F4).
        repeat split; try assumption; lia.
      - destruct (invalidate_size_wf p c Hwf) as (I1 & I2).
        cbn. repeat split; try assumption; try lia.
      - unfold clear, size, PyDict.len. cbn.
        repeat split; try lia. constructor. }
    destruct Hstep as (S1 & S2 & S3 & S4 & S5 & S6 & S7).
    destruct (IH (do_call k c)) as (I1 & I2 & I3 & I4 & I5 & I6 & I7);
      [assumption | lia | lia |].
    cbn [filter length].
    split; [exact I1|]. split; [lia|]. split; [lia|].
    split; [congruence|].
    split; [destruct (is_get k); cbn [length]; lia|].
    split; lia.
Qed.

(** From a new cache with [max_size >= 1], after any sequence of [get],
    [set], [invalidate] and [clear] calls: keys are unique, the cache holds
    at most [max_size] entries, the hit and miss counters add up to the
    number of [get] calls made, and the hit rate reported by [stats] lies
    between 0 and 1. *)
Theorem cache_invariant (ms : Z) (ttl : Q) (ks : list (call V Params)) :
  1 <= ms ->
  let c := do_calls ks (__init__ ms ttl) in
  PyDict.wf (_cache c) /\
  0 <= size c /\ size c <= ms /\
  _hits c + _misses c = Z.of_nat (length (filter is_get ks)) /\
  stats_size (stats c) = size c /\
  (0 <= stats_hit_rate (stats c))%Q /\ (stats_hit_rate (stats c) <= 1)%Q.
Proof.
  intros Hms c.
  destruct (do_calls_invariant ks (__init__ ms ttl))
    as (H1 & H2 & H3 & H4 & H5 & H6 & H7).
  - constructor.
  - exact Hms.
  - unfold size, PyDict.len. simpl. lia.
  - fold c in H1, H2, H3, H4, H5, H6, H7. simpl in H2, H5, H6, H7.
    destruct (hit_rate_bounds (_hits c) (_misses c)) as (R1 & R2);
      [lia | lia |].
    split; [exact H1|]. split; [unfold size, PyDict.len; lia|].
    split; [exact H2|]. split; [lia|]. split; [reflexivity|].
    split; [exact R1 | exact R2].
Qed.

Lemma dict_del_nil {X : Type} k : PyDict.del k ([] : PyDict.t X) = [].
Proof. reflexivity. Qed.

(** A cache built with [max_size <= 0] never stores anything: whatever
    calls are made, it stays empty, every [set] raises [ValueError] (from
    [min] of an empty sequence) and every [get] is a miss. *)
Theorem zero_capacity_cache_stays_empty
    (ms : Z) (ttl : Q) (ks : list (call V Params))
    (now : Q) (params : Params) (value : V) :
  ms <= 0 ->
  let c := do_calls ks (__init__ ms ttl) in
  _cache c = [] /\
  fst (set now params value c)
    = Raise (ValueError "min() arg is an empty sequence") /\
  fst (get now params c) = None /\
  _hits c = 0.
Proof.
  intros Hms c.
  assert (H : forall ks0 c0,
            _cache c0 = [] -> max_size c0 <= 0 -> _hits c0 = 0 ->
            _cache (do_calls ks0 c0) = [] /\
            max_size (do_calls ks0 c0) <= 0 /\ _hits (do_calls ks0 c0) = 0).
  { induction ks0 as [|k ks0 IH]; intros c0 He Hm Hh; [now repeat split|].
    rewrite do_calls_cons. apply IH.
    - destruct k as [t p|t p v|p|]; cbn [do_call].
      + unfold get. rewrite He. simpl. exact He.
      + unfold set. rewrite He. unfold PyDict.len. cbn.
        destruct (Z.geb_spec 0 (max_size c0)); [exact He | lia].
      + unfold invalidate. rewrite He. reflexivity.
      + reflexivity.
    - destruct k as [t p|t p v|p|]; cbn [do_call].
      + now rewrite (proj1 (get_fields t p c0)).
      + now rewrite (proj1 (set_fields t p v c0)).
      + exact Hm.
      + exact Hm.
    - destruct k as [t p|t p v|p|]; cbn [do_call].
      + unfold get. rewrite He. simpl. exact Hh.
      + destruct (set_fields t p v c0) as (_ & _ & -> & _). exact Hh.
      + exact Hh.
      + exact Hh. }
  destruct (H ks (__init__ ms ttl)) as (He & Hm & Hh);
    [reflexivity | exact Hms | reflexivity |].
  fold c in He, Hm, Hh.
  split; [exact He|]. split; [|split; [|exact Hh]].
  - unfold set. rewrite He. unfold PyDict.len. cbn.
    destruct (Z.geb_spec 0 (max_size c)); [reflexivity | lia].
  - unfold get. rewrite He. reflexivity.
Qed.

(** What a [set] that returns leaves under the key. *)
Lemma set_stores_entry
    (t : Q) (params : Params) (value : V) (c c' : QueryCache.t V) :
  set t params value c = (Return tt, c') ->
  PyDict.get (_make_key params) (_cache c') = Some (mk_entry value t) /\
  ttl_seconds c' = ttl_seconds c.
Proof.
  intros Hset.
  destruct (set_cases t params value c)
    as [(_ & H)|[(_ & _ & H)|(_ & oldest & _ & H)]];
    rewrite H in Hset; inversion Hset; subst c'; simpl;
    split; try reflexivity; apply dict_get_set_same.
Qed.

(** What [get] answers on an entry that is present. *)
Lemma get_present (now : Q) (params : Params) (c : QueryCache.t V) e :
  PyDict.get (_make_key params) (_cache c) = Some e ->
  ((now - timestamp e <= ttl_seconds c)%Q ->
     get now params c = (Some (results e), set_hits (_hits c + 1) c)) /\
  ((ttl_seconds c < now - timestamp e)%Q ->
     get now params c
       = (None, set_misses (_misses c + 1)
                  (set_cache (PyDict.del (_make_key params) (_cache c)) c))).
Proof.
  intros He. pose proof (get_cases now params c) as Hg. simpl in Hg.
  rewrite He in Hg. split.
  - intros Hle. destruct Hg as [(_ & ->)|(Hlt & _)]; [reflexivity|].
    exfalso. apply (Qlt_not_le _ _ Hlt Hle).
  - intros Hlt. destruct Hg as [(Hle & _)|(_ & ->)]; [|reflexivity].
    exfalso. apply (Qlt_not_le _ _ Hlt Hle).
Qed.

(** Round trip.  When [set] returns normally at time [t], a [get] for the
    same parameters at a time [now] returns the stored value as long as
    [now - t <= ttl_seconds], and misses (dropping the entry) once
    [now - t > ttl_seconds]. *)
Theorem set_then_get
    (t now : Q) (params : Params) (value : V) (c c' : QueryCache.t V) :
  set t params value c = (Return tt, c') ->
  ((now - t <= ttl_seconds c)%Q -> fst (get now params c') = Some value) /\
  ((ttl_seconds c < now - t)%Q ->
     fst (get now params c') = None /\
     PyDict.get (_make_key params) (_cache (snd (get now params c'))) = None).
Proof.
  intros Hset. destruct (set_stores_entry _ _ _ _ _ Hset) as (He & Httl).
  destruct (get_present now params c' _ He) as (Hhit & Hmiss).
  cbn [timestamp results] in Hhit, Hmiss. rewrite Httl in Hhit, Hmiss.
  split.
  - intros Hle. now rewrite (Hhit Hle).
  - intros Hlt. rewrite (Hmiss Hlt). simpl.
    split; [reflexivity | apply dict_get_del_same].
Qed.

Lemma dict_del_del {X : Type} k (d : PyDict.t X) :
  PyDict.del k (PyDict.del k d) = PyDict.del k d.
Proof.
  unfold PyDict.del. induction d as [|[k' v] d IH]; [reflexivity|].
  simpl. destruct (String.eqb k' k) eqn:E; simpl; [exact IH|].
  rewrite E. simpl. now rewrite IH.
Qed.

(** After [invalidate], a [get] for parameters with the same key misses at
    any time, a [get] for parameters with another key answers as it would
    have before, and a second [invalidate] changes nothing. *)
Theorem invalidate_then_get
    (now : Q) (params other : Params) (c : QueryCache.t V) :
  fst (get now params (invalidate params c)) = None /\
  (_make_key other <> _make_key params ->
     fst (get now other (invalidate params c)) = fst (get now other c)) /\
  invalidate params (invalidate params c) = invalidate params c.
Proof.
  split; [|split].
  - unfold get, invalidate. cbn [_cache set_cache].
    now rewrite dict_get_del_same.
  - intros Hne. unfold get, invalidate. cbn [_cache set_cache ttl_seconds].
    rewrite (dict_get_del_other _ _ _ Hne).
    destruct (PyDict.get (_make_key other) (_cache c)) as [e|];
      [|reflexivity].
    destruct (Qgt_bool (now - timestamp e) (ttl_seconds c)); reflexivity.
  - unfold invalidate. cbn [_cache set_cache]. unfold set_cache. cbn.
    now rewrite dict_del_del.
Qed.

(** Writing a key that is already cached into a full cache still evicts:
    the oldest entry goes first.  If that is another key, the cache ends up
    one entry short of what it held; if it is the key itself, the size is
    unchanged. *)
Theorem set_existing_key_when_full
    (now : Q) (params : Params) (value : V) (c : QueryCache.t V) :
  PyDict.wf (_cache c) ->
  In (_make_key params) (PyDict.keys (_cache c)) ->
  max_size c <= size c ->
  exists oldest,
    py_min (timestamp_of (_cache c)) (PyDict.keys (_cache c)) = Some oldest /\
    fst (set now params value c) = Return tt /\
    let c' := snd (set now params value c) in
    PyDict.get (_make_key params) (_cache c') = Some (mk_entry value now) /\
    (oldest <> _make_key params ->
       size c' = size c - 1 /\ PyDict.get oldest (_cache c') = None) /\
    (oldest = _make_key params -> size c' = size c).
Proof.
  intros Hwf Hin Hfull. unfold size in *.
  destruct (set_cases now params value c)
    as [(Hlt & _)|[(_ & Hnil & _)|(_ & oldest & Hmin & Hset)]];
    cbv zeta in *.
  - lia.
  - rewrite Hnil in Hin. destruct Hin.
  - exists oldest. split; [exact Hmin|]. rewrite Hset. cbn [fst snd].
    split; [reflexivity|]. cbn [_cache set_cache].
    pose proof (py_min_spec (timestamp_of (_cache c))
                  (PyDict.keys (_cache c))) as Hm.
    rewrite Hmin in Hm. destruct Hm as (Hold & _).
    pose proof (dict_length_del_present oldest (_cache c) Hwf Hold) as Hlen.
    pose proof (dict_length_set (_make_key params) (mk_entry value now)
                  (PyDict.del oldest (_cache c))) as Hls.
    split; [apply dict_get_set_same|]. split.
    + intros Hne.
      assert (Hc : PyDict.contains (_make_key params)
                     (PyDict.del oldest (_cache c)) = true).
      { unfold PyDict.contains.
        rewrite dict_get_del_other by congruence.
        apply dict_get_keys in Hin. destruct Hin as [e ->]. reflexivity. }
      rewrite Hc in Hls. split; [unfold PyDict.len; lia|].
      rewrite dict_get_set_other by assumption. apply dict_get_del_same.
    + intros ->.
      assert (Hc : PyDict.contains (_make_key params)
                     (PyDict.del (_make_key params) (_cache c)) = false).
      { unfold PyDict.contains. now rewrite dict_get_del_same. }
      rewrite Hc in Hls. unfold PyDict.len. lia.
Qed.

Lemma min_from_first (f : string -> Q) (ks : list string) : forall best,
  let m := min_from f best ks in
  (m = best /\ forall k, In k ks -> (f best <= f k)%Q) \/
  (exists l1 l2,
     ks = l1 ++ m :: l2 /\ (f m < f best)%Q /\
     (forall k, In k l1 -> (f m < f k)%Q) /\
     (forall k, In k l2 -> (f m <= f k)%Q)).
Proof.
  induction ks as [|k rest IH]; intros best; cbn [min_from].
  - left. split; [reflexivity | intros k []].
  - destruct (Qgt_bool (f best) (f k)) eqn:E.
    + apply Qgt_bool_true in E. right.
      destruct (IH k) as [(Hm & Hall)|(l1 & l2 & Hks & Hlt & H1 & H2)].
      * exists [], rest. rewrite Hm. cbn [app].
        split; [reflexivity|]. split; [exact E|].
        split; [intros k' [] | exact Hall].
      * exists (k :: l1), l2. cbn [app].
        split; [now rewrite <- Hks|].
        split; [now apply Qlt_trans with (f k)|].
        split; [|exact H2].
        intros k' [<-|Hin]; [exact Hlt | now apply H1].
    + apply Qgt_bool_false in E.
      destruct (IH best) as [(Hm & Hall)|(l1 & l2 & Hks & Hlt & H1 & H2)].
      * left. split; [exact Hm|].
        intros k' [<-|Hin]; [exact E | now apply Hall].
      * right. exists (k :: l1), l2. cbn [app].
        split; [now rewrite <- Hks|]. split; [exact Hlt|].
        split; [|exact H2].
        intros k' [<-|Hin]; [|now apply H1].
        now apply Qlt_le_trans with (f best).
Qed.

Lemma py_min_first (f : string -> Q) (ks : list string) (m : string) :
  py_min f ks = Some m ->
  exists l1 l2,
    ks = l1 ++ m :: l2 /\
    (forall k, In k l1 -> (f m < f k)%Q) /\
    (forall k, In k l2 -> (f m <= f k)%Q).
Proof.
  destruct ks as [|k0 rest]; [discriminate|]. cbn [py_min].
  intros [= <-].
  destruct (min_from_first f rest k0)
    as [(Hm & Hall)|(l1 & l2 & Hks & Hlt & H1 & H2)].
  - exists [], rest. rewrite Hm. cbn [app].
    split; [reflexivity|]. split; [intros k [] | exact Hall].
  - exists (k0 :: l1), l2. cbn [app].
    split; [now rewrite <- Hks|]. split; [|exact H2].
    intros k [<-|Hin]; [exact Hlt | now apply H1].
Qed.

Lemma dict_get_of_in {X : Type} (d : PyDict.t X) k v :
  PyDict.wf d -> In (k, v) d -> PyDict.get k d = Some v.
Proof.
  unfold PyDict.wf. induction d as [|[k' v'] d IH]; [intros _ []|].
  cbn [PyDict.keys map fst PyDict.get]. intros Hnd Hin.
  inversion Hnd as [|? ? Hnotin Hnd']; subst.
  destruct Hin as [[= -> ->]|Hin]; [now rewrite String.eqb_refl|].
  destruct (String.eqb_spec k' k) as [->|Hne]; [|now apply IH].
  exfalso. apply Hnotin. apply (in_map fst) in Hin. exact Hin.
Qed.

Lemma dict_del_app {X : Type} k (d1 d2 : PyDict.t X) :
  PyDict.del k (d1 ++ d2) = PyDict.del k d1 ++ PyDict.del k d2.
Proof. unfold PyDict.del. apply filter_app. Qed.

(** Which entry a full cache evicts.  With entries in insertion order, [set]
    on a cache that is at capacity removes the first entry whose timestamp
    is least: every entry inserted before it is strictly younger, every
    entry after it is at least as young, and all of them are kept, in
    order, before the new value is written. *)
Theorem eviction_takes_first_oldest
    (now : Q) (params : Params) (value : V) (c : QueryCache.t V) :
  PyDict.wf (_cache c) ->
  max_size c <= size c ->
  _cache c <> [] ->
  exists d1 oldest e d2,
    _cache c = d1 ++ (oldest, e) :: d2 /\
    (forall k' e', In (k', e') d1 -> (timestamp e < timestamp e')%Q) /\
    (forall k' e', In (k', e') d2 -> (timestamp e <= timestamp e')%Q) /\
    set now params value c
      = (Return tt,
         set_cache (PyDict.set (_make_key params) (mk_entry value now)
                      (d1 ++ d2)) c).
Proof.
  intros Hwf Hfull Hne. unfold size in Hfull.
  destruct (set_cases now params value c)
    as [(Hlt & _)|[(_ & Hnil & _)|(_ & oldest & Hmin & Hset)]];
    cbv zeta in *; [lia | contradiction |].
  destruct (py_min_first _ _ _ Hmin) as (l1 & l2 & Hks & H1 & H2).
  unfold PyDict.keys in Hks.
  apply map_eq_app in Hks. destruct Hks as (d1 & d2' & Hd & Hk1 & Hk2).
  apply map_eq_cons in Hk2. destruct Hk2 as ([k e] & d2 & -> & Hk & Hk2).
  cbn [fst] in Hk. subst k.
  assert (Hin : forall k' e', In (k', e') (_cache c) ->
                              timestamp_of (_cache c) k' = timestamp e').
  { intros k' e' Hi. unfold timestamp_of.
    now rewrite (dict_get_of_in _ _ _ Hwf Hi). }
  assert (Hold : timestamp_of (_cache c) oldest = timestamp e).
  { apply Hin. rewrite Hd. apply in_or_app. right. now left. }
  assert (Hnd : NoDup (map fst d1 ++ oldest :: map fst d2)).
  { unfold PyDict.wf, PyDict.keys in Hwf. rewrite Hd in Hwf.
    rewrite map_app in Hwf. exact Hwf. }
  assert (Hdel : PyDict.del oldest (_cache c) = d1 ++ d2).
  { rewrite Hd, dict_del_app.
    apply NoDup_remove_2 in Hnd.
    rewrite (dict_del_absent oldest d1)
      by (intros Hi; apply Hnd; apply in_or_app; now left).
    unfold PyDict.del at 1. cbn [filter fst]. rewrite String.eqb_refl.
    cbn [negb]. fold (PyDict.del oldest d2).
    rewrite (dict_del_absent oldest d2)
      by (intros Hi; apply Hnd; apply in_or_app; now right).
    reflexivity. }
  exists d1, oldest, e, d2. split; [exact Hd|]. split; [|split].
  - intros k' e' Hi.
    assert (Hi' : In (k', e') (_cache c))
      by (rewrite Hd; apply in_or_app; now left).
    rewrite <- Hold, <- (Hin _ _ Hi'). apply H1.
    rewrite <- Hk1. apply (in_map fst) in Hi. exact Hi.
  - intros k' e' Hi.
    assert (Hi' : In (k', e') (_cache c))
      by (rewrite Hd; apply in_or_app; right; now right).
    rewrite <- Hold, <- (Hin _ _ Hi'). apply H2.
    rewrite <- Hk2. apply (in_map fst) in Hi. exact Hi.
  - rewrite Hset, Hdel. reflexivity.
Qed.

End QueryCacheMore.

(** ** Bridge: cache write-through, uncached reads, writes *)
Section VectorDBBridgeMore.
Import VectorDBBridge.
Context {World : Type} {RT : Runtime World}.
Context {Params : Type} {KD : QueryCache.KeyDerivation Params}.
Context {Doc V : Type} {BE : Backend World Params Doc V}.
Implicit Types (s : VectorDBBridge.t World V) (params : Params).

(** The two ways through the guard: refused at entry, or the operation runs
    and its outcome is recorded once at exit. *)
Lemma with_circuit_breaker_cases {A : Type}
    (operation : VectorDBBridge.t World V
                 -> outcome A * VectorDBBridge.t World V) s :
  (exists e b,
     CircuitBreaker.__enter__ (time_time (world s)) (_breaker s)
       = (Raise e, b) /\
     _with_circuit_breaker operation s = (Raise e, set_breaker b s)) \/
  (exists b,
     CircuitBreaker.__enter__ (time_time (world s)) (_breaker s)
       = (Return tt, b) /\
     let r := fst (operation (set_breaker b s)) in
     let s1 := snd (operation (set_breaker b s)) in
     _with_circuit_breaker operation s
       = (r, set_breaker
               (CircuitBreaker.__exit__ (time_time (world s1)) (raised r)
                  (_breaker s1)) s1)).
Proof.
  unfold _with_circuit_breaker.
  destruct (CircuitBreaker.__enter__ (time_time (world s)) (_breaker s))
    as [[[]|e] b].
  - right. exists b. split; [reflexivity|]. cbv zeta.
    destruct (operation (set_breaker b s)) as [[v|e] s1]; reflexivity.
  - left. now exists e, b.
Qed.

Lemma search_operation_return params ie s v s1 c :
  _cache s = Some c ->
  search_operation params ie true s = (Return v, s1) ->
  exists w1 c2,
    backend_search params ie (world s) = (Return v, w1) /\
    QueryCache.set (time_time w1) params v c = (Return tt, c2) /\
    s1 = mk (_pool s) (Some c2) (_breaker s) w1 (log s ++ [EvCall None]).
Proof.
  intros Hc. unfold search_operation.
  destruct (backend_search params ie (world s)) as [[v0|e] w1] eqn:Hb;
    [|discriminate].
  unfold cache_in_use. cbn [_cache raised]. rewrite Hc.
  destruct (QueryCache.set (time_time w1) params v0 c) as [[[]|e] c2]
    eqn:Hset; [|discriminate].
  intros [= <- <-]. exists w1, c2. repeat split; assumption.
Qed.

(** A cached read whose entry is present and within its time to live is
    answered from the cache alone. *)
Lemma search_hit params ie s c e :
  _cache s = Some c ->
  PyDict.get (QueryCache._make_key params) (QueryCache._cache c) = Some e ->
  (time_time (world s) - QueryCache.timestamp e
   <= QueryCache.ttl_seconds c)%Q ->
  search params ie true s
    = (Return (QueryCache.results e),
       set_cache (Some (QueryCache.set_hits (QueryCache._hits c + 1) c)) s).
Proof.
  intros Hc He Hle. unfold search, cache_in_use. rewrite Hc.
  destruct (get_present (time_time (world s)) params c e He) as (Hhit & _).
  now rewrite (Hhit Hle).
Qed.

(** Write-through.  When a cacheable read misses the cache and returns
    [v], the result is in the cache under the read's key, stamped with the
    time at which the backend answered.  From then on, on any state of the
    bridge with that cache and a clock within [ttl_seconds] of the stamp,
    the same read returns [v] without calling the backend and without
    touching the breaker or the pool, whatever state the breaker is in. *)
Theorem search_writes_through params (ie ie' : bool) s
    (c : QueryCache.t V) (v : V) (s1 : VectorDBBridge.t World V) :
  _cache s = Some c ->
  fst (QueryCache.get (time_time (world s)) params c) = None ->
  search params ie true s = (Return v, s1) ->
  exists c2,
    _cache s1 = Some c2 /\
    PyDict.get (QueryCache._make_key params) (QueryCache._cache c2)
      = Some (QueryCache.mk_entry v (time_time (world s1))) /\
    forall s2,
      _cache s2 = Some c2 ->
      (time_time (world s2) - time_time (world s1)
       <= QueryCache.ttl_seconds c2)%Q ->
      search params ie' true s2
        = (Return v,
           set_cache
             (Some (QueryCache.set_hits (QueryCache._hits c2 + 1) c2)) s2).
Proof.
  intros Hc Hmiss Hsearch.
  unfold search, cache_in_use in Hsearch. rewrite Hc in Hsearch.
  destruct (QueryCache.get (time_time (world s)) params c) as [[v0|] c1];
    [discriminate|]. clear Hmiss.
  unfold search_guarded in Hsearch.
  destruct (with_circuit_breaker_cases
              (search_operation params ie true) (set_cache (Some c1) s))
    as [(e & b & _ & Hg)|(b & _ & Hg)]; cbv zeta in Hg;
    rewrite Hg in Hsearch.
  - destruct (QueryCache.invalidate params c1);
      cbn [set_cache set_breaker _cache] in Hsearch; discriminate.
  - destruct (search_operation params ie true
                (set_breaker b (set_cache (Some c1) s)))
      as [[v1|e] s_op] eqn:Hop; cbn [fst snd raised] in Hsearch.
    + inversion Hsearch; subst v1 s1.
      destruct (search_operation_return params ie
                  (set_breaker b (set_cache (Some c1) s)) v s_op c1
                  eq_refl Hop)
        as (w1 & c2 & _ & Hset & ->).
      destruct (set_stores_entry _ _ _ _ _ Hset) as (He & Httl).
      exists c2. cbn [set_breaker _cache world].
      split; [reflexivity|]. split; [exact He|].
      intros s2 Hc2 Hle.
      rewrite (search_hit params ie' s2 c2 _ Hc2 He Hle). reflexivity.
    + match type of Hsearch with
      | context [match ?x with _ => _ end] => destruct x
      end; discriminate.
Qed.

Lemma search_operation_uncached params ie s :
  _cache (snd (search_operation params ie false s)) = _cache s /\
  exists x,
    log (snd (search_operation params ie false s)) = log s ++ [EvCall x].
Proof.
  unfold search_operation.
  destruct (backend_search params ie (world s)) as [[v|e] w1]; simpl;
    (split; [reflexivity | eexists; reflexivity]).
Qed.

(** A read with [use_cache=False] does not consult or fill the cache: when
    the breaker admits the call the backend is invoked once even if a fresh
    entry is cached, and a result leaves the cache (entries and counters)
    as it was.  But when the call raises, the entry cached under the read's
    key is removed all the same. *)
Theorem uncached_read_still_invalidates params (ie : bool) s :
  let r := fst (search params ie false s) in
  let s' := snd (search params ie false s) in
  match r with
  | Return _ => _cache s' = _cache s
  | Raise _ => _cache s' = option_map (QueryCache.invalidate params) (_cache s)
  end /\
  (forall b,
     CircuitBreaker.__enter__ (time_time (world s)) (_breaker s)
       = (Return tt, b) ->
     exists x, log s' = log s ++ [EvCall x]).
Proof.
  cbv zeta.
  assert (Hs : search params ie false s = search_guarded params ie false s)
    by reflexivity.
  rewrite Hs. unfold search_guarded.
  destruct (with_circuit_breaker_cases
              (search_operation params ie false) s)
    as [(e & b & He & Hg)|(b & He & Hg)]; cbv zeta in Hg; rewrite Hg.
  - split.
    + clear. destruct s as [p [c0|] br w l]; reflexivity.
    + intros b' Hb'. rewrite He in Hb'. discriminate.
  - destruct (search_operation_uncached params ie (set_breaker b s))
      as (Hc & x & Hl).
    destruct (search_operation params ie false (set_breaker b s))
      as [[v|e] s1]; cbn [fst snd raised] in *.
    + split; [exact Hc|]. intros _ _. now exists x.
    + assert (Hc' : _cache s1 = _cache s) by exact Hc.
      assert (Hl' : log s1 = log s ++ [EvCall x]) by exact Hl.
      clear Hc Hl Hg He Hs.
      destruct s1 as [p1 c1 br1 w1 l1]. cbn [_cache log] in Hc', Hl'.
      subst c1 l1. cbn [set_breaker _cache].
      destruct (_cache s) as [c0|]; cbn [fst snd set_cache _cache log];
        (split; [reflexivity|]); intros _ _; now exists x.
Qed.

Lemma with_retry_frame {A : Type}
    (operation : World -> outcome A * World) s :
  _cache (snd (_with_retry operation s)) = _cache s /\
  _breaker (snd (_with_retry operation s)) = _breaker s.
Proof.
  unfold _with_retry.
  destruct (ConnectionPool.execute_with_retry operation _) as [r st].
  split; reflexivity.
Qed.

(** The breaker sees one outcome for each [add], that of the whole retried
    call.  With the breaker Closed: an [add] that returns, after however
    many retries, is recorded as one success (so the failure count is 0
    afterwards), an [add] that raises is recorded as one failure; and [add]
    never touches the cache. *)
Theorem add_reports_once_to_breaker (doc : Doc) s :
  CircuitBreaker._state (_breaker s) = CircuitBreaker.CLOSED ->
  let r := fst (add doc s) in
  let s' := snd (add doc s) in
  _cache s' = _cache s /\
  match r with
  | Return _ =>
      _breaker s' = CircuitBreaker.record_success (_breaker s) /\
      CircuitBreaker._failure_count (_breaker s') = 0
  | Raise _ =>
      _breaker s'
        = CircuitBreaker.record_failure (time_time (world s')) (_breaker s) /\
      CircuitBreaker._failure_count (_breaker s')
        = CircuitBreaker._failure_count (_breaker s) + 1
  end.
Proof.
  intros Hclosed. cbv zeta. unfold add.
  assert (Henter : CircuitBreaker.__enter__ (time_time (world s)) (_breaker s)
                   = (Return tt, _breaker s)).
  { unfold CircuitBreaker.__enter__, CircuitBreaker.can_execute.
    now rewrite Hclosed. }
  destruct (with_circuit_breaker_cases (_add_impl doc) s)
    as [(e & b & He & _)|(b & He & Hg)].
  - rewrite Henter in He. discriminate.
  - rewrite Henter in He. inversion He; subst b. cbv zeta in Hg.
    rewrite Hg, set_breaker_same.
    destruct (with_retry_frame (backend_add doc) s) as (Hc & Hb).
    unfold _add_impl in *.
    destruct (_with_retry (backend_add doc) s) as [[v|e] s1];
      cbn [fst snd raised set_breaker _cache _breaker world] in *;
      rewrite Hb; (split; [exact Hc|]).
    + split; [reflexivity|]. cbn [CircuitBreaker.__exit__].
      unfold CircuitBreaker.record_success. rewrite Hclosed. reflexivity.
    + split; [reflexivity|]. cbn [CircuitBreaker.__exit__].
      apply record_failure_count.
Qed.

Lemma retry_never_returns {A : Type}
    (operation : World -> outcome A * World) :
  (forall w, exists e w', operation w = (Raise e, w')) ->
  forall attempts last st,
    exists e st',
      ConnectionPool.retry_loop operation attempts last st = (Raise e, st').
Proof.
  intros Hop. induction attempts as [|a rest IH]; intros last st.
  - cbn. destruct last as [e|]; eexists; eexists; reflexivity.
  - cbn [ConnectionPool.retry_loop].
    assert (Hbody : exists e st1,
              ConnectionPool.try_body operation
                (time_time (ConnectionPool.world st)) st = (Raise e, st1)).
    { unfold ConnectionPool.try_body.
      destruct (0 <? _); [|eexists; eexists; reflexivity].
      destruct (Hop (ConnectionPool.world st)) as (e & w' & ->).
      eexists; eexists; reflexivity. }
    destruct Hbody as (e & st1 & ->).
    destruct (ConnectionPool.is_transient e);
      [|eexists; eexists; reflexivity].
    destruct (a <? _); [apply IH | eexists; eexists; reflexivity].
Qed.

Lemma range_succ n : 0 <= n -> exists rest, range (n + 1) = 0 :: rest.
Proof.
  intros Hn. unfold range.
  replace (Z.to_nat (n + 1)) with (S (Z.to_nat n)) by lia.
  cbn [seq map]. eexists; reflexivity.
Qed.

(** [add_batch] with at least one document never adds anything: it always
    raises.  With the breaker Closed, a free permit and a retry budget of
    zero or more, what it raises is the [UnboundLocalError] of its closure:
    the world is left as it was, the pool records one failed request and
    the breaker one failure. *)
Theorem add_batch_with_documents_raises {D : Type}
    (d : D) (documents : list D) s :
  let r := fst (add_batch (d :: documents) s) in
  let s' := snd (add_batch (d :: documents) s) in
  (exists e, r = Raise e) /\
  (CircuitBreaker._state (_breaker s) = CircuitBreaker.CLOSED ->
   0 < ConnectionPool._available (_pool s) ->
   0 <= ConnectionPool.max_retries (_pool s) ->
   r = Raise (OtherException "UnboundLocalError"
                "local variable 'embeddings' referenced before assignment") /\
   world s' = world s /\
   log s' = log s ++ [EvAcquire;
                      EvCall (Some (OtherException "UnboundLocalError"
                        "local variable 'embeddings' referenced before assignment"));
                      EvRelease] /\
   RequestMetrics.failed_requests (ConnectionPool._metrics (_pool s'))
     = RequestMetrics.failed_requests (ConnectionPool._metrics (_pool s)) + 1 /\
   CircuitBreaker._failure_count (_breaker s')
     = CircuitBreaker._failure_count (_breaker s) + 1).
Proof.
  cbv zeta. split.
  - unfold add_batch.
    destruct (with_circuit_breaker_cases
                (_add_batch_impl (d :: documents)) s)
      as [(e & b & _ & Hg)|(b & _ & Hg)]; cbv zeta in Hg; rewrite Hg.
    + now exists e.
    + cbn [fst]. unfold _add_batch_impl, _with_retry,
        ConnectionPool.execute_with_retry.
      destruct (retry_never_returns (add_batch_operation (d :: documents))
                  (fun w => ex_intro _ _ (ex_intro _ w eq_refl))
                  (range (ConnectionPool.max_retries
                            (ConnectionPool.pool
                               (ConnectionPool.mk_st
                                  (_pool (set_breaker b s))
                                  (world (set_breaker b s))
                                  (log (set_breaker b s)))) + 1))
                  None
                  (ConnectionPool.mk_st (_pool (set_breaker b s))
                     (world (set_breaker b s)) (log (set_breaker b s))))
        as (e & st' & ->).
      now exists e.
  - intros Hclosed Hav Hpos.
    set (e := OtherException "UnboundLocalError"
                "local variable 'embeddings' referenced before assignment").
    assert (Henter : CircuitBreaker.__enter__ (time_time (world s))
                       (_breaker s) = (Return tt, _breaker s)).
    { unfold CircuitBreaker.__enter__, CircuitBreaker.can_execute.
      now rewrite Hclosed. }
    unfold add_batch.
    destruct (with_circuit_breaker_cases
                (_add_batch_impl (d :: documents)) s)
      as [(e' & b & He & _)|(b & He & Hg)];
      rewrite Henter in He; [discriminate|].
    inversion He; subst b. cbv zeta in Hg. rewrite Hg, set_breaker_same.
    clear Hg He.
    assert (Hrun : _add_batch_impl (d :: documents) s
                   = (Raise e,
                      mk (ConnectionPool.set_metrics
                            (RequestMetrics.record_failure
                               (time_time (world s))
                               ((time_time (world s) - time_time (world s))
                                * 1000)%Q
                               (ConnectionPool._metrics (_pool s)))
                            (ConnectionPool.set_available
                               (ConnectionPool._available (_pool s) - 1 + 1)
                               (_pool s)))
                         (_cache s) (_breaker s) (world s)
                         (log s ++ [EvAcquire; EvCall (Some e); EvRelease]))).
    { unfold _add_batch_impl, _with_retry,
        ConnectionPool.execute_with_retry. cbn [ConnectionPool.pool].
      destruct (range_succ _ Hpos) as (rest & ->).
      cbn [ConnectionPool.retry_loop]. unfold ConnectionPool.try_body.
      cbn [ConnectionPool.pool ConnectionPool.world ConnectionPool.log].
      destruct (Z.ltb_spec 0 (ConnectionPool._available (_pool s)));
        [|lia].
      cbn. rewrite <- app_assoc. reflexivity. }
    rewrite Hrun. cbn [fst snd raised set_breaker world log _pool _breaker].
    split; [reflexivity|]. split; [reflexivity|]. split; [reflexivity|].
    split; [cbn; lia|]. apply record_failure_count.
Qed.

End VectorDBBridgeMore.

(** ** The in-memory backend behind the bridge *)
Section MemoryBackendMore.
Context {Env : Type} {RT : Runtime Env}.
Context {Embedding Value Params Result : Type}.
Context {KD : QueryCache.KeyDerivation Params}.
#[local] Existing Instance MemoryBackend.runtime.
#[local] Existing Instance MemoryBackend.backend.

#[local] Abbreviation mem_world := (MemoryBackend.world Env Embedding Value).
#[local] Abbreviation mem_bridge := (VectorDBBridge.t mem_world Result).
#[local] Abbreviation attribute_error :=
  (OtherException "AttributeError" "'list' object has no attribute 'items'").

Lemma enter_closed now b :
  CircuitBreaker._state b = CircuitBreaker.CLOSED ->
  CircuitBreaker.__enter__ now b = (Return tt, b).
Proof.
  intros H. unfold CircuitBreaker.__enter__, CircuitBreaker.can_execute.
  now rewrite H.
Qed.

Lemma memory_search_guarded (params : Params) (ie uc : bool)
    (s0 : mem_bridge) :
  let r := fst (VectorDBBridge.search_guarded params ie uc s0) in
  let s' := snd (VectorDBBridge.search_guarded params ie uc s0) in
  (exists e, r = Raise e) /\
  MemoryBackend._memory_store (VectorDBBridge.world s')
    = MemoryBackend._memory_store (VectorDBBridge.world s0) /\
  (forall c', VectorDBBridge._cache s' = Some c' ->
     PyDict.get (QueryCache._make_key params) (QueryCache._cache c') = None) /\
  (CircuitBreaker._state (VectorDBBridge._breaker s0) = CircuitBreaker.CLOSED ->
     r = Raise attribute_error /\
     CircuitBreaker._failure_count (VectorDBBridge._breaker s')
       = CircuitBreaker._failure_count (VectorDBBridge._breaker s0) + 1).
Proof.
  destruct s0 as [p c br w l]. cbv zeta.
  unfold VectorDBBridge.search_guarded, VectorDBBridge._with_circuit_breaker.
  cbn [VectorDBBridge.world VectorDBBridge._breaker].
  destruct (CircuitBreaker.__enter__ (time_time w) br) as [[[]|e] b] eqn:He.
  - (* admitted: the backend raises *)
    unfold VectorDBBridge.search_operation. cbn.
    destruct c as [c|]; cbn.
    + split; [now eexists|]. split; [reflexivity|]. split.
      * intros c' [= <-]. cbn. apply dict_get_del_same.
      * intros Hcl. rewrite (enter_closed _ _ Hcl) in He.
        inversion He; subst b. split; [reflexivity|].
        apply record_failure_count.
    + split; [now eexists|]. split; [reflexivity|]. split.
      * intros c' [=].
      * intros Hcl. rewrite (enter_closed _ _ Hcl) in He.
        inversion He; subst b. split; [reflexivity|].
        apply record_failure_count.
  - (* refused at entry *)
    cbn. destruct c as [c|]; cbn.
    + split; [now eexists|]. split; [reflexivity|]. split.
      * intros c' [= <-]. cbn. apply dict_get_del_same.
      * intros Hcl. rewrite (enter_closed _ _ Hcl) in He. discriminate.
    + split; [now eexists|]. split; [reflexivity|]. split.
      * intros c' [=].
      * intros Hcl. rewrite (enter_closed _ _ Hcl) in He. discriminate.
Qed.

(** On the memory backend a read that is not answered from the cache never
    returns: [_search_memory] raises [AttributeError] before it looks at
    the store, so [search] raises (that error, or the refusal of an open
    breaker), the store is untouched and no entry is cached for the read.
    With the breaker Closed the error is the [AttributeError] and the
    breaker counts one more failure. *)
Theorem memory_search_always_fails (params : Params) (ie uc : bool)
    (s : mem_bridge) :
  (forall c, VectorDBBridge.cache_in_use uc s = Some c ->
     fst (QueryCache.get (time_time (VectorDBBridge.world s)) params c)
       = None) ->
  let r := fst (VectorDBBridge.search params ie uc s) in
  let s' := snd (VectorDBBridge.search params ie uc s) in
  (exists e, r = Raise e) /\
  MemoryBackend._memory_store (VectorDBBridge.world s')
    = MemoryBackend._memory_store (VectorDBBridge.world s) /\
  (forall c', VectorDBBridge._cache s' = Some c' ->
     PyDict.get (QueryCache._make_key params) (QueryCache._cache c') = None) /\
  (CircuitBreaker._state (VectorDBBridge._breaker s) = CircuitBreaker.CLOSED ->
     r = Raise attribute_error /\
     CircuitBreaker._failure_count (VectorDBBridge._breaker s')
       = CircuitBreaker._failure_count (VectorDBBridge._breaker s) + 1).
Proof.
  intros Hmiss. cbv zeta. unfold VectorDBBridge.search.
  destruct (VectorDBBridge.cache_in_use uc s) as [c|] eqn:Huse.
  - specialize (Hmiss c eq_refl).
    destruct (QueryCache.get (time_time (VectorDBBridge.world s)) params c)
      as [[v|] c1]; [discriminate|].
    apply (memory_search_guarded params ie uc
             (VectorDBBridge.set_cache (Some c1) s)).
  - apply (memory_search_guarded params ie uc s).
Qed.

(** Through the whole pipeline on the memory backend: with the breaker
    Closed, a free permit and a retry budget of zero or more, [add] returns
    [True] after one backend call, and afterwards [get] finds the document
    with its embedding and its metadata ([{}] when none was given), while
    other documents are as before. *)
Theorem memory_add_then_get
    (doc_id other : string) (embedding : Embedding)
    (metadata : option (MemoryBackend.Metadata (Value := Value)))
    (s : mem_bridge) :
  CircuitBreaker._state (VectorDBBridge._breaker s) = CircuitBreaker.CLOSED ->
  0 < ConnectionPool._available (VectorDBBridge._pool s) ->
  0 <= ConnectionPool.max_retries (VectorDBBridge._pool s) ->
  let r := fst (VectorDBBridge.add (Params := Params)
                 (doc_id, embedding, metadata) s) in
  let s' := snd (VectorDBBridge.add (Params := Params)
                  (doc_id, embedding, metadata) s) in
  r = Return true /\
  VectorDBBridge.log s'
    = VectorDBBridge.log s ++ [EvAcquire; EvCall None; EvRelease] /\
  MemoryBackend.get doc_id (VectorDBBridge.world s')
    = Some (doc_id, embedding, MemoryBackend.or_empty metadata) /\
  (other <> doc_id ->
     MemoryBackend.get other (VectorDBBridge.world s')
       = MemoryBackend.get other (VectorDBBridge.world s)).
Proof.
  intros Hcl Hav Hpos. cbv zeta.
  destruct s as [p c br w l]. cbn [VectorDBBridge._breaker
    VectorDBBridge._pool VectorDBBridge.world VectorDBBridge.log] in *.
  unfold VectorDBBridge.add, VectorDBBridge._with_circuit_breaker.
  cbn [VectorDBBridge.world VectorDBBridge._breaker].
  rewrite (enter_closed _ _ Hcl).
  unfold VectorDBBridge._add_impl, VectorDBBridge._with_retry,
    ConnectionPool.execute_with_retry.
  cbn [VectorDBBridge.set_breaker VectorDBBridge._pool VectorDBBridge.world
       VectorDBBridge.log VectorDBBridge._cache VectorDBBridge._breaker
       ConnectionPool.pool].
  destruct (range_succ _ Hpos) as (rest & ->).
  cbn [ConnectionPool.retry_loop]. unfold ConnectionPool.try_body.
  cbn [ConnectionPool.pool ConnectionPool.world ConnectionPool.log].
  destruct (Z.ltb_spec 0 (ConnectionPool._available p)); [|lia].
  cbn. rewrite <- app_assoc.
  split; [reflexivity|]. split; [reflexivity|].
  unfold MemoryBackend.get. cbn. split.
  - now rewrite dict_get_set_same.
  - intros Hne. now rewrite dict_get_set_other.
Qed.

Lemma memory_do_calls_wf
    (ks : list (MemoryBackend.call Embedding Value)) : forall w : mem_world,
  PyDict.wf (MemoryBackend._memory_store w) ->
  PyDict.wf (MemoryBackend._memory_store (MemoryBackend.do_calls ks w)).
Proof.
  induction ks as [|k ks IH]; intros w Hwf; [exact Hwf|].
  change (MemoryBackend.do_calls (k :: ks) w)
    with (MemoryBackend.do_calls ks (MemoryBackend.do_call k w)).
  apply IH. destruct k as [[[id emb] meta]|id|id m]; cbn.
  - now apply dict_wf_set.
  - unfold MemoryBackend.delete.
    destruct (PyDict.contains id (MemoryBackend._memory_store w)); cbn;
      [now apply dict_wf_del | exact Hwf].
  - unfold MemoryBackend.update_metadata.
    destruct (PyDict.get id (MemoryBackend._memory_store w)) as [[e0 m0]|];
      cbn; [now apply dict_wf_set | exact Hwf].
Qed.

(** The memory store behaves as a map from document id to document.  After
    any sequence of additions, deletions and metadata updates on an empty
    store, ids are unique, and for any id: adding stores the document and
    grows the count only when the id is new; deleting answers whether the
    id was stored, removes it and shrinks the count by one in that case;
    updating the metadata answers whether the id was stored, keeps the
    embedding and the count, and never creates a document. *)
Theorem memory_store_is_a_map
    (e : Env) (ks : list (MemoryBackend.call Embedding Value))
    (doc_id : string) (embedding : Embedding)
    (metadata : option (MemoryBackend.Metadata (Value := Value)))
    (m : MemoryBackend.Metadata (Value := Value)) :
  let w : mem_world := MemoryBackend.do_calls ks (MemoryBackend.mk [] e) in
  let present := PyDict.contains doc_id (MemoryBackend._memory_store w) in
  let added := snd (MemoryBackend._add_memory (doc_id, embedding, metadata) w)
  in
  let deleted := MemoryBackend.delete doc_id w in
  let updated := MemoryBackend.update_metadata doc_id m w in
  PyDict.wf (MemoryBackend._memory_store w) /\
  (MemoryBackend.get doc_id added
     = Some (doc_id, embedding, MemoryBackend.or_empty metadata) /\
   MemoryBackend.count added
     = MemoryBackend.count w + (if present then 0 else 1)) /\
  (fst deleted = present /\
   MemoryBackend.get doc_id (snd deleted) = None /\
   MemoryBackend.count (snd deleted)
     = MemoryBackend.count w - (if present then 1 else 0)) /\
  (fst updated = present /\
   MemoryBackend.count (snd updated) = MemoryBackend.count w /\
   (present = false -> snd updated = w) /\
   (forall e0 m0,
      MemoryBackend.get doc_id w = Some (doc_id, e0, m0) ->
      MemoryBackend.get doc_id (snd updated) = Some (doc_id, e0, m))).
Proof.
  intros w present added deleted updated.
  assert (Hwf : PyDict.wf (MemoryBackend._memory_store w)).
  { apply memory_do_calls_wf. constructor. }
  subst present added deleted updated.
  set (d := MemoryBackend._memory_store w) in *.
  split; [exact Hwf|]. split; [|split].
  - (* add *)
    unfold MemoryBackend.get, MemoryBackend.count, PyDict.len. cbn. fold d.
    rewrite dict_get_set_same. split; [reflexivity|].
    rewrite dict_length_set. destruct (PyDict.contains doc_id d); lia.
  - (* delete *)
    unfold MemoryBackend.delete, MemoryBackend.get, MemoryBackend.count,
      PyDict.len. fold d.
    destruct (PyDict.contains doc_id d) eqn:Hc; cbn.
    + split; [reflexivity|]. rewrite dict_get_del_same.
      split; [reflexivity|].
      assert (Hin : In doc_id (PyDict.keys d)).
      { apply dict_get_keys. unfold PyDict.contains in Hc.
        destruct (PyDict.get doc_id d) as [x|]; [now exists x|discriminate]. }
      pose proof (dict_length_del_present doc_id d Hwf Hin). lia.
    + split; [reflexivity|]. fold d. unfold PyDict.contains in Hc.
      destruct (PyDict.get doc_id d); [discriminate|].
      split; [reflexivity | lia].
  - (* update_metadata *)
    unfold MemoryBackend.update_metadata, MemoryBackend.get,
      MemoryBackend.count, PyDict.len, PyDict.contains. fold d.
    destruct (PyDict.get doc_id d) as [[e0 m0]|] eqn:Hg; cbn.
    + split; [reflexivity|]. split; [|split; [discriminate|]].
      * rewrite dict_length_set. unfold PyDict.contains. now rewrite Hg.
      * intros e1 m1 [= <- <-]. now rewrite dict_get_set_same.
    + split; [reflexivity|]. split; [reflexivity|].
      split; [reflexivity|]. fold d. rewrite Hg. discriminate.
Qed.

End MemoryBackendMore.

(** ** ODBC pool: exhaustion, reuse and the bridge's queries *)
Section OdbcMore.
Import Odbc.
Context {World Conn : Type} {DR : Driver World Conn}.
Implicit Types (p : ConnectionPool Conn) (c : client World Conn).

Lemma run_app ops1 ops2 c : run (ops1 ++ ops2) c = run ops2 (run ops1 c).
Proof. unfold run. apply fold_left_app. Qed.

Lemma step_max op c :
  max_pool_size (the_pool (step op c)) = max_pool_size (the_pool c).
Proof.
  destruct op as [|j]; cbn [step].
  - pose proof (get_connection_cases (the_pool c) (the_world c)) as Hg.
    destruct (get_connection (the_pool c) (the_world c))
      as [[x|e] [p' w']]; cbn; [apply Hg | now subst].
  - destruct (nth_error (held c) j) as [x|]; [|reflexivity].
    unfold close, return_connection. cbn.
    destruct (negb (_closed x)); [|reflexivity].
    destruct (_active (the_pool c) >? 0); reflexivity.
Qed.

Lemma run_max ops : forall c,
  max_pool_size (the_pool (run ops c)) = max_pool_size (the_pool c).
Proof.
  induction ops as [|op ops IH]; intros c; [reflexivity|].
  change (run (op :: ops) c) with (run ops (step op c)).
  now rewrite IH, step_max.
Qed.

(** After any sequence of acquire and close operations on a new pool, an
    acquisition is refused with [PoolExhaustedError] exactly in the
    situation where [max_pool_size] connections (or more) are checked out,
    and a refusal changes nothing; while fewer are out, the acquisition
    either hands out a connection or fails with what the driver raised. *)
Theorem acquire_refused_when_all_out
    (max : Z) (w : World) (ops : list pool_op) :
  let c := run ops (mk_client (__init__ max) w []) in
  let r := get_connection (the_pool c) (the_world c) in
  (max <= checked_out c ->
     r = (Raise (PoolExhaustedError (active_count (the_pool c)) max),
          (the_pool c, the_world c)) /\
     available_count (the_pool c) = 0) /\
  (checked_out c < max ->
     (exists conn, fst r = Return conn) \/
     (exists e w', pyodbc_connect (the_world c) = (Raise e, w') /\
                   fst r = Raise e)).
Proof.
  intros c r.
  assert (Hc : consistent c) by (apply run_consistent, init_consistent).
  assert (Hmax : max_pool_size (the_pool c) = max)
    by (unfold c; now rewrite run_max).
  destruct Hc as (Hcount & Hcap & _). rewrite Hmax in Hcap.
  unfold active_count, available_count, checked_out in *.
  pose proof (list_pop_spec (_pool (the_pool c))) as Hpop.
  subst r. unfold get_connection. split.
  - intros Hall.
    assert (Hnil : _pool (the_pool c) = []).
    { destruct (_pool (the_pool c)); [reflexivity|]. cbn [length] in *. lia. }
    rewrite Hnil in *. cbn [list_pop length]. rewrite Hmax.
    destruct (Z.geb_spec (_active (the_pool c)) max); [|cbn in *; lia].
    split; reflexivity.
  - intros Hfew.
    destruct (list_pop (_pool (the_pool c))) as [[x rest]|].
    + left. eexists. reflexivity.
    + rewrite Hpop in Hcount. cbn [length] in Hcount. rewrite Hmax.
      destruct (Z.geb_spec (_active (the_pool c)) max); [lia|].
      destruct (pyodbc_connect (the_world c)) as [[conn|e] w1] eqn:Hd.
      * left. eexists. reflexivity.
      * right. exists e, w1. split; reflexivity.
Qed.

Lemma nat_iter_succ_r {X : Type} (f : X -> X) n x :
  Nat.iter n f (f x) = f (Nat.iter n f x).
Proof.
  induction n as [|n IH]; [reflexivity|].
  change (Nat.iter (S n) f (f x)) with (f (Nat.iter n f (f x))).
  now rewrite IH.
Qed.

Lemma reuse_cycles (n : nat) : forall (max : Z) (w : World) (h : handle Conn),
  let c0 := mk_client (mk max [] 1) w [mk_pooled h false] in
  run (concat (repeat [Close 0; Acquire] n)) c0
  = mk_client (mk max [] 1) w [mk_pooled (Nat.iter n Wrapped h) false].
Proof.
  induction n as [|n IH]; intros max w h; [reflexivity|].
  cbv zeta. cbn [repeat concat]. rewrite run_app.
  replace (run [Close 0; Acquire]
             (mk_client (mk max [] 1) w [mk_pooled h false]))
    with (mk_client (mk max [] 1) w [mk_pooled (Wrapped h) false])
    by reflexivity.
  rewrite (IH max w (Wrapped h)). now rewrite nat_iter_succ_r.
Qed.

(** A connection that goes back to the pool and out again comes back
    wrapped once more: after a first acquisition that created the driver
    connection [raw], each close followed by an acquisition hands out a
    [PooledConnection] whose [_conn] is the previous [PooledConnection], not
    the driver connection.  No new connection is created for it and
    [active_count] stays 1. *)
Theorem reuse_nests_wrappers
    (max : Z) (w w1 : World) (raw : Conn) (n : nat) :
  1 <= max ->
  pyodbc_connect w = (Return raw, w1) ->
  let c := run (Acquire :: concat (repeat [Close 0; Acquire] n))
               (mk_client (__init__ max) w []) in
  held c = [mk_pooled (Nat.iter n Wrapped (Raw raw)) false] /\
  the_world c = w1 /\
  active_count (the_pool c) = 1 /\
  available_count (the_pool c) = 0.
Proof.
  intros Hmax Hd c. subst c.
  change (run (Acquire :: ?l) ?c0) with (run l (step Acquire c0)).
  assert (Hfirst : step Acquire (mk_client (__init__ max) w [])
                   = mk_client (mk max [] 1) w1 [mk_pooled (Raw raw) false]).
  { cbn [step the_pool the_world held]. unfold get_connection, __init__.
    cbn [_pool list_pop _active max_pool_size].
    destruct (Z.geb_spec 0 max); [lia|]. rewrite Hd. reflexivity. }
  rewrite Hfirst, (reuse_cycles n max w1 (Raw raw)).
  repeat split.
Qed.

Lemma queries_S n pool_id (pools : PyDict.t (ConnectionPool Conn)) (w : World) :
  queries (S n) pool_id pools w
  = snd (query pool_id (fst (queries n pool_id pools w))
                       (snd (queries n pool_id pools w))).
Proof.
  cbn [queries]. destruct (queries n pool_id pools w); reflexivity.
Qed.

(** What a query does to a pool that has no idle connection. *)
Lemma query_on_drained pool_id (pools : PyDict.t (ConnectionPool Conn))
    (w : World) (m a : Z) :
  (forall w0, exists conn w', pyodbc_connect w0 = (Return conn, w')) ->
  PyDict.get pool_id pools = Some (mk m [] a) ->
  let r := query pool_id pools w in
  (a < m ->
     fst r = StatusError
               (TypeError
                  "object does not support the context manager protocol") /\
     PyDict.get pool_id (fst (snd r)) = Some (mk m [] (a + 1))) /\
  (m <= a ->
     fst r = StatusError (PoolExhaustedError a m) /\
     PyDict.get pool_id (fst (snd r)) = Some (mk m [] a)).
Proof.
  intros Hdrv Hp. cbv zeta. unfold query. rewrite Hp.
  unfold with_connection, get_connection.
  cbn [_pool list_pop _active max_pool_size]. split.
  - intros Hlt. destruct (Z.geb_spec a m); [lia|].
    destruct (Hdrv w) as (conn & w' & ->). cbn.
    split; [reflexivity | apply dict_get_set_same].
  - intros Hge. destruct (Z.geb_spec a m); [|lia]. cbn.
    split; [reflexivity | apply dict_get_set_same].
Qed.

(** Every [query] of the ODBC bridge takes a connection out of its pool
    and never gives it back.  With a driver that always connects and a new
    pool of [m >= 0] connections, after [n] queries the pool counts
    [min(n, m)] connections as active and has none idle; the next query
    answers with the [TypeError] of the [with] statement while [n < m], and
    with [PoolExhaustedError] (active [m], max [m]) from then on. *)
Theorem queries_leak_connections
    (pool_id : string) (pools : PyDict.t (ConnectionPool Conn))
    (w : World) (m : Z) (n : nat) :
  (forall w0, exists conn w', pyodbc_connect w0 = (Return conn, w')) ->
  PyDict.get pool_id pools = Some (__init__ m) ->
  0 <= m ->
  let pools_n := fst (queries n pool_id pools w) in
  let w_n := snd (queries n pool_id pools w) in
  exists p,
    PyDict.get pool_id pools_n = Some p /\
    active_count p = Z.min (Z.of_nat n) m /\
    available_count p = 0 /\
    fst (query pool_id pools_n w_n)
    = if Z.of_nat n <? m
      then StatusError
             (TypeError "object does not support the context manager protocol")
      else StatusError (PoolExhaustedError m m).
Proof.
  intros Hdrv Hp Hm. cbv zeta.
  assert (Hinv : PyDict.get pool_id (fst (queries n pool_id pools w))
                 = Some (mk m [] (Z.min (Z.of_nat n) m))).
  { induction n as [|n IH].
    - cbn [queries fst]. rewrite Hp. unfold __init__.
      now replace (Z.min (Z.of_nat 0) m) with 0 by lia.
    - rewrite queries_S.
      destruct (query_on_drained pool_id _ (snd (queries n pool_id pools w))
                  _ _ Hdrv IH) as (Hlt & Hge).
      destruct (Z.lt_ge_cases (Z.min (Z.of_nat n) m) m) as [H|H].
      + destruct (Hlt H) as (_ & ->). f_equal. f_equal. lia.
      + destruct (Hge H) as (_ & ->). f_equal. f_equal. lia. }
  exists (mk m [] (Z.min (Z.of_nat n) m)).
  split; [exact Hinv|]. split; [reflexivity|]. split; [reflexivity|].
  destruct (query_on_drained pool_id _ (snd (queries n pool_id pools w))
              _ _ Hdrv Hinv) as (Hlt & Hge).
  destruct (Z.ltb_spec (Z.of_nat n) m) as [H|H].
  - apply Hlt. lia.
  - destruct Hge as (-> & _); [lia|]. do 2 f_equal. lia.
Qed.

End OdbcMore.


Section RegistryMore.
Context {V : Type}.
Import Registry.
Open Scope string_scope.

Lemma dict_in_keys_set {A} (k b : string) (v : A) (d : PyDict.t A) :
  In k (PyDict.keys (PyDict.set b v d)) <-> k = b \/ In k (PyDict.keys d).
Proof.
  rewrite dict_keys_set. unfold PyDict.contains.
  destruct (PyDict.get b d) as [x|] eqn:E.
  - split; [now right|]. intros [->|H]; [|exact H].
    apply dict_get_keys. now exists x.
  - rewrite in_app_iff. cbn [In]. split.
    + intros [H|[H|[]]]; [now right | now left].
    + intros [->|H]; [right; now left | now left].
Qed.

Lemma construct_names (b : string) (ec : bool) (r : Registry.t V) :
  let r' := construct b ec r in
  (forall k, In k (PyDict.keys (_pools r'))
             <-> k = b \/ In k (PyDict.keys (_pools r)))
  /\ (forall k, In k (PyDict.keys (_breakers r'))
                <-> k = b \/ In k (PyDict.keys (_breakers r)))
  /\ (forall k, In k (PyDict.keys (_caches r'))
                <-> (k = b /\ ec = true) \/ In k (PyDict.keys (_caches r)))
  /\ (PyDict.wf (_pools r) -> PyDict.wf (_pools r')).
Proof.
  destruct r as [ps cs bs]. unfold construct, get_pool, get_cache, get_breaker.
  cbn [_pools _caches _breakers snd].
  assert (Hin : forall A (d : PyDict.t A) k x,
             PyDict.get b d = Some x ->
             (In k (PyDict.keys d) <-> k = b \/ In k (PyDict.keys d))).
  { intros A d k x E. split; [now right|]. intros [->|H]; [|exact H].
    apply dict_get_keys. now exists x. }
  destruct (PyDict.get b ps) as [p|] eqn:Ep; cbn [_pools _caches _breakers snd];
    destruct ec; cbn [_pools _caches _breakers snd];
    try (destruct (PyDict.get b cs) as [c|] eqn:Ec;
         cbn [_pools _caches _breakers snd]);
    destruct (PyDict.get b bs) as [br|] eqn:Eb;
    cbn [_pools _caches _breakers snd];
    repeat match goal with |- _ /\ _ => split end;
    intros;
    try (apply dict_in_keys_set);
    try (eapply Hin; eassumption);
    try (now apply dict_wf_set);
    try assumption;
    try (rewrite dict_in_keys_set; intuition congruence);
    try (split; [now right | intros [[-> _]|H]; [|exact H];
                 apply dict_get_keys; eexists; eassumption]);
    try (split; [now right | intros [[_ H]|H]; [discriminate | exact H]]).
Qed.

Lemma construct_all_snoc (l : list (string * bool)) x (r : Registry.t V) :
  construct_all (l ++ [x]) r = construct (fst x) (snd x) (construct_all l r).
Proof. unfold construct_all. now rewrite fold_left_app. Qed.

Lemma construct_all_names (inits : list (string * bool)) :
  let r := construct_all inits (Registry.empty (V := V)) in
  (forall k, In k (PyDict.keys (_pools r)) <-> In k (map fst inits))
  /\ (forall k, In k (PyDict.keys (_breakers r)) <-> In k (map fst inits))
  /\ (forall k, In k (PyDict.keys (_caches r)) <-> In (k, true) inits)
  /\ PyDict.wf (_pools r).
Proof.
  induction inits as [|[b ec] l IH] using rev_ind.
  - cbn. repeat split; try tauto. constructor.
  - cbn zeta in *. rewrite construct_all_snoc. cbn [fst snd].
    destruct IH as (Hp & Hb & Hc & Hwf).
    destruct (construct_names b ec (construct_all l Registry.empty))
      as (Hp' & Hb' & Hc' & Hwf').
    repeat match goal with |- _ /\ _ => split end.
    + intros k. rewrite Hp', Hp, map_app, in_app_iff. cbn. intuition.
    + intros k. rewrite Hb', Hb, map_app, in_app_iff. cbn. intuition.
    + intros k. rewrite Hc', Hc, in_app_iff. cbn. split.
      * intros [[-> ->]|H]; [right; now left | now left].
      * intros [H|[H|[]]]; [now right|]. left. now inversion H.
    + now apply Hwf'.
Qed.

Lemma health_entries_return (now : Q) (r : Registry.t V) (names : list string) :
  (forall b, In b names ->
     In b (PyDict.keys (_pools r)) /\ In b (PyDict.keys (_breakers r))) ->
  exists entries,
    health_entries now names r = Return entries
    /\ map fst entries = names
    /\ forall b rep, In (b, rep) entries ->
         exists pool breaker,
           PyDict.get b (_pools r) = Some pool
           /\ PyDict.get b (_breakers r) = Some breaker
           /\ rep = mk_report (ConnectionPool.health_check pool)
                              (CircuitBreaker.stats now breaker)
                              (option_map QueryCache.stats
                                 (PyDict.get b (_caches r))).
Proof.
  induction names as [|b rest IH]; intros Hall.
  - exists []. cbn. repeat split. intros b rep [].
  - destruct (Hall b (or_introl eq_refl)) as (Hp & Hb).
    apply dict_get_keys in Hp as (pool & Ep).
    apply dict_get_keys in Hb as (breaker & Eb).
    destruct IH as (entries & Hrun & Hnames & Hrep).
    { intros k Hk. apply Hall. now right. }
    cbn [health_entries]. rewrite Ep, Eb, Hrun.
    eexists. split; [reflexivity|]. split; [cbn; now rewrite Hnames|].
    intros k rep [Heq|Hin].
    + inversion Heq; subst. exists pool, breaker. now repeat split.
    + now apply Hrep.
Qed.

(** [get_pool], [get_cache], [get_breaker], [health_check_all] and the
    registry part of [VectorDBBridge.__init__].
    After any sequence of bridge constructions, whatever the bridges have
    done to their pool, cache and breaker since, [health_check_all] returns
    normally with exactly one report per distinct backend name as it was
    given to the constructor; each report is built from the objects stored
    under that name, and its cache part is [None] exactly for the names
    that were never constructed with [enable_cache]. *)
Theorem health_check_all_reports_constructed
    (inits : list (string * bool)) (r : Registry.t V) (now : Q) :
  same_names (construct_all inits Registry.empty) r ->
  exists entries,
    health_check_all now r = Return entries
    /\ NoDup (map fst entries)
    /\ (forall b, In b (map fst entries) <-> In b (map fst inits))
    /\ forall b rep, In (b, rep) entries ->
         (exists pool breaker,
            PyDict.get b (_pools r) = Some pool
            /\ PyDict.get b (_breakers r) = Some breaker
            /\ report_pool rep = ConnectionPool.health_check pool
            /\ report_circuit_breaker rep = CircuitBreaker.stats now breaker
            /\ report_cache rep
               = option_map QueryCache.stats (PyDict.get b (_caches r)))
         /\ (report_cache rep = None <-> ~ In (b, true) inits).
Proof.
  intros (Sp & Sc & Sb).
  destruct (construct_all_names inits) as (Hp & Hb & Hc & Hwf).
  cbn zeta in *. unfold PyDict.wf in Hwf. rewrite Sp in Hp, Hwf.
  rewrite Sb in Hb.
  destruct (health_entries_return now r (PyDict.keys (_pools r)))
    as (entries & Hrun & Hnames & Hrep).
  { intros b Hin. split; [exact Hin|]. apply Hb. now apply Hp. }
  exists entries. split; [exact Hrun|]. rewrite Hnames.
  split; [exact Hwf|]. split; [exact Hp|].
  intros b rep Hin. destruct (Hrep b rep Hin) as (pool & breaker & Ep & Eb & ->).
  split.
  - exists pool, breaker. now repeat split.
  - cbn [report_cache]. rewrite <- Hc, Sc.
    destruct (PyDict.get b (_caches r)) as [c|] eqn:Ec; cbn [option_map].
    + split; [discriminate|]. intros H. exfalso. apply H.
      apply dict_get_keys. now exists c.
    + split; [|reflexivity]. intros _. now apply dict_get_none.
Qed.



End RegistryMore.


(** * Instances of the further properties *)

Section MoreChecks.
Import Scenario.
Open Scope string_scope.
#[local] Existing Instance MemoryBackend.runtime.
#[local] Existing Instance MemoryBackend.backend.

Lemma half_open_closes_at_threshold_witness :
  CircuitBreaker._state (CircuitBreaker.record_successes 2 half_open_breaker)
    = CircuitBreaker.HALF_OPEN /\
  CircuitBreaker._state (CircuitBreaker.record_successes 3 half_open_breaker)
    = CircuitBreaker.CLOSED.
Proof.
  destruct (half_open_closes_at_threshold half_open_breaker 2
              eq_refl eq_refl) as (Hlt & Heq).
  split.
  - apply Hlt. vm_compute. reflexivity.
  - apply Heq. reflexivity.
Defined.

Lemma failure_restarts_cooldown_witness :
  CircuitBreaker._state half_open_breaker <> CircuitBreaker.CLOSED /\
  CircuitBreaker.can_execute 210
    (CircuitBreaker.record_failure 200 half_open_breaker)
  = (Return false, CircuitBreaker.record_failure 200 half_open_breaker).
Proof.
  assert (H : CircuitBreaker._state half_open_breaker
              <> CircuitBreaker.CLOSED) by discriminate.
  split; [exact H|].
  destruct (failure_restarts_cooldown half_open_breaker 200 210 H)
    as (_ & _ & Hdenied & _).
  apply Hdenied. vm_compute. reflexivity.
Defined.


Lemma breaker_invariant_witness :
  1 <= 5 /\
  CircuitBreaker.sound
    (CircuitBreaker.do_calls
       [CircuitBreaker.RecordFailure 1; CircuitBreaker.RecordFailure 2;
        CircuitBreaker.CanExecute 3; CircuitBreaker.RecordSuccess]
       (CircuitBreaker.__init__ 5 3 30)).
Proof.
  assert (H : 1 <= 5) by lia.
  split; [exact H|].
  exact (proj1 (breaker_invariant 5 3 30
                  [CircuitBreaker.RecordFailure 1;
                   CircuitBreaker.RecordFailure 2;
                   CircuitBreaker.CanExecute 3; CircuitBreaker.RecordSuccess]
                  4 H)).
Defined.

Lemma health_flag_follows_outcome_witness :
  0 <= ConnectionPool.max_retries (ConnectionPool.pool pool_state) /\
  ConnectionPool._healthy
    (ConnectionPool.pool
       (snd (ConnectionPool.execute_with_retry (flaky 2 "ok") pool_state)))
  = true.
Proof.
  pose (run := ConnectionPool.execute_with_retry (flaky 2 "ok") pool_state).
  assert (Hrun : run = (Return "ok", snd run)) by (vm_compute; reflexivity).
  assert (H0 : 0 <= ConnectionPool.max_retries
                      (ConnectionPool.pool pool_state))
    by (vm_compute; discriminate).
  split; [exact H0|].
  exact (health_flag_follows_outcome (flaky 2 "ok") pool_state
           (Return "ok") (snd run) H0 Hrun).
Defined.

Lemma one_sample_per_attempt_witness :
  exists new,
    ConnectionPool.log
      (snd (ConnectionPool.execute_with_retry (flaky 2 "ok") pool_state))
    = (ConnectionPool.log pool_state ++ new)%list /\
    RequestMetrics.total_requests
      (ConnectionPool._metrics
         (ConnectionPool.pool
            (snd (ConnectionPool.execute_with_retry (flaky 2 "ok")
                    pool_state))))
    = RequestMetrics.total_requests
        (ConnectionPool._metrics (ConnectionPool.pool pool_state))
      + Z.of_nat (S (length (sleeps new))).
Proof.
  pose (run := ConnectionPool.execute_with_retry (flaky 2 "ok") pool_state).
  assert (Hrun : run = (fst run, snd run)) by (vm_compute; reflexivity).
  assert (H0 : 0 <= ConnectionPool.max_retries
                      (ConnectionPool.pool pool_state))
    by (vm_compute; discriminate).
  destruct (one_sample_per_attempt (flaky 2 "ok") pool_state
              (fst run) (snd run) H0 Hrun) as (new & Hlog & Htotal & _).
  exists new. split; [exact Hlog | exact Htotal].
Defined.


Lemma sleeps_capped_and_growing_witness :
  exists new,
    ConnectionPool.log
      (snd (ConnectionPool.execute_with_retry (flaky 2 "ok") pool_state))
    = (ConnectionPool.log pool_state ++ new)%list /\
    Forall (fun d => (d <= 10)%Q) (sleeps new) /\
    nondecreasing (sleeps new).
Proof.
  assert (H0 : (0 <= ConnectionPool.retry_base_delay
                       (ConnectionPool.pool pool_state))%Q)
    by (vm_compute; discriminate).
  exact (sleeps_capped_and_growing (flaky 2 "ok") pool_state H0).
Defined.

Lemma cache_invariant_witness :
  1 <= 2 /\
  QueryCache.size
    (QueryCache.do_calls
       [QueryCache.CallSet 0 "a" ["x"]; QueryCache.CallSet 1 "b" ["y"];
        QueryCache.CallSet 2 "c" ["z"]; QueryCache.CallGet 3 "a"]
       (QueryCache.__init__ 2 300))
  <= 2.
Proof.
  assert (H : 1 <= 2) by lia.
  split; [exact H|].
  destruct (cache_invariant 2 300
              [QueryCache.CallSet 0 "a" ["x"]; QueryCache.CallSet 1 "b" ["y"];
               QueryCache.CallSet 2 "c" ["z"]; QueryCache.CallGet 3 "a"] H)
    as (_ & _ & Hle & _).
  exact Hle.
Defined.

Lemma zero_capacity_cache_stays_empty_witness :
  0 <= 0 /\
  QueryCache._cache
    (QueryCache.do_calls [QueryCache.CallSet 0 "a" ["x"]]
       (QueryCache.__init__ 0 300))
  = [] /\
  fst (QueryCache.set 1 "b" ["y"]
         (QueryCache.do_calls [QueryCache.CallSet 0 "a" ["x"]]
            (QueryCache.__init__ 0 300)))
  = Raise (ValueError "min() arg is an empty sequence").
Proof.
  assert (H : 0 <= 0) by lia.
  split; [exact H|].
  destruct (zero_capacity_cache_stays_empty 0 300
              [QueryCache.CallSet 0 "a" ["x"]] 1 "b" ["y"] H)
    as (Hempty & Hraise & _).
  split; [exact Hempty | exact Hraise].
Defined.

Lemma set_then_get_witness :
  fst (QueryCache.get 20 "c"
         (snd (QueryCache.set 10 "c" ["doc-c"] full_cache)))
  = Some ["doc-c"].
Proof.
  pose (run := QueryCache.set 10 "c" ["doc-c"] full_cache).
  assert (Hrun : run = (Return tt, snd run)) by (vm_compute; reflexivity).
  destruct (set_then_get 10 20 "c" ["doc-c"] full_cache (snd run) Hrun)
    as (Hfresh & _).
  apply Hfresh. vm_compute. discriminate.
Defined.

Lemma full_cache_wf : PyDict.wf (QueryCache._cache full_cache).
Proof.
  unfold PyDict.wf. simpl. constructor.
  - simpl. intros [H|[]]. discriminate H.
  - constructor; [intros [] | constructor].
Defined.

Lemma set_existing_key_when_full_witness :
  In "a" (PyDict.keys (QueryCache._cache full_cache)) /\
  QueryCache.max_size full_cache <= QueryCache.size full_cache /\
  exists oldest,
    py_min (QueryCache.timestamp_of (QueryCache._cache full_cache))
      (PyDict.keys (QueryCache._cache full_cache)) = Some oldest /\
    fst (QueryCache.set 10 "a" ["doc-a2"] full_cache) = Return tt.
Proof.
  assert (Hin : In "a" (PyDict.keys (QueryCache._cache full_cache)))
    by (left; reflexivity).
  assert (Hfull : QueryCache.max_size full_cache
                  <= QueryCache.size full_cache)
    by (vm_compute; discriminate).
  split; [exact Hin|]. split; [exact Hfull|].
  destruct (set_existing_key_when_full (KD := name_key) 10 "a" ["doc-a2"] full_cache
              full_cache_wf Hin Hfull) as (oldest & Hmin & Hset & _).
  exists oldest. split; [exact Hmin | exact Hset].
Defined.

Lemma eviction_takes_first_oldest_witness :
  exists d1 oldest e d2,
    QueryCache._cache full_cache = (d1 ++ (oldest, e) :: d2)%list /\
    QueryCache.set 10 "c" ["doc-c"] full_cache
    = (Return tt,
       QueryCache.set_cache
         (PyDict.set "c" (QueryCache.mk_entry ["doc-c"] 10) (d1 ++ d2)%list)
         full_cache).
Proof.
  assert (Hfull : QueryCache.max_size full_cache
                  <= QueryCache.size full_cache)
    by (vm_compute; discriminate).
  assert (Hne : QueryCache._cache full_cache <> []) by discriminate.
  destruct (eviction_takes_first_oldest 10 "c" ["doc-c"] full_cache
              full_cache_wf Hfull Hne)
    as (d1 & oldest & e & d2 & Hsplit & _ & _ & Hset).
  exists d1, oldest, e, d2. split; [exact Hsplit | exact Hset].
Defined.

Lemma search_writes_through_witness :
  exists c2,
    VectorDBBridge._cache
      (snd (VectorDBBridge.search "q" false true warm_bridge)) = Some c2 /\
    PyDict.get "q" (QueryCache._cache c2)
    = Some (QueryCache.mk_entry ["doc-1"] 0).
Proof.
  pose (run := VectorDBBridge.search "q" false true warm_bridge).
  assert (Hrun : run = (Return ["doc-1"], snd run))
    by (vm_compute; reflexivity).
  assert (Hmiss : fst (QueryCache.get
                         (time_time (VectorDBBridge.world warm_bridge))
                         "q" get_cache) = None)
    by (vm_compute; reflexivity).
  destruct (search_writes_through "q" false false warm_bridge get_cache
              ["doc-1"] (snd run) eq_refl Hmiss Hrun)
    as (c2 & Hc2 & Hentry & _).
  exists c2. split; [exact Hc2 | exact Hentry].
Defined.

Lemma add_reports_once_to_breaker_witness :
  VectorDBBridge._cache (snd (VectorDBBridge.add "doc" bridge))
  = VectorDBBridge._cache bridge.
Proof.
  exact (proj1 (add_reports_once_to_breaker "doc" bridge eq_refl)).
Defined.

Lemma memory_search_always_fails_witness :
  exists e,
    fst (VectorDBBridge.search "q" false true memory_bridge) = Raise e.
Proof.
  assert (Hmiss : forall c,
             VectorDBBridge.cache_in_use true memory_bridge = Some c ->
             fst (QueryCache.get
                    (time_time (VectorDBBridge.world memory_bridge)) "q" c)
             = None).
  { intros c Hc.
    assert (Hc' : Some get_cache = Some c) by exact Hc.
    injection Hc' as <-. reflexivity. }
  exact (proj1 (memory_search_always_fails "q" false true memory_bridge
                  Hmiss)).
Defined.

Lemma memory_add_then_get_witness :
  MemoryBackend.get "d1"
    (VectorDBBridge.world
       (snd (VectorDBBridge.add (Params := string)
               ("d1", [1; 2], None) memory_bridge)))
  = Some ("d1", [1; 2], MemoryBackend.or_empty None).
Proof.
  assert (H0 : 0 < ConnectionPool._available
                     (VectorDBBridge._pool memory_bridge))
    by (vm_compute; reflexivity).
  assert (H1 : 0 <= ConnectionPool.max_retries
                      (VectorDBBridge._pool memory_bridge))
    by (vm_compute; discriminate).
  destruct (memory_add_then_get (Params := string) "d1" "d2" [1; 2] None
              memory_bridge eq_refl H0 H1) as (_ & _ & Hget & _).
  exact Hget.
Defined.

Lemma reuse_nests_wrappers_witness :
  Odbc.held
    (Odbc.run
       (Odbc.Acquire
          :: concat (repeat [Odbc.Close 0; Odbc.Acquire] 2))
       (Odbc.mk_client (Odbc.__init__ 2) 0%nat []))
  = [Odbc.mk_pooled (Odbc.Wrapped (Odbc.Wrapped (Odbc.Raw 0%nat))) false].
Proof.
  assert (H : 1 <= 2) by lia.
  exact (proj1 (reuse_nests_wrappers 2 0%nat 1%nat 0%nat 2 H eq_refl)).
Defined.

Lemma queries_leak_connections_witness :
  fst (Odbc.query "main"
         (fst (Odbc.queries 3 "main" odbc_pools 0%nat))
         (snd (Odbc.queries 3 "main" odbc_pools 0%nat)))
  = Odbc.StatusError (PoolExhaustedError 2 2).
Proof.
  assert (Hdriver : forall w0 : nat,
             exists conn w', Odbc.pyodbc_connect w0 = (Return conn, w')).
  { intros w0. exists w0, (S w0). reflexivity. }
  assert (H : 0 <= 2) by lia.
  destruct (queries_leak_connections "main" odbc_pools 0%nat 2 3
              Hdriver eq_refl H) as (p & _ & _ & _ & Hquery).
  exact Hquery.
Defined.

Lemma constructions_same_names :
  Registry.same_names
    (Registry.construct_all constructions
       (Registry.empty (V := list string)))
    (Registry.construct_all constructions Registry.empty).
Proof. repeat split. Defined.

Lemma health_check_all_reports_constructed_witness :
  exists entries,
    Registry.health_check_all 0
      (Registry.construct_all constructions
         (Registry.empty (V := list string)))
    = Return entries /\
    NoDup (map fst entries) /\
    forall b, In b (map fst entries) <-> In b (map fst constructions).
Proof.
  destruct (health_check_all_reports_constructed constructions
              (Registry.construct_all constructions Registry.empty) 0
              constructions_same_names)
    as (entries & Hrun & Hnodup & Hnames & _).
  exists entries. split; [exact Hrun|]. split; [exact Hnodup | exact Hnames].
Defined.


Lemma invalidate_then_get_witness :
  fst (QueryCache.get 1 "q" (QueryCache.invalidate "q" one_entry_cache))
  = None /\
  fst (QueryCache.get 1 "r" (QueryCache.invalidate "q" one_entry_cache))
  = fst (QueryCache.get 1 "r" one_entry_cache).
Proof.
  destruct (invalidate_then_get (KD := name_key) 1 "q" "r" one_entry_cache)
    as (Hgone & Hother & _).
  split; [exact Hgone|]. apply Hother. discriminate.
Defined.

Lemma uncached_read_still_invalidates_witness :
  exists x,
    VectorDBBridge.log (snd (VectorDBBridge.search "q" false false bridge))
    = (VectorDBBridge.log bridge ++ [EvCall x])%list.
Proof.
  pose (entered := CircuitBreaker.__enter__
                     (time_time (VectorDBBridge.world bridge))
                     (VectorDBBridge._breaker bridge)).
  assert (Henter : entered = (Return tt, snd entered))
    by (vm_compute; reflexivity).
  exact (proj2 (uncached_read_still_invalidates "q" false bridge)
           (snd entered) Henter).
Defined.

Lemma add_batch_with_documents_raises_witness :
  fst (VectorDBBridge.add_batch ["d1"; "d2"] bridge)
  = Raise (OtherException "UnboundLocalError"
             "local variable 'embeddings' referenced before assignment").
Proof.
  assert (H0 : 0 < ConnectionPool._available (VectorDBBridge._pool bridge))
    by (vm_compute; reflexivity).
  assert (H1 : 0 <= ConnectionPool.max_retries (VectorDBBridge._pool bridge))
    by (vm_compute; discriminate).
  destruct (add_batch_with_documents_raises "d1" ["d2"] bridge)
    as (_ & Hclosed).
  exact (proj1 (Hclosed eq_refl H0 H1)).
Defined.

Lemma acquire_refused_when_all_out_witness :
  fst (Odbc.get_connection
         (Odbc.the_pool
            (Odbc.run [Odbc.Acquire]
               (Odbc.mk_client (Odbc.__init__ 1) 0%nat [])))
         (Odbc.the_world
            (Odbc.run [Odbc.Acquire]
               (Odbc.mk_client (Odbc.__init__ 1) 0%nat []))))
  = Raise (PoolExhaustedError 1 1).
Proof.
  destruct (acquire_refused_when_all_out 1 0%nat [Odbc.Acquire])
    as (Hfull & _).
  destruct Hfull as (Hr & _); [vm_compute; discriminate|].
  rewrite Hr. reflexivity.
Defined.

End MoreChecks.
